(** * x_to_telegram_feed: a shallow embedding of the X -> Telegram forwarder

    The repository holds several revisions of the single script
    [x_to_telegram.js].  Two of them are embedded here:

    - the Gist-backed revision with media support (state in a GitHub Gist,
      [run], [processTweets], [sendToTelegram] with media fallback), at
      top level;
    - the file-backed polling revision (state in a local JSON file,
      [runOnce], ids compared through [BigInt]), in [Module Legacy].

    JavaScript strings are sequences of UTF-16 code units; awaited calls to
    the outside world (Telegram, the X API, the state store) are functions
    of an explicit [World], their outcomes scripted by an [Env]. *)

From Stdlib Require Import String Ascii.
From Stdlib Require Import List NArith ZArith Arith Bool Lia.
From Stdlib Require Import Sorting.Sorted Sorting.Permutation.
Import ListNotations.

(* ------------------------------------------------------------------ *)
(** * Strings                                                           *)
(* ------------------------------------------------------------------ *)

(** A UTF-16 code unit and a JavaScript string; [length] is [.length]. *)
Definition cu := N.
Definition jsstring := list cu.

(** An ASCII literal as code units. *)
Fixpoint lit (s : string) : jsstring :=
  match s with
  | EmptyString => []
  | String a r => N_of_ascii a :: lit r
  end.

Definition NL : cu := 10%N.
Definition SP : cu := 32%N.

(** Truthiness of a string-or-undefined value: [undefined], [null] and the
    empty string are falsy. *)
Definition truthy (o : option jsstring) : bool :=
  match o with
  | Some (_ :: _) => true
  | _ => false
  end.

(** The class [\s] of regular expressions, which is also what [trim]
    strips (WhiteSpace and LineTerminator). *)
Definition is_ws (c : cu) : bool :=
  ((9 <=? c) && (c <=? 13) || (c =? 32) || (c =? 160) || (c =? 5760)
   || (8192 <=? c) && (c <=? 8202) || (c =? 8232) || (c =? 8233)
   || (c =? 8239) || (c =? 8287) || (c =? 12288) || (c =? 65279))%N.

Fixpoint dropWhile (p : cu -> bool) (s : jsstring) : jsstring :=
  match s with
  | [] => []
  | c :: r => if p c then dropWhile p r else s
  end.

Fixpoint takeWhile (p : cu -> bool) (s : jsstring) : jsstring :=
  match s with
  | [] => []
  | c :: r => if p c then c :: takeWhile p r else []
  end.

(** [s.trim()] *)
Definition trim (s : jsstring) : jsstring :=
  rev (dropWhile is_ws (rev (dropWhile is_ws s))).

(** [s.substring(a, b)] for [0 <= a <= b]. *)
Definition substring (s : jsstring) (a b : nat) : jsstring :=
  firstn (b - a) (skipn a s).

Fixpoint starts_with (p s : jsstring) : bool :=
  match p, s with
  | [], _ => true
  | _ :: _, [] => false
  | a :: p', b :: s' => (a =? b)%N && starts_with p' s'
  end.

(** [s.replaceAll(p, '')] for a string pattern: the occurrences are found
    left to right and do not overlap.  [skip] counts the code units of the
    current occurrence still to be dropped. *)
Fixpoint replaceAll_go (skip : nat) (p s : jsstring) : jsstring :=
  match s with
  | [] => []
  | c :: r =>
      match skip with
      | S k => replaceAll_go k p r
      | O => if starts_with p s
             then replaceAll_go (length p - 1) p r
             else c :: replaceAll_go 0 p r
      end
  end.

Definition replaceAll (s p : jsstring) : jsstring :=
  match p with
  | [] => s
  | _ :: _ => replaceAll_go 0 p s
  end.

(** [s.replace(/\s+/g, ' ')]: every maximal run of white space becomes one
    space.  [in_ws] tells that the previous code unit was white space. *)
Fixpoint collapse_ws_go (in_ws : bool) (s : jsstring) : jsstring :=
  match s with
  | [] => []
  | c :: r =>
      if is_ws c
      then (if in_ws then collapse_ws_go true r else SP :: collapse_ws_go true r)
      else c :: collapse_ws_go false r
  end.

Definition collapse_ws (s : jsstring) : jsstring := collapse_ws_go false s.

(** Index of the last line feed of [run] at index [>= 1], counted from
    [i]: where the greedy [\s+] of [/\n\s+\n/] has to stop for the final
    [\n] to match. *)
Fixpoint last_nl_from (i : nat) (run : jsstring) : option nat :=
  match run with
  | [] => None
  | c :: r =>
      match last_nl_from (S i) r with
      | Some k => Some k
      | None => if (c =? NL)%N && (1 <=? i) then Some i else None
      end
  end.

(** [s.replace(/\n\s+\n/g, '\n\n')]: a line feed, at least one white space
    code unit, a line feed; matches are found left to right. *)
Fixpoint squeeze_blank_go (skip : nat) (s : jsstring) : jsstring :=
  match s with
  | [] => []
  | c :: r =>
      match skip with
      | S k => squeeze_blank_go k r
      | O =>
          if (c =? NL)%N
          then match last_nl_from 0 (takeWhile is_ws r) with
               | Some k => NL :: NL :: squeeze_blank_go (S k) r
               | None => c :: squeeze_blank_go 0 r
               end
          else c :: squeeze_blank_go 0 r
      end
  end.

Definition squeeze_blank (s : jsstring) : jsstring := squeeze_blank_go 0 s.

(** [s.lastIndexOf(c, from)]: the largest index [i <= from] with
    [s[i] = c]; [None] stands for [-1]. *)
Fixpoint lastIndexOf_at (i : nat) (c : cu) (s : jsstring) (from : nat)
  : option nat :=
  match s with
  | [] => None
  | x :: r =>
      match lastIndexOf_at (S i) c r from with
      | Some k => Some k
      | None => if (x =? c)%N && (i <=? from) then Some i else None
      end
  end.

Definition lastIndexOf (s : jsstring) (c : cu) (from : nat) : option nat :=
  lastIndexOf_at 0 c s from.

(** The ASCII digits, and the strings made of them. *)
Definition is_digit (c : cu) : bool := ((48 <=? c) && (c <=? 57))%N.

Definition all_digits (s : jsstring) : bool := forallb is_digit s.

(** Comparison by code units: the first difference decides, and a proper
    prefix comes first. *)
Fixpoint compare_units (a b : jsstring) : Z :=
  match a, b with
  | [], [] => 0
  | [], _ :: _ => -1
  | _ :: _, [] => 1
  | x :: a', y :: b' =>
      if (x <? y)%N then -1
      else if (y <? x)%N then 1
      else compare_units a' b'
  end%Z.

(** [a.localeCompare(b)], called without a locale: the collation of the
    default locale of the host.  On two strings of ASCII digits, which is
    what tweet ids are, a collation compares digit by digit, which is the
    order of the code units.  On any other strings the result is the
    host's, [collate]: about those the script decides nothing (letters,
    for one, are not collated by code unit). *)
Definition localeCompare (collate : jsstring -> jsstring -> Z) (a b : jsstring)
  : Z :=
  if all_digits a && all_digits b then compare_units a b else collate a b.

(** [Array.prototype.sort(cmp)], a stable sort.  An element stays before
    the elements that followed it, except those that the comparator puts
    before it: as the sort of Node does, the comparator is asked about a
    later element and an earlier one, [cmp(later, earlier) < 0].  For a
    comparator that is a consistent order this is the result of every
    engine; for another comparator the language leaves the order to the
    engine. *)
Section Sort.
Variable A : Type.
Variable cmp : A -> A -> Z.

Fixpoint sort_insert (x : A) (l : list A) : list A :=
  match l with
  | [] => [x]
  | y :: r => if (cmp y x <? 0)%Z then y :: sort_insert x r else x :: l
  end.

Fixpoint array_sort (l : list A) : list A :=
  match l with
  | [] => []
  | x :: r => sort_insert x (array_sort r)
  end.
End Sort.

Arguments sort_insert {A} cmp x l.
Arguments array_sort {A} cmp l.

(* ------------------------------------------------------------------ *)
(** * Constants                                                         *)
(* ------------------------------------------------------------------ *)

Definition TELEGRAM_MAX_MESSAGE_LENGTH : nat := 4096.
Definition TELEGRAM_CAPTION_MAX_LENGTH : nat := 1024.
Definition TELEGRAM_MEDIA_GROUP_MAX_SIZE : nat := 10.
Definition X_API_MAX_RESULTS : nat := 100.

(* ------------------------------------------------------------------ *)
(** * Posts and media                                                   *)
(* ------------------------------------------------------------------ *)

(** One entry of [tweet.entities.urls]; [url] is the t.co link. *)
Record UrlEntity := { url : option jsstring }.

(** A tweet object of the X API.  [note_tweet_text] is
    [tweet.note_tweet?.text]; [entities_urls] is [tweet.entities?.urls];
    [media_keys] is [tweet.attachments?.media_keys]. *)
Record Tweet := {
  id : jsstring;
  text : option jsstring;
  note_tweet_text : option jsstring;
  entities_urls : option (list UrlEntity);
  media_keys : option (list jsstring)
}.

Inductive MediaType := photo | video | animated_gif.

(** One entry of [includes.media]. *)
Record XMedia := {
  media_key : jsstring;
  mtype : MediaType;
  murl : option jsstring;
  preview_image_url : option jsstring
}.

(** What [extractMedia] hands to the delivery functions. *)
Record TgMedia := {
  tg_type : MediaType;
  tg_url : jsstring;
  isVideoPreview : bool
}.

(* ------------------------------------------------------------------ *)
(** * Pure functions of the Gist-backed revision                        *)
(* ------------------------------------------------------------------ *)

(** The loop of [chunkTelegramMessage]; [fuel] bounds the iterations and
    [None] means the bound was hit. *)
Fixpoint chunk_loop (fuel : nat) (text : jsstring) (chunkSize start : nat)
  : option (list jsstring) :=
  match fuel with
  | O => if start <? length text then None else Some []
  | S f =>
      if start <? length text then
        let end_ := Nat.min (start + chunkSize) (length text) in
        let splitAt :=
          match lastIndexOf text NL end_ with
          | None => end_
          | Some i => if i <=? start then end_ else i
          end in
        let start' := if splitAt =? end_ then end_ else splitAt + 1 in
        match chunk_loop f text chunkSize start' with
        | Some rest => Some (substring text start splitAt :: rest)
        | None => None
        end
      else Some []
  end.

Definition chunkTelegramMessage_fuel (text : jsstring) (chunkSize : nat)
  : option (list jsstring) :=
  if length text <=? chunkSize then Some [text]
  else chunk_loop (length text) text chunkSize 0.

(** [chunkTelegramMessage(text)] with the default chunk size; the fuel
    never runs out ([chunk_total] below). *)
Definition chunkTelegramMessage (text : jsstring) : list jsstring :=
  match chunkTelegramMessage_fuel text TELEGRAM_MAX_MESSAGE_LENGTH with
  | Some l => l
  | None => []
  end.

Definition strip_url (t : jsstring) (u : UrlEntity) : jsstring :=
  if truthy (url u)
  then match url u with Some p => replaceAll t p | None => t end
  else t.

Definition extractTweetText (tweet : Tweet) : jsstring :=
  let text0 :=
    trim (match note_tweet_text tweet with
          | Some s => s
          | None => match text tweet with Some s => s | None => [] end
          end) in
  let urls := match entities_urls tweet with Some l => l | None => [] end in
  let text1 := fold_left strip_url urls text0 in
  trim (squeeze_blank (collapse_ws text1)).

(** Surrogate pairs of the three emoji of the message template. *)
Definition CLAPPER : jsstring := [55356; 57260]%N.
Definition POINT_DOWN : jsstring := [55357; 56391]%N.
Definition LINK : jsstring := [55357; 56599]%N.

Definition buildMessage (username : jsstring) (tweet : Tweet)
           (hasVideoPreview : bool) : jsstring :=
  let tweetUrl := lit "https://x.com/" ++ username ++ lit "/status/" ++ id tweet in
  let message := extractTweetText tweet in
  let message :=
    if hasVideoPreview
    then message ++ [NL; NL] ++ CLAPPER
           ++ lit " Watch the full video via the Source link below " ++ POINT_DOWN
    else message in
  message ++ [NL; NL] ++ LINK ++ lit " Source:" ++ [NL] ++ tweetUrl.

(** [a === b] on strings. *)
Fixpoint str_eqb (a b : jsstring) : bool :=
  match a, b with
  | [], [] => true
  | x :: a', y :: b' => (x =? y)%N && str_eqb a' b'
  | _, _ => false
  end.

(** [new Map(mediaData.map(m => [m.media_key, m])).get(key)]: of two
    entries with one key the later one wins. *)
Fixpoint map_get (mediaData : list XMedia) (key : jsstring) : option XMedia :=
  match mediaData with
  | [] => None
  | m :: r =>
      match map_get r key with
      | Some m' => Some m'
      | None => if str_eqb (media_key m) key then Some m else None
      end
  end.

Definition media_eligible (m : XMedia) : bool :=
  match mtype m with
  | photo => truthy (murl m)
  | video => truthy (preview_image_url m)
  | animated_gif => false
  end.

Definition to_tg_media (m : XMedia) : TgMedia :=
  let or_empty o := match o with Some s => s | None => [] end in
  match mtype m with
  | video => {| tg_type := photo; tg_url := or_empty (preview_image_url m);
                isVideoPreview := true |}
  | t => {| tg_type := t; tg_url := or_empty (murl m); isVideoPreview := false |}
  end.

Fixpoint filter_map_get (mediaData : list XMedia) (keys : list jsstring)
  : list XMedia :=
  match keys with
  | [] => []
  | k :: r =>
      match map_get mediaData k with
      | Some m => if media_eligible m then m :: filter_map_get mediaData r
                  else filter_map_get mediaData r
      | None => filter_map_get mediaData r
      end
  end.

Definition extractMedia (tweet : Tweet) (mediaData : list XMedia) : list TgMedia :=
  let mediaKeys := match media_keys tweet with Some l => l | None => [] end in
  match mediaKeys, mediaData with
  | [], _ => []
  | _, [] => []
  | _, _ => map to_tg_media (filter_map_get mediaData mediaKeys)
  end.

Definition generateCaption (message : jsstring) : jsstring :=
  if length message <=? TELEGRAM_CAPTION_MAX_LENGTH
  then message
  else substring message 0 (TELEGRAM_CAPTION_MAX_LENGTH - 3) ++ lit "...".

(* ------------------------------------------------------------------ *)
(** * The outside world                                                 *)
(* ------------------------------------------------------------------ *)

(** A thrown JavaScript error, with the fields the handlers look at:
    [e.message], [e.code], [e.statusCode], [e.response?.status],
    [e.data?.status] and whether [e.rateLimit] is set.  A numeric field is
    [Some n] when it holds the number [n], [None] when it is [undefined]
    or not a number. *)
Record JsError := {
  e_message : jsstring;
  e_code : option Z;
  e_statusCode : option Z;
  e_response_status : option Z;
  e_data_status : option Z;
  e_rateLimit : bool
}.

(** [new Error(msg)] *)
Definition mkError (msg : jsstring) : JsError :=
  {| e_message := msg; e_code := None; e_statusCode := None;
     e_response_status := None; e_data_status := None; e_rateLimit := false |}.

Definition is429 (o : option Z) : bool :=
  match o with Some n => (n =? 429)%Z | None => false end.

Definition has429Status (e : JsError) : bool :=
  is429 (e_code e) || is429 (e_statusCode e)
  || is429 (e_response_status e) || is429 (e_data_status e).

(** The persisted record, [{ last_id, user_id }]; [None] is [null] or a
    missing key. *)
Record State := { last_id : option jsstring; user_id : option jsstring }.

(** What the state file holds: nothing (or an empty content), something
    that [JSON.parse] rejects, or a record. *)
Inductive Blob := NoFile | Corrupt | Parsed (s : State).

(** Calls to the Telegram Bot API. *)
Record GroupItem := {
  gi_type : MediaType;
  gi_media : jsstring;
  gi_caption : option jsstring
}.

Inductive TgCall :=
| SendMessage (chat part : jsstring) (disable_web_page_preview html : bool)
| SendPhoto (chat photo_url caption : jsstring)
| SendMediaGroup (chat : jsstring) (items : list GroupItem).

(** Requests to the X API. *)
Record TimelineReq := {
  rq_user : jsstring;
  rq_since_id : option jsstring;
  rq_max_results : nat;
  rq_exclude : list jsstring
}.

Inductive XCall :=
| UserByUsername (username : jsstring)
| UserTimeline (rq : TimelineReq)
| SingleTweet (tweetId : jsstring).

(** The [rateLimit] object of a response; a field is [None] when it is
    [undefined]. *)
Record RateLimit := {
  rl_limit : option N;
  rl_remaining : option N;
  rl_reset : option N
}.

Record UserResp := { ur_id : option jsstring; ur_rateLimit : option RateLimit }.
Record TimelineResp := {
  tr_data : option (list Tweet);
  tr_media : option (list XMedia);
  tr_rateLimit : option RateLimit
}.
Record SingleResp := {
  sr_data : option Tweet;
  sr_media : option (list XMedia);
  sr_rateLimit : option RateLimit
}.

(** The lines written by [log] ([false]) and [logError] ([true]), without
    their time stamp; one constructor per call site. *)
Inductive LogMsg :=
| LStateLoaded (s : State)
| LStateFresh
| LStateLoadFailed (msg : jsstring)
| LStateSaved (lastId : option jsstring)
| LStateSaveFailed (msg : jsstring)
| LDryRunMessage (message : jsstring)
| LDryRunMedia (media : list TgMedia)
| LDryRunRule
| LMediaError (msg : jsstring)
| LTelegramError (msg : jsstring)
| LRateLimitInfo (endpoint : jsstring) (remaining limit : N)
| LRateLimitReset
| LLookingUp (username : jsstring)
| LFetchingSpecific (tweetId : jsstring)
| LNoNewTweets
| LFound (n : nat)
| LPosted (tweetId : jsstring) (nmedia : nat)
| LDone (n : nat)
| LWarn429
| LResetsIn
| LStart (username : jsstring)
| LError (msg : jsstring)
| LLoopWarn.

(** What a run cannot choose: the environment variables, the outcome of
    every outside call, given the number of calls of that kind made
    before it ([None] for the store and Telegram: the call succeeds), and
    the collation of the default locale of the host. *)
Record Env := {
  env_gist : bool;           (* STATE_GIST_ID and GIST_TOKEN are set *)
  env_telegram : bool;       (* TELEGRAM_BOT_TOKEN and TELEGRAM_CHAT_ID are set *)
  env_bearer : bool;         (* X_BEARER_TOKEN is set *)
  tgChat : jsstring;
  read_fails : nat -> option jsstring;
  write_fails : nat -> option jsstring;
  tg_fails : nat -> TgCall -> option JsError;
  x_user : nat -> jsstring -> JsError + UserResp;
  x_timeline : nat -> TimelineReq -> JsError + TimelineResp;
  x_single : nat -> jsstring -> JsError + SingleResp;
  collation : jsstring -> jsstring -> Z   (* collation of the default locale *)
}.

Record World := {
  store : Blob;                 (* content of the state file *)
  n_reads : nat;                (* store reads attempted *)
  n_writes : nat;               (* store writes attempted *)
  writes : list State;          (* records written, oldest first *)
  tg_attempts : nat;            (* Telegram calls attempted *)
  tg_sent : list TgCall;        (* Telegram calls accepted, oldest first *)
  x_calls : list XCall;         (* X API requests made, oldest first *)
  logs : list (bool * LogMsg)
}.

(** The persisted cursor. *)
Definition cursor (w : World) : option jsstring :=
  match store w with
  | Parsed s => last_id s
  | _ => None
  end.

(* ------------------------------------------------------------------ *)
(** * Computations that may throw                                       *)
(* ------------------------------------------------------------------ *)

(** An [async] function: it reads the environment, changes the world, and
    returns ([inr]) or throws ([inl]); what it did before throwing stays
    done. *)
Definition M (A : Type) : Type := Env -> World -> (JsError + A) * World.

Definition ret {A} (a : A) : M A := fun _ w => (inr a, w).
Definition throw {A} (e : JsError) : M A := fun _ w => (inl e, w).

Definition bind {A B} (m : M A) (k : A -> M B) : M B :=
  fun env w =>
    match m env w with
    | (inr a, w1) => k a env w1
    | (inl e, w1) => (inl e, w1)
    end.

(** [try { m } catch (e) { h e }] *)
Definition try_catch {A} (m : M A) (h : JsError -> M A) : M A :=
  fun env w =>
    match m env w with
    | (inr a, w1) => (inr a, w1)
    | (inl e, w1) => h e env w1
    end.

Declare Scope m_scope.
Delimit Scope m_scope with m.
Notation "x <- c1 ;; c2" := (bind c1 (fun x => c2))
  (at level 61, c1 at next level, right associativity) : m_scope.
Notation "c1 ;; c2" := (bind c1 (fun _ => c2))
  (at level 61, right associativity) : m_scope.
Local Open Scope m_scope.

(** [for (const x of l) { await f(x); }] *)
Fixpoint for_of {A} (l : list A) (f : A -> M unit) : M unit :=
  match l with
  | [] => ret tt
  | x :: r => f x ;; for_of r f
  end.

Definition ask : M Env := fun env w => (inr env, w).

Definition push_log (is_err : bool) (m : LogMsg) : M unit :=
  fun _ w =>
    (inr tt,
     {| store := store w; n_reads := n_reads w; n_writes := n_writes w;
        writes := writes w; tg_attempts := tg_attempts w; tg_sent := tg_sent w;
        x_calls := x_calls w; logs := logs w ++ [(is_err, m)] |}).

Definition log (m : LogMsg) : M unit := push_log false m.
Definition logError (m : LogMsg) : M unit := push_log true m.

(** One call of [bot.api]: counted, and recorded when accepted. *)
Definition tg_call (c : TgCall) : M unit :=
  fun env w =>
    let w' sent :=
      {| store := store w; n_reads := n_reads w; n_writes := n_writes w;
         writes := writes w; tg_attempts := S (tg_attempts w); tg_sent := sent;
         x_calls := x_calls w; logs := logs w |} in
    match tg_fails env (tg_attempts w) c with
    | Some e => (inl e, w' (tg_sent w))
    | None => (inr tt, w' (tg_sent w ++ [c]))
    end.

(** One request to the X API, recorded in [x_calls]. *)
Definition x_call {A} (c : XCall) (answer : nat -> JsError + A) : M A :=
  fun _ w =>
    (answer (List.length (x_calls w)),
     {| store := store w; n_reads := n_reads w; n_writes := n_writes w;
        writes := writes w; tg_attempts := tg_attempts w; tg_sent := tg_sent w;
        x_calls := x_calls w ++ [c]; logs := logs w |}).

(** Reading the state file: the request fails with a message, or returns
    the content. *)
Definition store_read : M Blob :=
  fun env w =>
    let w' :=
      {| store := store w; n_reads := S (n_reads w); n_writes := n_writes w;
         writes := writes w; tg_attempts := tg_attempts w; tg_sent := tg_sent w;
         x_calls := x_calls w; logs := logs w |} in
    match read_fails env (n_reads w) with
    | Some msg => (inl (mkError msg), w')
    | None => (inr (store w), w')
    end.

(** Writing the state file: the request fails with a message and changes
    nothing, or replaces the content. *)
Definition store_write (s : State) : M unit :=
  fun env w =>
    match write_fails env (n_writes w) with
    | Some msg =>
        (inl (mkError msg),
         {| store := store w; n_reads := n_reads w; n_writes := S (n_writes w);
            writes := writes w; tg_attempts := tg_attempts w; tg_sent := tg_sent w;
            x_calls := x_calls w; logs := logs w |})
    | None =>
        (inr tt,
         {| store := Parsed s; n_reads := n_reads w; n_writes := S (n_writes w);
            writes := writes w ++ [s]; tg_attempts := tg_attempts w;
            tg_sent := tg_sent w; x_calls := x_calls w; logs := logs w |})
    end.

(* ------------------------------------------------------------------ *)
(** * The Gist-backed revision                                          *)
(* ------------------------------------------------------------------ *)

Definition getGistCredentials : M unit :=
  env <- ask ;;
  if env_gist env then ret tt
  else throw (mkError (lit "Missing STATE_GIST_ID or GIST_TOKEN.")).

(** [fetchGist] throws [new Error("GitHub API error: ...")] on a response
    that is not ok, and [fetch] itself rejects on a network failure: in
    both cases an error with a message and no numeric field. *)
Definition fetchGist : M Blob := store_read.
Definition updateGist (content : State) : M unit := store_write content.

Definition loadState : M State :=
  getGistCredentials ;;
  try_catch
    (content <- fetchGist ;;
     match content with
     | Parsed state => log (LStateLoaded state) ;; ret state
     | Corrupt => throw (mkError (lit "Unexpected token in JSON"))
     | NoFile => log LStateFresh ;; ret {| last_id := None; user_id := None |}
     end)
    (fun e => logError (LStateLoadFailed (e_message e)) ;; throw e).

Definition saveState (lastId userId : option jsstring) : M unit :=
  getGistCredentials ;;
  try_catch
    (updateGist {| last_id := lastId; user_id := userId |} ;;
     log (LStateSaved lastId))
    (fun e => logError (LStateSaveFailed (e_message e)) ;; throw e).

Definition sendTextMessageChunked (chatId message : jsstring)
           (disablePreview : bool) : M unit :=
  for_of (chunkTelegramMessage message)
         (fun part => tg_call (SendMessage chatId part disablePreview false)).

Definition sendSingleMedia (chatId message : jsstring) (mediaItem : TgMedia)
  : M unit :=
  let caption := generateCaption message in
  tg_call (SendPhoto chatId (tg_url mediaItem) caption).

(** [media.slice(0, 10).map((item, idx) => ...)]: only the first item
    carries the caption. *)
Definition mediaGroup_of (message : jsstring) (media : list TgMedia)
  : list GroupItem :=
  match firstn TELEGRAM_MEDIA_GROUP_MAX_SIZE media with
  | [] => []
  | item :: r =>
      {| gi_type := tg_type item; gi_media := tg_url item;
         gi_caption := Some (generateCaption message) |}
      :: map (fun it => {| gi_type := tg_type it; gi_media := tg_url it;
                           gi_caption := None |}) r
  end.

Definition sendMediaGroup (chatId message : jsstring) (media : list TgMedia)
           (disablePreview : bool) : M unit :=
  tg_call (SendMediaGroup chatId (mediaGroup_of message media)) ;;
  if (TELEGRAM_CAPTION_MAX_LENGTH <? length message)
     || (TELEGRAM_MEDIA_GROUP_MAX_SIZE <? length media)
  then sendTextMessageChunked chatId message disablePreview
  else ret tt.

(** The [try] block of the media branch of [sendToTelegram]. *)
Definition send_media (chatId message : jsstring) (media : list TgMedia)
           (disablePreview : bool) : M unit :=
  match media with
  | [m] => sendSingleMedia chatId message m
  | _ => sendMediaGroup chatId message media disablePreview
  end.

(** [sendToTelegram({ bot, chatId, message, media, disablePreview, dryRun })];
    [bot] is [null] exactly in a dry run, where it is not used. *)
Definition sendToTelegram (chatId message : jsstring) (media : list TgMedia)
           (disablePreview dryRun : bool) : M unit :=
  if dryRun then
    log (LDryRunMessage message) ;;
    (if 0 <? length media then log (LDryRunMedia media) else ret tt) ;;
    log LDryRunRule
  else if 0 <? length media then
    try_catch
      (send_media chatId message media disablePreview)
      (fun e =>
         logError (LMediaError (e_message e)) ;;
         sendTextMessageChunked chatId message disablePreview)
  else
    try_catch
      (sendTextMessageChunked chatId message disablePreview)
      (fun e => logError (LTelegramError (e_message e)) ;; throw e).

Definition getClient : M unit :=
  env <- ask ;;
  if env_bearer env then ret tt
  else throw (mkError (lit "Missing X_BEARER_TOKEN.")).

(** [logRateLimit(info, endpoint)] prints only when the three counters are
    present, and a second line, with the time of the reset, when no
    request remains; the status mark, the percentage and the times, which
    depend on the clock, are left out of the lines. *)
Definition logRateLimit (rateLimitInfo : option RateLimit) (endpoint : jsstring)
  : M unit :=
  match rateLimitInfo with
  | None => ret tt
  | Some info =>
      match rl_limit info, rl_remaining info, rl_reset info with
      | Some limit, Some remaining, Some _ =>
          log (LRateLimitInfo endpoint remaining limit) ;;
          (if (remaining =? 0)%N then log LRateLimitReset else ret tt)
      | _, _, _ => ret tt
      end
  end.

Definition getUserId (username : jsstring) : M jsstring :=
  env <- ask ;;
  user <- x_call (UserByUsername username) (fun n => x_user env n username) ;;
  logRateLimit (ur_rateLimit user) (lit "User lookup") ;;
  match ur_id user with
  | None => throw (mkError (lit "User @" ++ username ++ lit " not found."))
  | Some i => ret i
  end.

Definition or_nil {A} (o : option (list A)) : list A :=
  match o with Some l => l | None => [] end.

Definition fetchNewTweets (userId : jsstring) (sinceId : option jsstring)
           (includeRetweets includeReplies : bool) (maxPerRun : nat)
  : M (list Tweet * list XMedia) :=
  let exclude :=
    (if negb includeRetweets then [lit "retweets"] else [])
    ++ (if negb includeReplies then [lit "replies"] else []) in
  let rq :=
    {| rq_user := userId;
       rq_since_id := if truthy sinceId then sinceId else None;
       rq_max_results := Nat.min X_API_MAX_RESULTS maxPerRun;
       rq_exclude := exclude |} in
  env <- ask ;;
  tweets <- x_call (UserTimeline rq) (fun n => x_timeline env n rq) ;;
  logRateLimit (tr_rateLimit tweets) (lit "User timeline") ;;
  let data := or_nil (tr_data tweets) in
  let data :=
    array_sort (fun a b => localeCompare (collation env) (id a) (id b)) data in
  ret (data, or_nil (tr_media tweets)).

Definition fetchSpecificTweet (tweetId : jsstring)
  : M (list Tweet * list XMedia) :=
  env <- ask ;;
  response <- x_call (SingleTweet tweetId) (fun n => x_single env n tweetId) ;;
  logRateLimit (sr_rateLimit response) (lit "Single tweet") ;;
  match sr_data response with
  | None => throw (mkError (lit "Tweet " ++ tweetId ++ lit " not found."))
  | Some tweet => ret ([tweet], or_nil (sr_media response))
  end.

Definition getUserIdWithCache (username : jsstring) (state : State) : M jsstring :=
  match user_id state with
  | Some (c :: r) => ret (c :: r)
  | _ =>
      log (LLookingUp username) ;;
      userId <- getUserId username ;;
      saveState (last_id state) (Some userId) ;;
      ret userId
  end.

(** The body of the loop of [processTweets]. *)
Definition processTweet (mediaData : list XMedia) (username chatId : jsstring)
           (disablePreview dryRun : bool) (userId : jsstring) (tweet : Tweet)
  : M unit :=
  let media := extractMedia tweet mediaData in
  let hasVideoPreview := existsb isVideoPreview media in
  let msg := buildMessage username tweet hasVideoPreview in
  sendToTelegram chatId msg media disablePreview dryRun ;;
  saveState (Some (id tweet)) (Some userId) ;;
  log (LPosted (id tweet) (length media)).

Definition processTweets (tweets : list Tweet) (mediaData : list XMedia)
           (username chatId : jsstring) (disablePreview dryRun : bool)
           (userId : jsstring) : M unit :=
  for_of tweets (processTweet mediaData username chatId disablePreview dryRun userId).

Record Args := {
  username : jsstring;
  includeRetweets : bool;
  includeReplies : bool;
  maxPerRun : nat;
  disablePreview : bool;
  dryRun : bool;
  tweetId : option jsstring
}.

(** The [if (tweetId) ... else ...] statement of [run]. *)
Definition fetch_step (args : Args) (userId : jsstring) (state : State)
  : M (list Tweet * list XMedia) :=
  match tweetId args with
  | Some (c :: r) =>
      log (LFetchingSpecific (c :: r)) ;;
      fetchSpecificTweet (c :: r)
  | _ =>
      fetchNewTweets userId (last_id state) (includeRetweets args)
                     (includeReplies args) (maxPerRun args)
  end.

(** The [try] block of [run]. *)
Definition run_try (args : Args) (state : State) : M unit :=
  env <- ask ;;
  userId <- getUserIdWithCache (username args) state ;;
  fetched <- fetch_step args userId state ;;
  let '(tweets, media) := fetched in
  if length tweets =? 0 then log LNoNewTweets
  else
    log (LFound (length tweets)) ;;
    processTweets tweets media (username args) (tgChat env)
                  (disablePreview args) (dryRun args) userId ;;
    log (LDone (length tweets)).

(** The [catch] block of [run]. *)
Definition run_catch (e : JsError) : M unit :=
  if has429Status e then
    log LWarn429 ;;
    (if e_rateLimit e then log LResetsIn else ret tt)
  else throw e.

Definition run (args : Args) : M unit :=
  env <- ask ;;
  (if env_telegram env then ret tt
   else throw (mkError (lit "Missing TELEGRAM_BOT_TOKEN or TELEGRAM_CHAT_ID."))) ;;
  getClient ;;
  state <- loadState ;;
  try_catch (run_try args state) run_catch.

(** [main], from the parsed options on; the result is the exit status of
    the process, 1 after [process.exit(1)]. *)
Definition main (argv : Args) : M nat :=
  log (LStart (username argv)) ;;
  try_catch
    (run argv ;; ret 0)
    (fun e => logError (LError (e_message e)) ;; ret 1).

(* ------------------------------------------------------------------ *)
(** * The file-backed polling revision                                  *)
(* ------------------------------------------------------------------ *)

Module Legacy.

(** [loadState(filePath)]: a missing or invalid file gives the default. *)
Definition loadState : M State :=
  try_catch
    (data <- store_read ;;
     match data with
     | Parsed state => ret state
     | _ => throw (mkError (lit "Unexpected end of JSON input"))
     end)
    (fun _ => ret {| last_id := None; user_id := None |}).

(** [saveState(filePath, lastId)] *)
Definition saveState (lastId : option jsstring) : M unit :=
  try_catch
    (store_write {| last_id := lastId; user_id := None |})
    (fun e => logError (LStateSaveFailed (e_message e))).

(** The loop of this revision's [chunkTelegramMessage]: the next piece
    starts at the cut itself. *)
Fixpoint chunk_loop (fuel : nat) (text : jsstring) (chunkSize start : nat)
  : option (list jsstring) :=
  match fuel with
  | O => if start <? length text then None else Some []
  | S f =>
      if start <? length text then
        let end_ := Nat.min (start + chunkSize) (length text) in
        let cut :=
          match lastIndexOf text NL end_ with
          | None => end_
          | Some i => if i <=? start then end_ else i
          end in
        match chunk_loop f text chunkSize cut with
        | Some rest => Some (substring text start cut :: rest)
        | None => None
        end
      else Some []
  end.

Definition chunkTelegramMessage (text : jsstring) : list jsstring :=
  if length text <=? 4096 then [text]
  else match chunk_loop (length text) text 4096 0 with
       | Some l => l
       | None => []
       end.

Definition extractTweetText (tweet : Tweet) : jsstring :=
  if truthy (note_tweet_text tweet)
  then trim (match note_tweet_text tweet with Some s => s | None => [] end)
  else trim (match text tweet with Some s => s | None => [] end).

Definition buildMessage (username : jsstring) (tweet : Tweet) : jsstring :=
  let tweetUrl :=
    lit "https://x.com/" ++ username ++ lit "/status/" ++ id tweet in
  extractTweetText tweet ++ [NL; NL] ++ tweetUrl.

Definition sendToTelegram (chatId message : jsstring)
           (disablePreview dryRun : bool) : M unit :=
  if dryRun then log (LDryRunMessage message)
  else
    for_of (chunkTelegramMessage message)
      (fun part =>
         try_catch
           (tg_call (SendMessage chatId part disablePreview true))
           (fun e => logError (LTelegramError (e_message e)) ;; throw e)).

Definition getClient : M unit :=
  env <- ask ;;
  if env_bearer env then ret tt
  else throw (mkError (lit "Missing X_BEARER_TOKEN. Set it in your environment or .env file.")).

Definition getUserId (username : jsstring) : M jsstring :=
  env <- ask ;;
  user <- x_call (UserByUsername username) (fun n => x_user env n username) ;;
  match ur_id user with
  | None => throw (mkError (lit "User @" ++ username ++ lit " not found."))
  | Some i => ret i
  end.

(** The value of a digit in a radix: [0-9], [a-z] and [A-Z] below the
    radix. *)
Definition digit_of (radix : Z) (c : cu) : option Z :=
  let v :=
    if is_digit c then Some (c - 48)%N
    else if ((97 <=? c) && (c <=? 122))%N then Some (c - 87)%N
    else if ((65 <=? c) && (c <=? 90))%N then Some (c - 55)%N
    else None in
  match v with
  | Some d => if (Z.of_N d <? radix)%Z then Some (Z.of_N d) else None
  | None => None
  end.

Fixpoint BigInt_go (radix acc : Z) (s : jsstring) : option Z :=
  match s with
  | [] => Some acc
  | c :: r =>
      match digit_of radix c with
      | Some d => BigInt_go radix (radix * acc + d) r
      | None => None
      end
  end.

(** One digit at least. *)
Definition digits_in (radix : Z) (s : jsstring) : option Z :=
  match s with
  | [] => None
  | _ => BigInt_go radix 0 s
  end.

(** [BigInt(s)] on a string: white space around the literal is dropped;
    nothing is left for [0n]; otherwise decimal digits with an optional
    sign, or digits after [0x], [0o] or [0b] (either case, no sign).
    [None] is the [SyntaxError] thrown for any other string. *)
Definition BigInt (s : jsstring) : option Z :=
  match trim s with
  | [] => Some 0%Z
  | c :: r =>
      if (c =? 43)%N then digits_in 10 r
      else if (c =? 45)%N then option_map Z.opp (digits_in 10 r)
      else if (c =? 48)%N then
        match r with
        | p :: h =>
            if ((p =? 120) || (p =? 88))%N then digits_in 16 h
            else if ((p =? 111) || (p =? 79))%N then digits_in 8 h
            else if ((p =? 98) || (p =? 66))%N then digits_in 2 h
            else digits_in 10 (c :: r)
        | [] => digits_in 10 (c :: r)
        end
      else digits_in 10 (c :: r)
  end.

Definition BigInt_val (s : jsstring) : Z :=
  match BigInt s with Some z => z | None => 0%Z end.

Definition is_numeric (s : jsstring) : bool :=
  match BigInt s with Some _ => true | None => false end.

(** [(a, b) => BigInt(a.id) < BigInt(b.id) ? -1 : 1], on ids that [BigInt]
    accepts.  It never answers 0: on two ids of one value it is not a
    consistent order, and where they end up is the engine's choice. *)
Definition by_BigInt (a b : Tweet) : Z :=
  if (BigInt_val (id a) <? BigInt_val (id b))%Z then (-1)%Z else 1%Z.

(** The order in which the sort of Node converts the ids for the first
    time: it calls the comparator on the second post and the first (and
    [BigInt(a.id)] is evaluated before [BigInt(b.id)]), then on each
    further post as it reaches it.  This is the order for a page sorted
    as one run, which every page of fewer than 64 posts is. *)
Definition conversion_order (data : list Tweet) : list Tweet :=
  match data with
  | a :: b :: r => b :: a :: r
  | _ => data
  end.

(** The first id that [BigInt] rejects, if any. *)
Definition first_rejected (data : list Tweet) : option jsstring :=
  match filter (fun t => negb (is_numeric (id t))) (conversion_order data) with
  | [] => None
  | t :: _ => Some (id t)
  end.

(** The comparator runs as soon as there are two tweets, on each of them,
    and throws the [SyntaxError] of [BigInt] on the first id that it
    rejects. *)
Definition fetchNewTweets (userId : jsstring) (sinceId : option jsstring)
           (includeRetweets includeReplies : bool) (maxPerRun : nat)
  : M (list Tweet) :=
  let exclude :=
    (if negb includeRetweets then [lit "retweets"] else [])
    ++ (if negb includeReplies then [lit "replies"] else []) in
  let rq :=
    {| rq_user := userId;
       rq_since_id := if truthy sinceId then sinceId else None;
       rq_max_results := Nat.min 100 maxPerRun;
       rq_exclude := exclude |} in
  env <- ask ;;
  tweets <- x_call (UserTimeline rq) (fun n => x_timeline env n rq) ;;
  let data := or_nil (tr_data tweets) in
  match (if 2 <=? length data then first_rejected data else None) with
  | Some i => throw (mkError (lit "Cannot convert " ++ i ++ lit " to a BigInt"))
  | None => ret (firstn maxPerRun (array_sort by_BigInt data))
  end.

(** The [for] loop of [runOnce].  The variable [lastId] is read by the
    [catch] block, so a throw is reported together with its value. *)
Fixpoint posting_loop (args : Args) (chatId : jsstring) (tweets : list Tweet)
         (lastId : option jsstring) : M (option JsError * option jsstring) :=
  match tweets with
  | [] => ret (None, lastId)
  | t :: r =>
      let msg := buildMessage (username args) t in
      sent <- try_catch
                (sendToTelegram chatId msg (disablePreview args) (dryRun args) ;;
                 ret None)
                (fun e => ret (Some e)) ;;
      match sent with
      | Some e => ret (Some e, lastId)
      | None =>
          let lastId := Some (id t) in
          saveState lastId ;;
          log (LPosted (id t) 0) ;;
          posting_loop args chatId r lastId
      end
  end.

Definition runOnce (args : Args) : M (option jsstring) :=
  env <- ask ;;
  (if env_telegram env then ret tt
   else throw (mkError (lit "Missing TELEGRAM_BOT_TOKEN or TELEGRAM_CHAT_ID."))) ;;
  getClient ;;
  userId <- getUserId (username args) ;;
  state <- loadState ;;
  let lastId := last_id state in
  outcome <-
    try_catch
      (tweets <- fetchNewTweets userId lastId (includeRetweets args)
                   (includeReplies args) (maxPerRun args) ;;
       if length tweets =? 0 then log LNoNewTweets ;; ret (None, lastId)
       else posting_loop args (tgChat env) tweets lastId)
      (fun e => ret (Some e, lastId)) ;;
  match outcome with
  | (None, lastId) => ret lastId
  | (Some e, lastId) =>
      if is429 (e_code e) then log LWarn429 ;; ret lastId
      else throw e
  end.

(** The [if (argv.once)] branch of [main]; the result is the exit status
    of the process, 1 after [process.exit(1)]. *)
Definition main_once (argv : Args) : M nat :=
  try_catch
    (runOnce argv ;; ret 0)
    (fun e => logError (LError (e_message e)) ;; ret 1).

(** One turn of the polling loop of [main], without its two sleeps: a
    429 that escapes [runOnce] is logged as a warning, any other error as
    an error, and the loop goes on. *)
Definition loop_turn (argv : Args) : M unit :=
  try_catch
    (runOnce argv ;; ret tt)
    (fun e =>
       if is429 (e_code e) then log LLoopWarn
       else logError (LError (e_message e))).

End Legacy.

(* ------------------------------------------------------------------ *)
(** * Chunking                                                          *)
(* ------------------------------------------------------------------ *)

(** Code unit [k] of [text] is a line feed. *)
Definition newline_at (text : jsstring) (k : nat) : Prop :=
  nth_error text k = Some NL.

(** The chunking rule in the words of the specification: from [start],
    the window reaches to [start + limit] or to the end of the text; the
    piece is cut at the last line feed of the window that lies after
    [start], and at the end of the window when there is none. *)
Inductive Pieces (text : jsstring) (limit : nat) : nat -> list jsstring -> Prop :=
| Pieces_done : forall start,
    length text <= start ->
    Pieces text limit start []
| Pieces_newline : forall start k rest,
    start < length text ->
    start < k <= Nat.min (start + limit) (length text) ->
    newline_at text k ->
    (forall j, k < j <= Nat.min (start + limit) (length text) ->
               ~ newline_at text j) ->
    Pieces text limit
           (if k =? Nat.min (start + limit) (length text) then k else k + 1) rest ->
    Pieces text limit start (substring text start k :: rest)
| Pieces_hard : forall start rest,
    start < length text ->
    (forall j, start < j <= Nat.min (start + limit) (length text) ->
               ~ newline_at text j) ->
    Pieces text limit (Nat.min (start + limit) (length text)) rest ->
    Pieces text limit start
           (substring text start (Nat.min (start + limit) (length text)) :: rest).

(** What a computation leaves alone: the state file, Telegram, the X API. *)
Definition store_frame (w w' : World) : Prop :=
  store w' = store w /\ n_reads w' = n_reads w
  /\ n_writes w' = n_writes w /\ writes w' = writes w.

Definition tg_frame (w w' : World) : Prop :=
  tg_attempts w' = tg_attempts w /\ tg_sent w' = tg_sent w.

Definition x_frame (w w' : World) : Prop := x_calls w' = x_calls w.

(** An environment in which the state file and Telegram never refuse. *)
Definition store_reliable (env : Env) : Prop :=
  env_gist env = true
  /\ (forall n, read_fails env n = None)
  /\ (forall n, write_fails env n = None).

Definition tg_reliable (env : Env) : Prop :=
  forall n c, tg_fails env n c = None.

(** Between [w] and [w'] every request to the state file succeeded. *)
Definition store_ok (env : Env) (w w' : World) : Prop :=
  n_writes w <= n_writes w' /\ n_reads w <= n_reads w'
  /\ (forall n, n_writes w <= n < n_writes w' -> write_fails env n = None)
  /\ (forall n, n_reads w <= n < n_reads w' -> read_fails env n = None).

(** Between [w] and [w'] some request to the state file failed. *)
Definition store_failed (env : Env) (w w' : World) : Prop :=
  exists n,
    (n_writes w <= n < n_writes w' /\ write_fails env n <> None)
    \/ (n_reads w <= n < n_reads w' /\ read_fails env n <> None).

(** A computation that lets no failure of the state file pass: either
    every request succeeded, or it throws an error without a 429 status. *)
Definition faithful {A} (c : M A) : Prop :=
  forall env w res w',
    c env w = (res, w') ->
    n_writes w <= n_writes w' /\ n_reads w <= n_reads w'
    /\ (store_ok env w w' \/ exists e, res = inl e /\ has429Status e = false).




(** The record written after a post. *)
Definition saved (userId : jsstring) (t : Tweet) : State :=
  {| last_id := Some (id t); user_id := Some userId |}.

(** The pieces [chunks] put back together, with [seps] between them. *)
Fixpoint weave (chunks seps : list jsstring) : jsstring :=
  match chunks, seps with
  | c :: cs, s :: ss => c ++ s ++ weave cs ss
  | _, _ => []
  end.

(** What a cut may drop: nothing, or the line feed it was made at. *)
Definition cut_gap (s : jsstring) : Prop := s = [] \/ s = [NL].

(** What [extractMedia] may turn a media object of the response into:
    a photo with its url, or the preview image of a video. *)
Definition from_media (src : XMedia) (m : TgMedia) : Prop :=
  (mtype src = photo /\ murl src = Some (tg_url m) /\ isVideoPreview m = false)
  \/ (mtype src = video /\ preview_image_url src = Some (tg_url m)
      /\ isVideoPreview m = true).

(** A tidy text: every white space code unit is a space, no two are
    adjacent, and when [prev_ws] is set the text does not start with
    one. *)
Fixpoint spaced (prev_ws : bool) (s : jsstring) : Prop :=
  match s with
  | [] => True
  | c :: r =>
      if is_ws c then c = SP /\ prev_ws = false /\ spaced true r
      else spaced false r
  end.

(** The last code unit, if any, is not white space. *)
Definition clean_end (s : jsstring) : Prop :=
  match rev s with
  | [] => True
  | c :: _ => is_ws c = false
  end.

(** The timeline request of [fetchNewTweets]. *)
Definition timeline_request (userId : jsstring) (sinceId : option jsstring)
           (args : Args) : TimelineReq :=
  {| rq_user := userId;
     rq_since_id := if truthy sinceId then sinceId else None;
     rq_max_results := Nat.min X_API_MAX_RESULTS (maxPerRun args);
     rq_exclude :=
       (if negb (includeRetweets args) then [lit "retweets"] else [])
       ++ (if negb (includeReplies args) then [lit "replies"] else []) |}.

(** The calls that deliver a text: one per piece, in order. *)
Definition text_calls (chatId message : jsstring) (dp : bool) : list TgCall :=
  map (fun p => SendMessage chatId p dp false) (chunkTelegramMessage message).

(** The calls that deliver a message when Telegram accepts each of them:
    the text alone, the one photo with its caption, or the media group
    followed, when the caption or the group was cut, by the text. *)
Definition delivery (chatId message : jsstring) (media : list TgMedia)
           (dp : bool) : list TgCall :=
  match media with
  | [] => text_calls chatId message dp
  | [m] => [SendPhoto chatId (tg_url m) (generateCaption message)]
  | _ =>
      SendMediaGroup chatId (mediaGroup_of message media)
      :: (if (TELEGRAM_CAPTION_MAX_LENGTH <? length message)
             || (TELEGRAM_MEDIA_GROUP_MAX_SIZE <? length media)
          then text_calls chatId message dp
          else [])
  end.

(** The delivery of a post: of its message, with its media. *)
Definition delivery_of (mediaData : list XMedia) (username chatId : jsstring)
           (dp : bool) (t : Tweet) : list TgCall :=
  let media := extractMedia t mediaData in
  delivery chatId (buildMessage username t (existsb isVideoPreview media))
           media dp.




(** The number that a string of decimal digits denotes, digit by digit. *)
Fixpoint digits_value (s : jsstring) : Z :=
  match s with
  | [] => 0
  | c :: r => Z.of_N (c - 48) * 10 ^ Z.of_nat (length r) + digits_value r
  end.

(** An id of [n] decimal digits. *)
Definition digits_id (n : nat) (t : Tweet) : Prop :=
  all_digits (id t) = true /\ length (id t) = n.

(* ------------------------------------------------------------------ *)
(** * Sample data                                                       *)
(* ------------------------------------------------------------------ *)

Definition sample_tweet (i body : jsstring) : Tweet :=
  {| id := i; text := Some body; note_tweet_text := None;
     entities_urls := None; media_keys := None |}.

Definition sample_photo (key : jsstring) : XMedia :=
  {| media_key := key; mtype := photo;
     murl := Some (lit "https://pbs.twimg.com/" ++ key);
     preview_image_url := None |}.

(** The error of the X client for a response with status 429. *)
Definition error429 : JsError :=
  {| e_message := lit "Request failed with code 429"; e_code := Some 429%Z;
     e_statusCode := None; e_response_status := None; e_data_status := None;
     e_rateLimit := true |}.

Definition sample_env
           (wf : nat -> option jsstring)
           (tf : nat -> TgCall -> option JsError)
           (user : JsError + UserResp)
           (timeline : JsError + TimelineResp)
           (single : JsError + SingleResp) : Env :=
  {| env_gist := true; env_telegram := true; env_bearer := true;
     tgChat := lit "@channel";
     read_fails := fun _ => None;
     write_fails := wf;
     tg_fails := tf;
     x_user := fun _ _ => user;
     x_timeline := fun _ _ => timeline;
     x_single := fun _ _ => single;
     collation := fun _ _ => 0%Z |}.

Definition sample_world (b : Blob) : World :=
  {| store := b; n_reads := 0; n_writes := 0; writes := [];
     tg_attempts := 0; tg_sent := []; x_calls := []; logs := [] |}.

Definition sample_args (dry : bool) (tid : option jsstring) : Args :=
  {| username := lit "nasa"; includeRetweets := false; includeReplies := false;
     maxPerRun := 50; disablePreview := false; dryRun := dry; tweetId := tid |}.

Definition user42 : JsError + UserResp :=
  inr {| ur_id := Some (lit "42"); ur_rateLimit := None |}.

Definition timeline_of (l : list Tweet) (m : list XMedia) : JsError + TimelineResp :=
  inr {| tr_data := Some l; tr_media := Some m; tr_rateLimit := None |}.

Definition single_of (t : Tweet) : JsError + SingleResp :=
  inr {| sr_data := Some t; sr_media := None; sr_rateLimit := None |}.

Definition no_single : JsError + SingleResp :=
  inr {| sr_data := None; sr_media := None; sr_rateLimit := None |}.

Definition never {A B} : A -> option B := fun _ => None.
Definition never2 {A B C} : A -> B -> option C := fun _ _ => None.

(** Telegram refuses the call number [k] (counted from 0) and no other. *)
Definition refuse_at (k : nat) : nat -> TgCall -> option JsError :=
  fun n _ => if n =? k then Some (mkError (lit "Bad Request")) else None.

(** Telegram refuses every call that carries media. *)
Definition refuse_media : nat -> TgCall -> option JsError :=
  fun _ c =>
    match c with
    | SendMessage _ _ _ _ => None
    | _ => Some (mkError (lit "Bad Request: wrong file identifier"))
    end.

Definition t201 : Tweet := sample_tweet (lit "201") (lit "first post").
Definition t202 : Tweet := sample_tweet (lit "202") (lit "second post").
Definition t203 : Tweet := sample_tweet (lit "203") (lit "third post").

Definition two_photos : list TgMedia :=
  [ {| tg_type := photo; tg_url := lit "https://pbs.twimg.com/a.jpg";
       isVideoPreview := false |};
    {| tg_type := photo; tg_url := lit "https://pbs.twimg.com/b.jpg";
       isVideoPreview := false |} ].

Definition one_photo : list TgMedia :=
  [ {| tg_type := photo; tg_url := lit "https://pbs.twimg.com/a.jpg";
       isVideoPreview := false |} ].

(** A body of 1200 code units. *)
Definition long_body : jsstring := repeat 97%N 1200.

(** A post of two paragraphs separated by a blank line. *)
Definition two_paragraphs : Tweet :=
  sample_tweet (lit "301") (lit "para one" ++ [NL; NL] ++ lit "para two").

(** The post of the specification's example, with its one t.co entity. *)
Definition check_this : Tweet :=
  {| id := lit "302"; text := Some (lit "check this https://t.co/abc out");
     note_tweet_text := None;
     entities_urls := Some [ {| url := Some (lit "https://t.co/abc") |} ];
     media_keys := None |}.

Definition t100 : Tweet := sample_tweet (lit "100") (lit "an older post").

(** A state file that refuses every write. *)
Definition write_refused : nat -> option jsstring :=
  fun _ => Some (lit "GitHub API error: 500 - ").


Definition t300 : Tweet := sample_tweet (lit "300") (lit "a newer post").

(** The body of the specification's chunking example: 9000 code units,
    with a line feed at index 4090. *)
Definition body9000 : jsstring :=
  repeat 97%N 4090 ++ [NL] ++ repeat 98%N 4909.

(** A post with a photo, a video and a key that the response does not
    resolve. *)
Definition mixed_tweet : Tweet :=
  {| id := lit "401"; text := Some (lit "look"); note_tweet_text := None;
     entities_urls := None;
     media_keys := Some [lit "3_1"; lit "7_2"; lit "3_9"] |}.

Definition mixed_media : list XMedia :=
  [ {| media_key := lit "7_2"; mtype := video; murl := None;
       preview_image_url := Some (lit "https://pbs.twimg.com/v.jpg") |};
    sample_photo (lit "3_1") ].

Definition state_at (l u : jsstring) : Blob :=
  Parsed {| last_id := Some l; user_id := Some u |}.

(* ------------------------------------------------------------------ *)
(** * Properties                                                        *)
(* ------------------------------------------------------------------ *)

Lemma lastIndexOf_at_none : forall s i c from,
  lastIndexOf_at i c s from = None ->
  forall m, i <= m <= from -> nth_error s (m - i) <> Some c.
Proof.
  induction s as [|y t IHt]; intros i c from Hn m Hm Hc.
  - destruct (m - i); discriminate.
  - simpl in Hn.
    destruct (lastIndexOf_at (S i) c t from) eqn:E'; [discriminate|].
    destruct (Nat.eq_dec m i) as [->|Hne].
    + rewrite Nat.sub_diag in Hc. simpl in Hc. inversion Hc; subst y.
      rewrite N.eqb_refl in Hn. simpl in Hn.
      destruct (i <=? from) eqn:L; [discriminate|].
      apply Nat.leb_gt in L. lia.
    + replace (m - i) with (S (m - S i)) in Hc by lia. simpl in Hc.
      apply (IHt (S i) c from E' m); [lia|exact Hc].
Qed.

Lemma lastIndexOf_at_some : forall s i c from k,
  lastIndexOf_at i c s from = Some k ->
  i <= k /\ k <= from /\ nth_error s (k - i) = Some c /\
  (forall j, k < j <= from -> nth_error s (j - i) <> Some c).
Proof.
  induction s as [|x r IH]; intros i c from k H; simpl in H; [discriminate|].
  destruct (lastIndexOf_at (S i) c r from) as [k'|] eqn:E.
  - inversion H; subst k'. apply IH in E. destruct E as (A & B & C & D).
    repeat split; try lia.
    + replace (k - i) with (S (k - S i)) by lia. exact C.
    + intros j Hj. replace (j - i) with (S (j - S i)) by lia. apply D. lia.
  - destruct ((x =? c)%N && (i <=? from)) eqn:G; [|discriminate].
    inversion H; subst k. apply andb_true_iff in G. destruct G as [G1 G2].
    apply N.eqb_eq in G1. apply Nat.leb_le in G2. subst x.
    repeat split; try lia.
    + rewrite Nat.sub_diag. reflexivity.
    + intros j Hj Hn. replace (j - i) with (S (j - S i)) in Hn by lia.
      simpl in Hn.
      apply (lastIndexOf_at_none r (S i) c from E j); [lia|exact Hn].
Qed.

Lemma substring_length_le : forall s a b, length (substring s a b) <= b - a.
Proof. intros. unfold substring. apply firstn_le_length. Qed.

Lemma chunk_loop_step : forall f text chunkSize start,
  chunk_loop (S f) text chunkSize start =
  if start <? length text then
    let end_ := Nat.min (start + chunkSize) (length text) in
    let splitAt :=
      match lastIndexOf text NL end_ with
      | None => end_
      | Some i => if i <=? start then end_ else i
      end in
    let start' := if splitAt =? end_ then end_ else splitAt + 1 in
    match chunk_loop f text chunkSize start' with
    | Some rest => Some (substring text start splitAt :: rest)
    | None => None
    end
  else Some [].
Proof. reflexivity. Qed.

(** With at least as much fuel as there is text left, the loop ends, and
    its pieces follow the rule. *)
Lemma chunk_loop_spec : forall text limit,
  0 < limit ->
  forall fuel start,
    length text - start <= fuel ->
    exists l, chunk_loop fuel text limit start = Some l
              /\ Forall (fun p => length p <= limit) l
              /\ Pieces text limit start l.
Proof.
  intros text limit Hlim. induction fuel as [|f IH]; intros start Hf.
  - exists []. simpl. assert (L : (start <? length text) = false)
      by (apply Nat.ltb_ge; lia).
    rewrite L. repeat split; [constructor|]. apply Pieces_done. lia.
  - rewrite chunk_loop_step.
    destruct (start <? length text) eqn:L.
    2:{ exists []. apply Nat.ltb_ge in L. repeat split; [constructor|].
        apply Pieces_done. exact L. }
    apply Nat.ltb_lt in L. cbv zeta.
    set (e := Nat.min (start + limit) (length text)).
    assert (He : start < e <= start + limit /\ e <= length text)
      by (unfold e; lia).
    destruct (lastIndexOf text NL e) as [i|] eqn:LI.
    + unfold lastIndexOf in LI. apply lastIndexOf_at_some in LI.
      destruct LI as (_ & Hie & Hnl & Hlast).
      rewrite Nat.sub_0_r in Hnl.
      destruct (i <=? start) eqn:Lis.
      * apply Nat.leb_le in Lis. rewrite Nat.eqb_refl.
        destruct (IH e ltac:(lia)) as (rest & Hr & Hlen & Hp).
        rewrite Hr. eexists. split; [reflexivity|]. split.
        -- constructor; [|exact Hlen].
           pose proof (substring_length_le text start e). lia.
        -- apply Pieces_hard; [exact L| |exact Hp].
           intros j Hj Hc. apply (Hlast j); [fold e in Hj; lia|].
           rewrite Nat.sub_0_r. exact Hc.
      * apply Nat.leb_gt in Lis.
        destruct (IH (if i =? e then e else i + 1)
                     ltac:(destruct (i =? e); lia))
          as (rest & Hr & Hlen & Hp).
        rewrite Hr. eexists. split; [reflexivity|]. split.
        -- constructor; [|exact Hlen].
           pose proof (substring_length_le text start i). lia.
        -- apply Pieces_newline; fold e.
           ++ exact L.
           ++ lia.
           ++ exact Hnl.
           ++ intros j Hj Hc. apply (Hlast j); [lia|].
              rewrite Nat.sub_0_r. exact Hc.
           ++ destruct (i =? e) eqn:Q; [apply Nat.eqb_eq in Q; subst i|];
                exact Hp.
    + rewrite Nat.eqb_refl.
      destruct (IH e ltac:(lia)) as (rest & Hr & Hlen & Hp).
      rewrite Hr. eexists. split; [reflexivity|]. split.
      * constructor; [|exact Hlen].
        pose proof (substring_length_le text start e). lia.
      * apply Pieces_hard; [exact L| |exact Hp].
        intros j Hj Hc. fold e in Hj.
        apply (lastIndexOf_at_none text 0 NL e LI j); [lia|].
        rewrite Nat.sub_0_r. exact Hc.
Qed.

Lemma chunk_total : forall text,
  exists chunks,
    chunkTelegramMessage_fuel text TELEGRAM_MAX_MESSAGE_LENGTH = Some chunks
    /\ chunkTelegramMessage text = chunks
    /\ Forall (fun p => length p <= TELEGRAM_MAX_MESSAGE_LENGTH) chunks
    /\ (length text <= TELEGRAM_MAX_MESSAGE_LENGTH -> chunks = [text])
    /\ (TELEGRAM_MAX_MESSAGE_LENGTH < length text ->
        Pieces text TELEGRAM_MAX_MESSAGE_LENGTH 0 chunks).
Proof.
  intros text. unfold chunkTelegramMessage, chunkTelegramMessage_fuel.
  destruct (length text <=? TELEGRAM_MAX_MESSAGE_LENGTH) eqn:L.
  - apply Nat.leb_le in L. exists [text]. repeat split; try reflexivity.
    + constructor; [exact L|constructor].
    + intros H. lia.
  - apply Nat.leb_gt in L.
    assert (P : 0 < TELEGRAM_MAX_MESSAGE_LENGTH)
      by (unfold TELEGRAM_MAX_MESSAGE_LENGTH; lia).
    destruct (chunk_loop_spec text TELEGRAM_MAX_MESSAGE_LENGTH P (length text) 0
                ltac:(lia))
      as (l & Hl & Hlen & Hp).
    exists l. rewrite Hl. repeat split; try assumption.
    + intros H. lia.
    + intros _. exact Hp.
Qed.

(** Sending a list of parts one by one: the accepted calls are the first
    [n] parts in order; after a refusal nothing more is attempted. *)
Lemma for_of_tg_call : forall (mk : jsstring -> TgCall) l env w res w',
  for_of l (fun p => tg_call (mk p)) env w = (res, w') ->
  exists n,
    n <= length l
    /\ tg_sent w' = tg_sent w ++ map mk (firstn n l)
    /\ store_frame w w' /\ x_frame w w' /\ logs w' = logs w
    /\ match res with
       | inr _ => n = length l /\ tg_attempts w' = tg_attempts w + length l
       | inl e =>
           n < length l
           /\ tg_attempts w' = tg_attempts w + n + 1
           /\ tg_fails env (tg_attempts w + n) (mk (nth n l [])) = Some e
       end.
Proof.
  intros mk l env. induction l as [|p r IH]; intros w res w' H.
  - simpl in H. inversion H; subst. exists 0. simpl. rewrite app_nil_r.
    unfold store_frame, x_frame. repeat split; lia.
  - simpl in H. unfold bind, tg_call in H.
    destruct (tg_fails env (tg_attempts w) (mk p)) as [e|] eqn:F.
    + inversion H; subst. exists 0. simpl. rewrite app_nil_r, Nat.add_0_r.
      unfold store_frame, x_frame. simpl. repeat split; try lia. exact F.
    + apply IH in H. destruct H as (n & Hn & Hs & Hf & Hx & Hl & Hr).
      exists (S n). simpl in *. rewrite Hs, <- app_assoc. simpl.
      unfold store_frame, x_frame in *. simpl in *.
      repeat split; try tauto; try lia.
      destruct res as [e|u].
      * destruct Hr as (A & B & C). repeat split; try lia.
        replace (tg_attempts w + S n) with (S (tg_attempts w + n)) by lia.
        exact C.
      * destruct Hr as (A & B). split; lia.
Qed.

(** C7.  For every text, [chunkTelegramMessage] returns (the loop ends)
    pieces of at most 4096 code units: the text itself when it fits, and
    otherwise pieces cut at the last line feed of the current window that
    lies after its start, or at the end of the window when there is none.
    [sendTextMessageChunked] sends the pieces in order, one call each: the
    accepted calls are the first [n] pieces, and when the call for piece
    [n] is refused the error is thrown after [n + 1] calls, so that no
    later piece is attempted. *)
Theorem chunks_bounded_cut_at_newline_sent_in_order : forall text,
  exists chunks,
    chunkTelegramMessage_fuel text TELEGRAM_MAX_MESSAGE_LENGTH = Some chunks
    /\ chunkTelegramMessage text = chunks
    /\ Forall (fun p => length p <= TELEGRAM_MAX_MESSAGE_LENGTH) chunks
    /\ (length text <= TELEGRAM_MAX_MESSAGE_LENGTH -> chunks = [text])
    /\ (TELEGRAM_MAX_MESSAGE_LENGTH < length text ->
        Pieces text TELEGRAM_MAX_MESSAGE_LENGTH 0 chunks)
    /\ forall env chatId dp w,
         let out := sendTextMessageChunked chatId text dp env w in
         exists n,
           n <= length chunks
           /\ tg_sent (snd out)
              = tg_sent w
                ++ map (fun p => SendMessage chatId p dp false) (firstn n chunks)
           /\ match fst out with
              | inr _ =>
                  n = length chunks
                  /\ tg_attempts (snd out) = tg_attempts w + length chunks
              | inl e =>
                  n < length chunks
                  /\ tg_attempts (snd out) = tg_attempts w + n + 1
                  /\ tg_fails env (tg_attempts w + n)
                       (SendMessage chatId (nth n chunks []) dp false) = Some e
              end.
Proof.
  intros text.
  destruct (chunk_total text) as (chunks & Hf & Hc & Hlen & Hshort & Hlong).
  exists chunks. repeat split; try assumption.
  intros env chatId dp w out.
  destruct out as [res w'] eqn:E. unfold out in E. clear out.
  unfold sendTextMessageChunked in E. rewrite Hc in E.
  apply (for_of_tg_call (fun p => SendMessage chatId p dp false)) in E.
  destruct E as (n & Hn & Hs & _ & _ & _ & Hr).
  exists n. simpl. repeat split; assumption.
Qed.

(** The example of the specification: 9000 code units with a line feed
    at index 4090 give pieces of 4090, 4096 and 813 code units. *)
Lemma chunks_bounded_cut_at_newline_sent_in_order_witness :
  TELEGRAM_MAX_MESSAGE_LENGTH < length body9000
  /\ Forall (fun p => length p <= TELEGRAM_MAX_MESSAGE_LENGTH)
            (chunkTelegramMessage body9000)
  /\ Pieces body9000 TELEGRAM_MAX_MESSAGE_LENGTH 0 (chunkTelegramMessage body9000)
  /\ map (@length cu) (chunkTelegramMessage body9000) = [4090; 4096; 813].
Proof.
  assert (L : TELEGRAM_MAX_MESSAGE_LENGTH < length body9000)
    by (apply Nat.ltb_lt; vm_compute; reflexivity).
  destruct (chunks_bounded_cut_at_newline_sent_in_order body9000)
    as (chunks & _ & Hc & Hlen & _ & Hlong & _).
  rewrite Hc. split; [exact L|]. split; [exact Hlen|]. split; [exact (Hlong L)|].
  rewrite <- Hc. vm_compute. reflexivity.
Defined.

(* ------------------------------------------------------------------ *)
(** * Frames and inversion of the basic operations                      *)
(* ------------------------------------------------------------------ *)

Lemma bind_inv : forall A B (m : M A) (k : A -> M B) env w res w',
  bind m k env w = (res, w') ->
  (exists e, m env w = (inl e, w') /\ res = inl e)
  \/ (exists a w1, m env w = (inr a, w1) /\ k a env w1 = (res, w')).
Proof.
  intros A B m k env w res w' H. unfold bind in H.
  destruct (m env w) as [[e|a] w1].
  - inversion H; subst. left. exists e. split; reflexivity.
  - right. exists a, w1. split; [reflexivity|exact H].
Qed.

Lemma try_catch_inv : forall A (m : M A) h env w res w',
  try_catch m h env w = (res, w') ->
  (exists a, m env w = (inr a, w') /\ res = inr a)
  \/ (exists e w1, m env w = (inl e, w1) /\ h e env w1 = (res, w')).
Proof.
  intros A m h env w res w' H. unfold try_catch in H.
  destruct (m env w) as [[e|a] w1].
  - right. exists e, w1. split; [reflexivity|exact H].
  - inversion H; subst. left. exists a. split; reflexivity.
Qed.

Lemma for_of_app : forall A (f : A -> M unit) l1 l2 env w,
  for_of (l1 ++ l2) f env w =
  match for_of l1 f env w with
  | (inr _, w1) => for_of l2 f env w1
  | (inl e, w1) => (inl e, w1)
  end.
Proof.
  intros A f l1 l2 env. induction l1 as [|x r IH]; intros w.
  - reflexivity.
  - simpl. unfold bind. destruct (f x env w) as [[e|u] w1].
    + reflexivity.
    + apply IH.
Qed.

Lemma store_frame_refl : forall w, store_frame w w.
Proof. intros w. unfold store_frame. repeat split. Qed.

Lemma store_frame_trans : forall w1 w2 w3,
  store_frame w1 w2 -> store_frame w2 w3 -> store_frame w1 w3.
Proof.
  unfold store_frame. intros w1 w2 w3 (A & B & C & D) (A' & B' & C' & D').
  repeat split; congruence.
Qed.

Lemma tg_frame_refl : forall w, tg_frame w w.
Proof. intros w. unfold tg_frame. split; reflexivity. Qed.

Lemma tg_frame_trans : forall w1 w2 w3,
  tg_frame w1 w2 -> tg_frame w2 w3 -> tg_frame w1 w3.
Proof.
  unfold tg_frame. intros w1 w2 w3 (A & B) (A' & B'). split; congruence.
Qed.

Lemma x_frame_trans : forall w1 w2 w3,
  x_frame w1 w2 -> x_frame w2 w3 -> x_frame w1 w3.
Proof. unfold x_frame. intros. congruence. Qed.

Lemma store_frame_cursor : forall w w', store_frame w w' -> cursor w' = cursor w.
Proof. intros w w' (A & _). unfold cursor. rewrite A. reflexivity. Qed.

(** Unfolding the primitive operations in a hypothesis and splitting on
    what the environment answers. *)
Ltac prim H :=
  unfold bind, try_catch, ret, throw, ask, log, logError, push_log,
    tg_call, x_call, store_read, store_write in H.

Ltac primg :=
  unfold bind, try_catch, ret, throw, ask, log, logError, push_log,
    tg_call, x_call, store_read, store_write.

Ltac split_frames :=
  unfold store_frame, tg_frame, x_frame, cursor; simpl; repeat split.

(** The cases of [logRateLimit], unfolded in [H], on the rate limit [x]. *)
Ltac rl_cases H x :=
  let i := fresh "info" in
  destruct x as [i|]; cbv beta iota in H;
  [ destruct (rl_limit i); cbv beta iota in H;
    [ destruct (rl_remaining i) as [[|?]|]; cbv beta iota in H;
      [ destruct (rl_reset i); cbv beta iota in H
      | destruct (rl_reset i); cbv beta iota in H | ] | ] | ];
  simpl in H.

(** The guard of [Legacy.fetchNewTweets], unfolded in [H]. *)
Ltac guard_cases H :=
  match type of H with
  | context [Legacy.first_rejected ?d] =>
      destruct (if 2 <=? length d then Legacy.first_rejected d else None)
  end.

Ltac rl_casesg x :=
  let i := fresh "info" in
  destruct x as [i|]; cbv beta iota;
  [ destruct (rl_limit i); cbv beta iota;
    [ destruct (rl_remaining i) as [[|?]|]; cbv beta iota;
      [ destruct (rl_reset i); cbv beta iota
      | destruct (rl_reset i); cbv beta iota | ] | ] | ];
  simpl.

Lemma push_log_frames : forall b m env w res w',
  push_log b m env w = (res, w') ->
  res = inr tt /\ store_frame w w' /\ tg_frame w w' /\ x_frame w w'
  /\ logs w' = logs w ++ [(b, m)].
Proof.
  intros b m env w res w' H. prim H. inversion H; subst. split_frames.
Qed.

Lemma saveState_ok : forall lastId userId env w w',
  saveState lastId userId env w = (inr tt, w') ->
  store w' = Parsed {| last_id := lastId; user_id := userId |}
  /\ writes w' = writes w ++ [{| last_id := lastId; user_id := userId |}]
  /\ write_fails env (n_writes w) = None
  /\ n_writes w' = S (n_writes w)
  /\ tg_frame w w' /\ x_frame w w'.
Proof.
  intros lastId userId env w w' H.
  unfold saveState, getGistCredentials, updateGist in H. prim H.
  destruct (env_gist env); [|discriminate].
  destruct (write_fails env (n_writes w)); [discriminate|].
  inversion H; subst. split_frames.
Qed.

Lemma saveState_err : forall lastId userId env w e w',
  saveState lastId userId env w = (inl e, w') ->
  has429Status e = false /\ store w' = store w /\ writes w' = writes w
  /\ tg_frame w w' /\ x_frame w w'
  /\ (env_gist env = false \/ write_fails env (n_writes w) <> None).
Proof.
  intros lastId userId env w e w' H.
  unfold saveState, getGistCredentials, updateGist in H. prim H.
  destruct (env_gist env).
  - destruct (write_fails env (n_writes w)) eqn:F; [|discriminate].
    inversion H; subst. split_frames. right. discriminate.
  - inversion H; subst. split_frames. left. reflexivity.
Qed.

Lemma sendTextMessageChunked_frames : forall chatId message dp env w res w',
  sendTextMessageChunked chatId message dp env w = (res, w') ->
  store_frame w w' /\ x_frame w w' /\ logs w' = logs w.
Proof.
  intros chatId message dp env w res w' H. unfold sendTextMessageChunked in H.
  apply (for_of_tg_call (fun p => SendMessage chatId p dp false)) in H.
  destruct H as (n & _ & _ & A & B & C & _). auto.
Qed.

Lemma tg_call_frames : forall c env w res w',
  tg_call c env w = (res, w') ->
  store_frame w w' /\ x_frame w w' /\ logs w' = logs w.
Proof.
  intros c env w res w' H. prim H.
  destruct (tg_fails env (tg_attempts w) c); inversion H; subst; split_frames.
Qed.

Lemma send_media_frames : forall chatId message media dp env w res w',
  send_media chatId message media dp env w = (res, w') ->
  store_frame w w' /\ x_frame w w'.
Proof.
  intros chatId message media dp env w res w' H.
  assert (G : forall w res w',
             sendMediaGroup chatId message media dp env w = (res, w') ->
             store_frame w w' /\ x_frame w w').
  { clear. intros w res w' H. unfold sendMediaGroup in H.
    apply bind_inv in H. destruct H as [(e & H & _)|(a & w1 & H1 & H2)].
    - apply tg_call_frames in H. tauto.
    - apply tg_call_frames in H1. destruct H1 as (A & B & _).
      destruct ((TELEGRAM_CAPTION_MAX_LENGTH <? length message)
                || (TELEGRAM_MEDIA_GROUP_MAX_SIZE <? length media)).
      + apply sendTextMessageChunked_frames in H2. destruct H2 as (A' & B' & _).
        split; [eapply store_frame_trans|eapply x_frame_trans]; eassumption.
      + prim H2. inversion H2; subst. split; assumption. }
  unfold send_media in H. destruct media as [|m [|m' r]].
  - eapply G; eassumption.
  - unfold sendSingleMedia in H. apply tg_call_frames in H. tauto.
  - eapply G; eassumption.
Qed.

(** [sendToTelegram] touches neither the state file nor the X API. *)
Lemma sendToTelegram_frames : forall chatId message media dp dry env w res w',
  sendToTelegram chatId message media dp dry env w = (res, w') ->
  store_frame w w' /\ x_frame w w'.
Proof.
  intros chatId message media dp dry env w res w' H. unfold sendToTelegram in H.
  destruct dry.
  - destruct (0 <? length media); prim H; inversion H; subst; split_frames.
  - destruct (0 <? length media).
    + apply try_catch_inv in H. destruct H as [(a & H & _)|(e & w1 & H1 & H2)].
      * eapply send_media_frames; eassumption.
      * apply send_media_frames in H1. destruct H1 as (A & B).
        apply bind_inv in H2. destruct H2 as [(e' & H2 & _)|(a & w2 & H2 & H3)].
        -- apply push_log_frames in H2. destruct H2 as (Q & _). discriminate.
        -- apply push_log_frames in H2. destruct H2 as (_ & A' & _ & B' & _).
           apply sendTextMessageChunked_frames in H3. destruct H3 as (A'' & B'' & _).
           split; [eapply store_frame_trans; [|eapply store_frame_trans]
                  |eapply x_frame_trans; [|eapply x_frame_trans]]; eassumption.
    + apply try_catch_inv in H. destruct H as [(a & H & _)|(e & w1 & H1 & H2)].
      * apply sendTextMessageChunked_frames in H. tauto.
      * apply sendTextMessageChunked_frames in H1. destruct H1 as (A & B & _).
        prim H2. inversion H2; subst.
        unfold store_frame, x_frame in *. simpl. tauto.
Qed.

(* ------------------------------------------------------------------ *)
(** * The per-post loop                                                 *)
(* ------------------------------------------------------------------ *)

(** One post handled without a throw: it went through [sendToTelegram],
    and the state file now names it. *)
Lemma processTweet_ok :
  forall mediaData username chatId dp dry userId t env w w',
  processTweet mediaData username chatId dp dry userId t env w = (inr tt, w') ->
  exists w1,
    sendToTelegram chatId
      (buildMessage username t (existsb isVideoPreview (extractMedia t mediaData)))
      (extractMedia t mediaData) dp dry env w = (inr tt, w1)
    /\ tg_frame w1 w' /\ x_frame w w'
    /\ store w' = Parsed {| last_id := Some (id t); user_id := Some userId |}
    /\ writes w' = writes w ++ [{| last_id := Some (id t); user_id := Some userId |}]
    /\ write_fails env (n_writes w) = None
    /\ n_writes w' = S (n_writes w).
Proof.
  intros mediaData username chatId dp dry userId t env w w' H.
  unfold processTweet in H.
  apply bind_inv in H. destruct H as [(e & _ & Q)|([] & w1 & H1 & H)]; [discriminate|].
  apply bind_inv in H. destruct H as [(e & _ & Q)|([] & w2 & H2 & H)]; [discriminate|].
  apply push_log_frames in H. destruct H as (_ & (S1 & S2 & S3 & S4) & T & X & _).
  apply saveState_ok in H2. destruct H2 as (A & B & C & D & T2 & X2).
  pose proof H1 as F. apply sendToTelegram_frames in F.
  destruct F as ((F1 & F2 & F3 & F4) & X1).
  exists w1. split; [exact H1|].
  split; [eapply tg_frame_trans; eassumption|].
  split; [unfold x_frame in *; congruence|].
  repeat split; congruence.
Qed.

Lemma last_cons_default : forall A (l : list A) x d d',
  last (x :: l) d = last (x :: l) d'.
Proof.
  intros A l. induction l as [|y r IH]; intros x d d'; [reflexivity|].
  change (last (y :: r) d = last (y :: r) d'). apply IH.
Qed.

Lemma last_in_cons : forall A (l : list A) x, In (last l x) (x :: l).
Proof.
  intros A l. induction l as [|y r IH]; intros x; [left; reflexivity|].
  right. destruct r as [|z r']; [left; reflexivity|].
  change (In (last (z :: r') x) (y :: z :: r')).
  rewrite (last_cons_default A r' z x y). apply IH.
Qed.

Lemma NoDup_app_disjoint : forall A (l1 l2 : list A) v,
  NoDup (l1 ++ l2) -> In v l1 -> In v l2 -> False.
Proof.
  intros A l1 l2 v. induction l1 as [|a r IH]; intros Hnd I1 I2; [contradiction|].
  simpl in Hnd. inversion Hnd as [|? ? Hn Hnd']; subst.
  destruct I1 as [->|I1].
  - apply Hn. apply in_or_app. right. exact I2.
  - apply IH; assumption.
Qed.

Lemma processTweets_cursor :
  forall mediaData username chatId dp dry userId l env w w1,
  processTweets l mediaData username chatId dp dry userId env w = (inr tt, w1) ->
  cursor w1 = last (map (fun p => Some (id p)) l) (cursor w).
Proof.
  intros mediaData username chatId dp dry userId.
  unfold processTweets. induction l as [|t r IH]; intros env w w1 H.
  - simpl in H. prim H. inversion H; subst. reflexivity.
  - simpl in H. apply bind_inv in H.
    destruct H as [(e & _ & Q)|([] & w2 & H2 & H)]; [discriminate|].
    apply processTweet_ok in H2. destruct H2 as (_ & _ & _ & _ & A & _).
    apply IH in H. rewrite H.
    assert (C : cursor w2 = Some (id t)) by (unfold cursor; rewrite A; reflexivity).
    rewrite C. destruct r as [|t' r']; [reflexivity|].
    change (last (map (fun p => Some (id p)) (t' :: r')) (Some (id t))
            = last (map (fun p => Some (id p)) (t' :: r')) (cursor w)).
    simpl map. apply last_cons_default.
Qed.

Lemma last_in_or_default : forall A (l : list A) d, last l d = d \/ In (last l d) l.
Proof.
  intros A l d. induction l as [|x r IH]; [left; reflexivity|].
  destruct r as [|y r']; [right; left; reflexivity|].
  destruct IH as [E|I].
  - left. exact E.
  - right. right. exact I.
Qed.

(** C2.  In the loop of [processTweets], once a prefix [pre] of the posts
    has been handled (each delivered, each followed by its save), the
    persisted cursor is the id of the last post of [pre] (unchanged for
    the empty prefix).  If the delivery of the next post [t] then throws,
    the loop throws that error, and the cursor is still that id; with
    distinct ids it is not the id of the last post of the run. *)
Theorem cursor_follows_each_delivered_post :
  forall mediaData username chatId dp dry userId pre t post env w w1 e w2,
  processTweets pre mediaData username chatId dp dry userId env w = (inr tt, w1) ->
  sendToTelegram chatId
    (buildMessage username t (existsb isVideoPreview (extractMedia t mediaData)))
    (extractMedia t mediaData) dp dry env w1 = (inl e, w2) ->
  cursor w1 = last (map (fun p => Some (id p)) pre) (cursor w)
  /\ processTweets (pre ++ t :: post) mediaData username chatId dp dry userId env w
     = (inl e, w2)
  /\ cursor w2 = last (map (fun p => Some (id p)) pre) (cursor w)
  /\ (NoDup (cursor w :: map (fun p => Some (id p)) (pre ++ t :: post)) ->
      cursor w2 <> Some (id (last post t))).
Proof.
  intros mediaData username chatId dp dry userId pre t post env w w1 e w2 Hpre Hsend.
  pose proof Hpre as Hc1. apply processTweets_cursor in Hc1.
  pose proof Hsend as Hf. apply sendToTelegram_frames in Hf.
  destruct Hf as (Hf & _). apply store_frame_cursor in Hf.
  split; [exact Hc1|]. split; [|split].
  - unfold processTweets in *. rewrite for_of_app, Hpre. simpl.
    unfold bind at 1. unfold processTweet at 1. unfold bind at 1.
    rewrite Hsend. reflexivity.
  - congruence.
  - intros Hnd Heq. rewrite Hf, Hc1 in Heq.
    inversion Hnd as [|x l Hnotin Hnd']; subst.
    rewrite map_app in Hnotin, Hnd'. simpl in Hnotin, Hnd'.
    assert (Hlast : In (Some (id (last post t)))
                       (Some (id t) :: map (fun p => Some (id p)) post)).
    { change (In ((fun p => Some (id p)) (last post t))
                 (map (fun p => Some (id p)) (t :: post))).
      apply in_map. apply last_in_cons. }
    destruct (last_in_or_default _ (map (fun p => Some (id p)) pre) (cursor w))
      as [E|I].
    + rewrite E in Heq. apply Hnotin. rewrite Heq.
      apply in_or_app. right. exact Hlast.
    + rewrite Heq in I. eapply NoDup_app_disjoint; eassumption.
Qed.

(** Three posts, the second delivery refused: the loop throws, and the
    cursor is the id of the first post. *)
Lemma cursor_follows_each_delivered_post_witness :
  processTweets [t201; t202; t203] [] (lit "nasa") (lit "@channel") false false
    (lit "42")
    (sample_env never (refuse_at 1) user42 (timeline_of [] []) no_single)
    (sample_world (state_at (lit "200") (lit "42")))
  = (inl (mkError (lit "Bad Request")),
     snd (processTweets [t201; t202; t203] [] (lit "nasa") (lit "@channel")
            false false (lit "42")
            (sample_env never (refuse_at 1) user42 (timeline_of [] []) no_single)
            (sample_world (state_at (lit "200") (lit "42")))))
  /\ cursor
       (snd (processTweets [t201; t202; t203] [] (lit "nasa") (lit "@channel")
               false false (lit "42")
               (sample_env never (refuse_at 1) user42 (timeline_of [] []) no_single)
               (sample_world (state_at (lit "200") (lit "42")))))
     = Some (lit "201").
Proof.
  pose (env := sample_env never (refuse_at 1) user42 (timeline_of [] []) no_single).
  pose (w := sample_world (state_at (lit "200") (lit "42"))).
  pose (w1 := snd (processTweets [t201] [] (lit "nasa") (lit "@channel")
                     false false (lit "42") env w)).
  pose (w2 := snd (sendToTelegram (lit "@channel")
                     (buildMessage (lit "nasa") t202 false) [] false false env w1)).
  assert (H1 : processTweets [t201] [] (lit "nasa") (lit "@channel")
                 false false (lit "42") env w = (inr tt, w1))
    by (vm_compute; reflexivity).
  assert (H2 : sendToTelegram (lit "@channel")
                 (buildMessage (lit "nasa") t202
                    (existsb isVideoPreview (extractMedia t202 [])))
                 (extractMedia t202 []) false false env w1
               = (inl (mkError (lit "Bad Request")), w2))
    by (vm_compute; reflexivity).
  destruct (cursor_follows_each_delivered_post
              [] (lit "nasa") (lit "@channel") false false (lit "42")
              [t201] t202 [t203] env w w1 (mkError (lit "Bad Request")) w2 H1 H2)
    as (_ & A & B & _).
  fold env w. simpl app in A. rewrite A. simpl snd. split; [reflexivity|].
  rewrite B. vm_compute. reflexivity.
Defined.

(* ------------------------------------------------------------------ *)
(** * Delivery                                                          *)
(* ------------------------------------------------------------------ *)

(** When Telegram accepts every call from now on, the chunked send
    delivers every piece. *)
Lemma sendTextMessageChunked_accepts : forall chatId message dp env w,
  (forall n part, tg_attempts w <= n ->
                  tg_fails env n (SendMessage chatId part dp false) = None) ->
  exists w',
    sendTextMessageChunked chatId message dp env w = (inr tt, w')
    /\ tg_sent w'
       = tg_sent w ++ map (fun p => SendMessage chatId p dp false)
                          (chunkTelegramMessage message)
    /\ tg_attempts w' = tg_attempts w + length (chunkTelegramMessage message)
    /\ store_frame w w' /\ x_frame w w' /\ logs w' = logs w.
Proof.
  intros chatId message dp env w Hacc.
  destruct (sendTextMessageChunked chatId message dp env w) as [res w'] eqn:E.
  exists w'. unfold sendTextMessageChunked in E.
  apply (for_of_tg_call (fun p => SendMessage chatId p dp false)) in E.
  destruct E as (n & Hn & Hs & Hf & Hx & Hl & Hr).
  destruct res as [e|[]].
  - destruct Hr as (_ & _ & F). rewrite Hacc in F by lia. discriminate.
  - destruct Hr as (-> & Ha). rewrite firstn_all in Hs. auto 8.
Qed.

(** C4.  When the media send of a message with media throws, whether it
    is the single photo or the group, [sendToTelegram] logs the error and
    its outcome is that of the chunked text send of the whole message:
    the media error is not what the caller sees.  When Telegram accepts
    the text calls, the post is delivered as the pieces of the message, in
    order, and [sendToTelegram] returns normally. *)
Theorem media_failure_falls_back_to_text :
  forall chatId message media dp env w e w1,
  0 < length media ->
  send_media chatId message media dp env w = (inl e, w1) ->
  sendToTelegram chatId message media dp false env w
  = sendTextMessageChunked chatId message dp env
      (snd (logError (LMediaError (e_message e)) env w1))
  /\ ((forall n part, tg_attempts w1 <= n ->
                       tg_fails env n (SendMessage chatId part dp false) = None) ->
      exists w2,
        sendToTelegram chatId message media dp false env w = (inr tt, w2)
        /\ tg_sent w2
           = tg_sent w1 ++ map (fun p => SendMessage chatId p dp false)
                               (chunkTelegramMessage message)).
Proof.
  intros chatId message media dp env w e w1 Hm Hsend.
  assert (E : sendToTelegram chatId message media dp false env w
              = sendTextMessageChunked chatId message dp env
                  (snd (logError (LMediaError (e_message e)) env w1))).
  { unfold sendToTelegram. apply Nat.ltb_lt in Hm. rewrite Hm.
    unfold try_catch. rewrite Hsend. reflexivity. }
  split; [exact E|].
  intros Hacc. rewrite E.
  destruct (sendTextMessageChunked_accepts chatId message dp env
              (snd (logError (LMediaError (e_message e)) env w1)) Hacc)
    as (w2 & H & Hs & _).
  exists w2. split; [exact H|exact Hs].
Qed.

(** Two photos, the group refused: the text goes out on its own. *)
Lemma media_failure_falls_back_to_text_witness :
  0 < length two_photos
  /\ fst (send_media (lit "@channel") (lit "hello") two_photos false
            (sample_env never refuse_media user42 (timeline_of [] []) no_single)
            (sample_world NoFile))
     = inl (mkError (lit "Bad Request: wrong file identifier"))
  /\ fst (sendToTelegram (lit "@channel") (lit "hello") two_photos false false
            (sample_env never refuse_media user42 (timeline_of [] []) no_single)
            (sample_world NoFile))
     = inr tt
  /\ tg_sent
       (snd (sendToTelegram (lit "@channel") (lit "hello") two_photos false false
               (sample_env never refuse_media user42 (timeline_of [] []) no_single)
               (sample_world NoFile)))
     = [SendMessage (lit "@channel") (lit "hello") false false].
Proof.
  pose (env := sample_env never refuse_media user42 (timeline_of [] []) no_single).
  pose (w1 := snd (send_media (lit "@channel") (lit "hello") two_photos false env
                     (sample_world NoFile))).
  assert (Hm : 0 < length two_photos) by (simpl; apply Nat.lt_0_succ).
  assert (H : send_media (lit "@channel") (lit "hello") two_photos false env
                (sample_world NoFile)
              = (inl (mkError (lit "Bad Request: wrong file identifier")), w1))
    by (vm_compute; reflexivity).
  destruct (media_failure_falls_back_to_text
              (lit "@channel") (lit "hello") two_photos false env
              (sample_world NoFile) _ w1 Hm H) as (_ & A).
  destruct A as (w2 & A & B); [intros n part Hn; reflexivity|].
  fold env. rewrite A. simpl fst. simpl snd. rewrite B.
  repeat split; try exact Hm; vm_compute; reflexivity.
Defined.

(** The caption of a long message: its first 1021 code units and three
    dots, 1024 code units in all. *)
Lemma generateCaption_truncates : forall message,
  TELEGRAM_CAPTION_MAX_LENGTH < length message ->
  generateCaption message = firstn 1021 message ++ lit "..."
  /\ length (generateCaption message) = 1024.
Proof.
  intros message H. unfold generateCaption.
  assert (L : (length message <=? TELEGRAM_CAPTION_MAX_LENGTH) = false)
    by (apply Nat.leb_gt; exact H).
  rewrite L. unfold substring, TELEGRAM_CAPTION_MAX_LENGTH in *.
  change (1024 - 3 - 0) with 1021. simpl skipn. split; [reflexivity|].
  rewrite length_app, firstn_length_le by lia. reflexivity.
Qed.

(** C5, at a body of 1200 code units.  With one photo, [sendToTelegram]
    makes a single call, the photo with the 1024-unit caption, and the
    body is sent nowhere in full; with two photos the group is followed by
    the whole body as text. *)
Theorem single_photo_sends_no_full_text :
  fst (sendToTelegram (lit "@channel") long_body one_photo false false
         (sample_env never never2 user42 (timeline_of [] []) no_single)
         (sample_world NoFile))
  = inr tt
  /\ tg_sent
       (snd (sendToTelegram (lit "@channel") long_body one_photo false false
               (sample_env never never2 user42 (timeline_of [] []) no_single)
               (sample_world NoFile)))
     = [SendPhoto (lit "@channel") (lit "https://pbs.twimg.com/a.jpg")
                  (repeat 97%N 1021 ++ lit "...")]
  /\ tg_sent
       (snd (sendToTelegram (lit "@channel") long_body two_photos false false
               (sample_env never never2 user42 (timeline_of [] []) no_single)
               (sample_world NoFile)))
     = [SendMediaGroup (lit "@channel") (mediaGroup_of long_body two_photos);
        SendMessage (lit "@channel") long_body false false].
Proof. repeat split; vm_compute; reflexivity. Qed.

Lemma sendToTelegram_dry : forall chatId message media dp env w,
  exists w',
    sendToTelegram chatId message media dp true env w = (inr tt, w')
    /\ tg_frame w w' /\ store_frame w w' /\ x_frame w w'.
Proof.
  intros chatId message media dp env w. unfold sendToTelegram.
  destruct (0 <? length media); eexists; (split; [reflexivity|split_frames]).
Qed.

Lemma sendToTelegram_succeeds : forall chatId message media dp dry env w,
  dry = true \/ tg_reliable env ->
  exists w', sendToTelegram chatId message media dp dry env w = (inr tt, w').
Proof.
  intros chatId message media dp dry env w [->|Hr].
  - destruct (sendToTelegram_dry chatId message media dp env w) as (w' & H & _).
    exists w'. exact H.
  - destruct dry.
    + destruct (sendToTelegram_dry chatId message media dp env w) as (w' & H & _).
      exists w'. exact H.
    + unfold sendToTelegram. destruct (0 <? length media).
      * unfold try_catch.
        destruct (send_media chatId message media dp env w) as [[e|[]] w1].
        -- unfold bind. simpl.
           match goal with
           | |- context [sendTextMessageChunked _ _ _ _ ?w0] =>
               destruct (sendTextMessageChunked_accepts chatId message dp env w0)
                 as (w2 & H & _); [intros; apply Hr|]
           end.
           exists w2. exact H.
        -- exists w1. reflexivity.
      * unfold try_catch.
        destruct (sendTextMessageChunked_accepts chatId message dp env w)
          as (w2 & H & _); [intros; apply Hr|].
        rewrite H. exists w2. reflexivity.
Qed.

(** With a state file that takes every write, and deliveries that do not
    throw (a dry run, or a Telegram that accepts every call), the loop
    ends normally and has written one record per post, in order. *)
Lemma processTweets_saves :
  forall mediaData username chatId dp dry userId tweets env w,
  env_gist env = true ->
  (forall n, write_fails env n = None) ->
  dry = true \/ tg_reliable env ->
  exists w',
    processTweets tweets mediaData username chatId dp dry userId env w
    = (inr tt, w')
    /\ writes w' = writes w ++ map (saved userId) tweets
    /\ x_frame w w'.
Proof.
  intros mediaData username chatId dp dry userId tweets env w Hg Hw Hd.
  revert w. unfold processTweets.
  induction tweets as [|t r IH]; intros w.
  - exists w. simpl. rewrite app_nil_r. repeat split; reflexivity.
  - simpl. unfold bind at 1. unfold processTweet at 1.
    destruct (sendToTelegram_succeeds chatId
                (buildMessage username t
                   (existsb isVideoPreview (extractMedia t mediaData)))
                (extractMedia t mediaData) dp dry env w Hd) as (w1 & H1).
    pose proof H1 as F. apply sendToTelegram_frames in F.
    destruct F as ((_ & _ & _ & F) & FX).
    unfold bind at 1. rewrite H1.
    unfold bind at 1.
    unfold saveState at 1, getGistCredentials, updateGist.
    unfold bind at 1. unfold ask at 1. unfold bind at 1. rewrite Hg.
    unfold ret at 1. unfold try_catch at 1. unfold bind at 1.
    unfold store_write at 1. rewrite Hw. unfold log at 1, push_log at 1.
    unfold log at 1, push_log at 1. cbv beta iota. simpl.
    match goal with
    | |- context [for_of r _ env ?w0] => destruct (IH w0) as (w' & H & Hws & Hx)
    end.
    exists w'. split; [exact H|]. split.
    + rewrite Hws. simpl. rewrite F. rewrite <- app_assoc. reflexivity.
    + unfold x_frame in *. simpl in Hx. congruence.
Qed.

Lemma chunkTelegramMessage_not_nil : forall text,
  chunkTelegramMessage text <> [].
Proof.
  intros text. destruct (chunk_total text) as (chunks & _ & Hc & _ & Hs & Hp).
  rewrite Hc.
  destruct (Nat.le_gt_cases (length text) TELEGRAM_MAX_MESSAGE_LENGTH) as [L|L].
  - rewrite (Hs L). discriminate.
  - specialize (Hp L). inversion Hp; subst; try discriminate.
    unfold TELEGRAM_MAX_MESSAGE_LENGTH in L. lia.
Qed.

(** A delivery is never empty. *)
Lemma delivery_not_nil : forall chatId message media dp,
  delivery chatId message media dp <> [].
Proof.
  intros chatId message media dp. destruct media as [|m [|m' r]]; simpl;
    try discriminate.
  unfold text_calls. intros Q. apply map_eq_nil in Q.
  exact (chunkTelegramMessage_not_nil message Q).
Qed.

(** What [sendToTelegram] gets delivered when nothing is refused: nothing
    in a dry run, the delivery of the message otherwise. *)
Lemma sendToTelegram_sent : forall chatId message media dp dry env w,
  dry = true \/ tg_reliable env ->
  exists w',
    sendToTelegram chatId message media dp dry env w = (inr tt, w')
    /\ tg_sent w'
       = tg_sent w ++ (if dry then [] else delivery chatId message media dp)
    /\ store_frame w w' /\ x_frame w w'.
Proof.
  intros chatId message media dp dry env w Hd.
  assert (G : exists w',
             sendToTelegram chatId message media dp dry env w = (inr tt, w')
             /\ tg_sent w'
                = tg_sent w
                  ++ (if dry then [] else delivery chatId message media dp)).
  { destruct dry.
    - destruct (sendToTelegram_dry chatId message media dp env w)
        as (w' & H & (_ & T) & _).
      exists w'. split; [exact H|]. rewrite app_nil_r. exact T.
    - destruct Hd as [Q|Hr]; [discriminate|].
      unfold sendToTelegram. destruct media as [|m [|m' r]].
      + simpl. unfold try_catch.
        destruct (sendTextMessageChunked_accepts chatId message dp env w)
          as (w2 & H & S & _); [intros; apply Hr|].
        rewrite H. exists w2. split; [reflexivity|exact S].
      + simpl. unfold try_catch, sendSingleMedia, tg_call. rewrite Hr.
        eexists. split; [reflexivity|]. reflexivity.
      + replace (0 <? length (m :: m' :: r)) with true by reflexivity.
        cbn [send_media delivery].
        unfold try_catch, sendMediaGroup. unfold bind at 1.
        unfold tg_call at 1. rewrite Hr.
        destruct ((TELEGRAM_CAPTION_MAX_LENGTH <? length message)
                  || (TELEGRAM_MEDIA_GROUP_MAX_SIZE <? length (m :: m' :: r))).
        * match goal with
          | |- context [sendTextMessageChunked _ _ _ _ ?w0] =>
              destruct (sendTextMessageChunked_accepts chatId message dp env w0)
                as (w2 & H & S & _); [intros; apply Hr|]
          end.
          rewrite H. exists w2. split; [reflexivity|]. rewrite S.
          cbn [tg_sent]. rewrite <- app_assoc. reflexivity.
        * eexists. split; [reflexivity|]. reflexivity. }
  destruct G as (w' & H & S). exists w'. split; [exact H|]. split; [exact S|].
  eapply sendToTelegram_frames. exact H.
Qed.

(** With a state file that takes every write and nothing refused by
    Telegram, the loop delivers the posts one after the other, in the
    order of the list, and saves after each. *)
Lemma processTweets_sent :
  forall mediaData username chatId dp dry userId tweets env w,
  env_gist env = true ->
  (forall n, write_fails env n = None) ->
  dry = true \/ tg_reliable env ->
  exists w',
    processTweets tweets mediaData username chatId dp dry userId env w
    = (inr tt, w')
    /\ tg_sent w'
       = tg_sent w
         ++ (if dry then []
             else concat (map (delivery_of mediaData username chatId dp) tweets))
    /\ writes w' = writes w ++ map (saved userId) tweets
    /\ x_frame w w'.
Proof.
  intros mediaData username chatId dp dry userId tweets env w Hg Hw Hd.
  revert w. unfold processTweets.
  induction tweets as [|t r IH]; intros w.
  - exists w. simpl. split; [reflexivity|].
    split; [destruct dry; rewrite app_nil_r; reflexivity|].
    split; [rewrite app_nil_r; reflexivity|reflexivity].
  - simpl. unfold bind at 1. unfold processTweet at 1.
    destruct (sendToTelegram_sent chatId
                (buildMessage username t
                   (existsb isVideoPreview (extractMedia t mediaData)))
                (extractMedia t mediaData) dp dry env w Hd)
      as (w1 & H1 & S1 & (_ & _ & _ & F) & FX).
    unfold bind at 1. rewrite H1.
    unfold bind at 1.
    unfold saveState at 1, getGistCredentials, updateGist.
    unfold bind at 1. unfold ask at 1. unfold bind at 1. rewrite Hg.
    unfold ret at 1. unfold try_catch at 1. unfold bind at 1.
    unfold store_write at 1. rewrite Hw. unfold log at 1, push_log at 1.
    unfold log at 1, push_log at 1. cbv beta iota. simpl.
    match goal with
    | |- context [for_of r _ env ?w0] =>
        destruct (IH w0) as (w' & H & Hs & Hws & Hx)
    end.
    exists w'. split; [exact H|]. simpl in Hs, Hws, Hx. split; [|split].
    + rewrite Hs, S1. unfold delivery_of at 2.
      destruct dry; rewrite <- app_assoc; reflexivity.
    + rewrite Hws. rewrite F. rewrite <- app_assoc. reflexivity.
    + unfold x_frame in *. simpl in Hx. congruence.
Qed.

Lemma processTweets_dry_tg_frame :
  forall mediaData username chatId dp userId tweets env w,
  tg_frame w
    (snd (processTweets tweets mediaData username chatId dp true userId env w)).
Proof.
  intros mediaData username chatId dp userId tweets env. unfold processTweets.
  induction tweets as [|t r IH]; intros w.
  - apply tg_frame_refl.
  - simpl.
    destruct (processTweet mediaData username chatId dp true userId t env w)
      as [res w1] eqn:E.
    assert (T : tg_frame w w1).
    { unfold processTweet in E.
      destruct (sendToTelegram_dry chatId
                  (buildMessage username t
                     (existsb isVideoPreview (extractMedia t mediaData)))
                  (extractMedia t mediaData) dp env w) as (w0 & H0 & T0 & _).
      apply bind_inv in E. destruct E as [(e & E & _)|([] & w0' & E0 & E)].
      - rewrite H0 in E. discriminate.
      - rewrite H0 in E0. inversion E0; subst w0'.
        apply bind_inv in E. destruct E as [(e & E & _)|([] & w2 & E2 & E)].
        + apply saveState_err in E. destruct E as (_ & _ & _ & T1 & _).
          eapply tg_frame_trans; eassumption.
        + apply saveState_ok in E2. destruct E2 as (_ & _ & _ & _ & T1 & _).
          apply push_log_frames in E. destruct E as (_ & _ & T2 & _).
          eapply tg_frame_trans; [eassumption|].
          eapply tg_frame_trans; eassumption. }
    unfold bind. rewrite E. destruct res as [e|[]].
    + exact T.
    + eapply tg_frame_trans; [exact T|apply IH].
Qed.

(** C10.  In a dry run the loop of [processTweets] makes no call to the
    Telegram API, whatever the posts.  It still saves after each post:
    when the state file takes the writes, the loop ends normally, the
    records written are one per post with [last_id] the id of the post,
    the same records as a live run with every call accepted writes, and
    the persisted cursor ends as the id of the last post. *)
Theorem dry_run_sends_nothing_and_moves_cursor :
  forall mediaData username chatId dp userId tweets env w,
  tg_frame w
    (snd (processTweets tweets mediaData username chatId dp true userId env w))
  /\ (env_gist env = true ->
      (forall n, write_fails env n = None) ->
      fst (processTweets tweets mediaData username chatId dp true userId env w)
      = inr tt
      /\ writes (snd (processTweets tweets mediaData username chatId dp true
                        userId env w))
         = writes w ++ map (saved userId) tweets
      /\ cursor (snd (processTweets tweets mediaData username chatId dp true
                        userId env w))
         = last (map (fun p => Some (id p)) tweets) (cursor w)
      /\ (tg_reliable env ->
          writes (snd (processTweets tweets mediaData username chatId dp false
                         userId env w))
          = writes (snd (processTweets tweets mediaData username chatId dp true
                           userId env w)))).
Proof.
  intros mediaData username chatId dp userId tweets env w.
  split; [apply processTweets_dry_tg_frame|].
  intros Hg Hw.
  destruct (processTweets_saves mediaData username chatId dp true userId tweets
              env w Hg Hw (or_introl eq_refl)) as (w' & H & Hws & _).
  rewrite H. simpl. repeat split.
  - exact Hws.
  - apply processTweets_cursor in H. exact H.
  - intros Hr.
    destruct (processTweets_saves mediaData username chatId dp false userId tweets
                env w Hg Hw (or_intror Hr)) as (w'' & H' & Hws' & _).
    rewrite H'. simpl. congruence.
Qed.

(** A dry run over two posts: no Telegram call, cursor moved from 200 to
    202. *)
Lemma dry_run_sends_nothing_and_moves_cursor_witness :
  tg_attempts
    (snd (processTweets [t201; t202] [] (lit "nasa") (lit "@channel") false true
            (lit "42")
            (sample_env never never2 user42 (timeline_of [] []) no_single)
            (sample_world (state_at (lit "200") (lit "42")))))
  = 0
  /\ cursor (sample_world (state_at (lit "200") (lit "42"))) = Some (lit "200")
  /\ cursor
       (snd (processTweets [t201; t202] [] (lit "nasa") (lit "@channel") false true
               (lit "42")
               (sample_env never never2 user42 (timeline_of [] []) no_single)
               (sample_world (state_at (lit "200") (lit "42")))))
     = Some (lit "202").
Proof.
  destruct (dry_run_sends_nothing_and_moves_cursor
              [] (lit "nasa") (lit "@channel") false (lit "42") [t201; t202]
              (sample_env never never2 user42 (timeline_of [] []) no_single)
              (sample_world (state_at (lit "200") (lit "42"))))
    as ((A & _) & B).
  destruct (B eq_refl (fun n => eq_refl)) as (_ & _ & C & _).
  split; [exact A|]. split; [reflexivity|]. rewrite C. reflexivity.
Defined.

(* ------------------------------------------------------------------ *)
(** * Text of a post                                                    *)
(* ------------------------------------------------------------------ *)

Lemma collapse_ws_go_no_newline : forall s b, ~ In NL (collapse_ws_go b s).
Proof.
  induction s as [|c r IH]; intros b H; [exact H|].
  simpl in H. destruct (is_ws c) eqn:W.
  - destruct b.
    + exact (IH true H).
    + destruct H as [H|H]; [discriminate|exact (IH true H)].
  - destruct H as [H|H]; [subst c; discriminate|exact (IH false H)].
Qed.

Lemma squeeze_blank_go_no_newline : forall s,
  ~ In NL s -> squeeze_blank_go 0 s = s.
Proof.
  induction s as [|c r IH]; intros H; [reflexivity|].
  simpl. destruct (c =? NL)%N eqn:Q.
  - apply N.eqb_eq in Q. exfalso. apply H. left. exact Q.
  - f_equal. apply IH. intros I. apply H. right. exact I.
Qed.

Lemma dropWhile_incl : forall p s x, In x (dropWhile p s) -> In x s.
Proof.
  intros p s x. induction s as [|c r IH]; intros H; [exact H|].
  simpl in H. destruct (p c); [right; apply IH; exact H|exact H].
Qed.

Lemma trim_incl : forall s x, In x (trim s) -> In x s.
Proof.
  intros s x H. unfold trim in H. apply in_rev in H.
  apply dropWhile_incl in H. apply in_rev in H.
  apply dropWhile_incl in H. exact H.
Qed.

(** C9, where the code departs from it.  The text returned by
    [extractTweetText] never holds a line feed: [/\s+/g] has already
    turned every run of white space, line feeds included, into one space
    when [/\n\s+\n/g] is applied, which then finds nothing.  A post of two
    paragraphs comes out on one line; the example of the specification,
    which has no line feed, comes out as expected. *)
Theorem extractTweetText_keeps_no_paragraph_break :
  (forall tweet, ~ In NL (extractTweetText tweet))
  /\ extractTweetText two_paragraphs = lit "para one para two"
  /\ extractTweetText check_this = lit "check this out".
Proof.
  split; [|split; vm_compute; reflexivity].
  intros tweet H. unfold extractTweetText in H. apply trim_incl in H.
  unfold squeeze_blank in H.
  rewrite squeeze_blank_go_no_newline in H by apply collapse_ws_go_no_newline.
  exact (collapse_ws_go_no_newline _ _ H).
Qed.

(* ------------------------------------------------------------------ *)
(** * One run                                                           *)
(* ------------------------------------------------------------------ *)

Lemma run_unfold : forall args env w,
  env_telegram env = true ->
  env_bearer env = true ->
  run args env w =
  match loadState env w with
  | (inl e, w0) => (inl e, w0)
  | (inr state, w0) => try_catch (run_try args state) run_catch env w0
  end.
Proof.
  intros args env w Ht Hb. unfold run, getClient, bind, ask, ret.
  rewrite Ht, Hb. reflexivity.
Qed.

Lemma run_try_unfold : forall args state env w,
  run_try args state env w =
  match getUserIdWithCache (username args) state env w with
  | (inl e, w1) => (inl e, w1)
  | (inr userId, w1) =>
      match fetch_step args userId state env w1 with
      | (inl e, w2) => (inl e, w2)
      | (inr (tweets, media), w2) =>
          if length tweets =? 0 then log LNoNewTweets env w2
          else (log (LFound (length tweets)) ;;
                processTweets tweets media (username args) (tgChat env)
                              (disablePreview args) (dryRun args) userId ;;
                log (LDone (length tweets))) env w2
      end
  end.
Proof.
  intros args state env w. unfold run_try. unfold bind at 1, ask at 1.
  unfold bind at 1.
  destruct (getUserIdWithCache (username args) state env w) as [[e|userId] w1];
    [reflexivity|].
  unfold bind at 1.
  destruct (fetch_step args userId state env w1) as [[e|[tweets media]] w2];
    [reflexivity|].
  destruct (length tweets =? 0); reflexivity.
Qed.

Lemma run_catch_429 : forall e env w,
  has429Status e = true ->
  exists w',
    run_catch e env w = (inr tt, w')
    /\ In (false, LWarn429) (logs w')
    /\ store_frame w w' /\ tg_frame w w' /\ x_frame w w'.
Proof.
  intros e env w H. unfold run_catch. rewrite H.
  destruct (e_rateLimit e); eexists;
    (split; [reflexivity|]); simpl;
    (split; [rewrite ?in_app_iff; simpl; tauto|]);
    split_frames.
Qed.

Lemma loadState_ok : forall env w state w0,
  loadState env w = (inr state, w0) ->
  store w0 = store w /\ writes w0 = writes w /\ n_writes w0 = n_writes w
  /\ tg_frame w w0 /\ x_frame w w0
  /\ last_id state = cursor w
  /\ read_fails env (n_reads w) = None /\ n_reads w0 = S (n_reads w).
Proof.
  intros env w state w0 H.
  unfold loadState, getGistCredentials, fetchGist in H. prim H.
  destruct (env_gist env); [|discriminate].
  destruct (read_fails env (n_reads w)); [discriminate|].
  unfold cursor.
  destruct (store w) as [| |s]; inversion H; subst; split_frames.
Qed.

Lemma loadState_err : forall env w e w0,
  loadState env w = (inl e, w0) ->
  has429Status e = false /\ store w0 = store w /\ writes w0 = writes w
  /\ tg_frame w w0 /\ x_frame w w0.
Proof.
  intros env w e w0 H.
  unfold loadState, getGistCredentials, fetchGist in H. prim H.
  destruct (env_gist env).
  - destruct (read_fails env (n_reads w)).
    + inversion H; subst; split_frames.
    + destruct (store w) as [| |s]; inversion H; subst; split_frames.
  - inversion H; subst; split_frames.
Qed.

Lemma logRateLimit_frames : forall b ep env w res w',
  logRateLimit b ep env w = (res, w') ->
  res = inr tt /\ store_frame w w' /\ tg_frame w w' /\ x_frame w w'.
Proof.
  intros b ep env w res w' H. unfold logRateLimit in H.
  rl_cases H b; prim H; inversion H; subst; split_frames.
Qed.

Lemma getUserId_frames : forall u env w res w',
  getUserId u env w = (res, w') ->
  store_frame w w' /\ tg_frame w w'
  /\ x_calls w' = x_calls w ++ [UserByUsername u].
Proof.
  intros u env w res w' H. unfold getUserId, logRateLimit in H. prim H.
  destruct (x_user env (length (x_calls w)) u) as [e|user].
  - inversion H; subst; split_frames.
  - rl_cases H (ur_rateLimit user);
      destruct (ur_id user); inversion H; subst; split_frames.
Qed.

(** Resolving the account id leaves [last_id] alone: when it saves, it
    saves the [last_id] it was given. *)
Lemma getUserIdWithCache_inv : forall u state env w res w',
  getUserIdWithCache u state env w = (res, w') ->
  tg_frame w w'
  /\ (store w' = store w
      \/ exists uid, store w' = Parsed {| last_id := last_id state;
                                          user_id := Some uid |})
  /\ (forall rq, In (UserTimeline rq) (x_calls w') -> In (UserTimeline rq) (x_calls w)).
Proof.
  intros u state env w res w' H. unfold getUserIdWithCache in H.
  assert (G : (log (LLookingUp u) ;;
               userId <- getUserId u ;;
               saveState (last_id state) (Some userId) ;;
               ret userId) env w = (res, w') ->
              tg_frame w w'
              /\ (store w' = store w
                  \/ exists uid, store w' = Parsed {| last_id := last_id state;
                                                      user_id := Some uid |})
              /\ (forall rq, In (UserTimeline rq) (x_calls w') ->
                             In (UserTimeline rq) (x_calls w))).
  { clear H. intros H.
    apply bind_inv in H. destruct H as [(e & H & _)|([] & w1 & H1 & H)].
    { apply push_log_frames in H. destruct H as (Q & _). discriminate. }
    apply push_log_frames in H1. destruct H1 as (_ & (S1 & _) & T1 & X1 & _).
    apply bind_inv in H. destruct H as [(e & H & _)|(uid & w2 & H2 & H)].
    - apply getUserId_frames in H. destruct H as ((S2 & _) & T2 & X2).
      split; [eapply tg_frame_trans; eassumption|].
      split; [left; congruence|].
      intros rq I. rewrite X2, in_app_iff in I. rewrite <- X1.
      destruct I as [I|[I|[]]]; [exact I|discriminate].
    - apply getUserId_frames in H2. destruct H2 as ((S2 & _) & T2 & X2).
      assert (XX : forall rq, In (UserTimeline rq) (x_calls w2) ->
                              In (UserTimeline rq) (x_calls w)).
      { intros rq I. rewrite X2, in_app_iff in I. rewrite <- X1.
        destruct I as [I|[I|[]]]; [exact I|discriminate]. }
      apply bind_inv in H. destruct H as [(e & H & _)|([] & w3 & H3 & H)].
      + apply saveState_err in H. destruct H as (_ & S3 & _ & T3 & X3 & _).
        split; [eapply tg_frame_trans; [|eapply tg_frame_trans]; eassumption|].
        split; [left; congruence|].
        intros rq I. rewrite X3 in I. apply XX. exact I.
      + apply saveState_ok in H3. destruct H3 as (S3 & _ & _ & _ & T3 & X3).
        prim H. inversion H; subst.
        split; [eapply tg_frame_trans; [|eapply tg_frame_trans]; eassumption|].
        split; [right; exists uid; exact S3|].
        intros rq I. rewrite X3 in I. apply XX. exact I. }
  destruct (user_id state) as [[|c r]|].
  - apply G. exact H.
  - prim H. inversion H; subst.
    split; [apply tg_frame_refl|]. split; [left; reflexivity|]. auto.
  - apply G. exact H.
Qed.

Lemma fetchNewTweets_frames : forall uid since ir ire mpr env w res w',
  fetchNewTweets uid since ir ire mpr env w = (res, w') ->
  store_frame w w' /\ tg_frame w w'.
Proof.
  intros uid since ir ire mpr env w res w' H.
  unfold fetchNewTweets, logRateLimit in H. prim H.
  match type of H with
  | context [x_timeline env ?n ?rq] => destruct (x_timeline env n rq) as [e|resp]
  end.
  - inversion H; subst; split_frames.
  - rl_cases H (tr_rateLimit resp); inversion H; subst; split_frames.
Qed.

(** With a tweet id given, the fetch asks for that one tweet only. *)
Lemma fetchSpecificTweet_inv : forall tid env w res w',
  fetchSpecificTweet tid env w = (res, w') ->
  store_frame w w' /\ tg_frame w w'
  /\ x_calls w' = x_calls w ++ [SingleTweet tid]
  /\ (forall tweets media, res = inr (tweets, media) -> exists t, tweets = [t]).
Proof.
  intros tid env w res w' H.
  unfold fetchSpecificTweet, logRateLimit in H. prim H.
  destruct (x_single env (length (x_calls w)) tid) as [e|resp].
  - inversion H; subst; split_frames. intros; discriminate.
  - rl_cases H (sr_rateLimit resp);
      destruct (sr_data resp) as [t|]; inversion H; subst; split_frames;
      intros tweets media Q; inversion Q; subst; eauto.
Qed.

Lemma fetch_step_frames : forall args uid state env w res w',
  fetch_step args uid state env w = (res, w') ->
  store_frame w w' /\ tg_frame w w'.
Proof.
  intros args uid state env w res w' H. unfold fetch_step in H.
  assert (G : fetchNewTweets uid (last_id state) (includeRetweets args)
                (includeReplies args) (maxPerRun args) env w = (res, w') ->
              store_frame w w' /\ tg_frame w w')
    by apply fetchNewTweets_frames.
  destruct (tweetId args) as [[|c r]|]; try (apply G; exact H).
  apply bind_inv in H. destruct H as [(e & H & _)|([] & w1 & H1 & H)].
  - apply push_log_frames in H. destruct H as (Q & _). discriminate.
  - apply push_log_frames in H1. destruct H1 as (_ & S1 & T1 & _).
    apply fetchSpecificTweet_inv in H. destruct H as (S2 & T2 & _).
    split; [eapply store_frame_trans|eapply tg_frame_trans]; eassumption.
Qed.

Lemma getUserIdWithCache_cursor : forall u state env w res w',
  getUserIdWithCache u state env w = (res, w') ->
  last_id state = cursor w ->
  cursor w' = cursor w.
Proof.
  intros u state env w res w' H L. apply getUserIdWithCache_inv in H.
  destruct H as (_ & [S|(uid & S)] & _); unfold cursor in *; rewrite S.
  - reflexivity.
  - exact L.
Qed.

(** A 429 from the account lookup or from the fetch ends [run] normally:
    warning logged, nothing sent, cursor as it was. *)
Lemma run_rate_limited : forall args env w state w0 e w1,
  env_telegram env = true ->
  env_bearer env = true ->
  loadState env w = (inr state, w0) ->
  has429Status e = true ->
  (getUserIdWithCache (username args) state env w0 = (inl e, w1)
   \/ exists userId w0',
        getUserIdWithCache (username args) state env w0 = (inr userId, w0')
        /\ fetch_step args userId state env w0' = (inl e, w1)) ->
  exists w',
    run args env w = (inr tt, w')
    /\ In (false, LWarn429) (logs w')
    /\ tg_frame w w'
    /\ cursor w' = cursor w.
Proof.
  intros args env w state w0 e w1 Ht Hb Hload H429 Hcase.
  rewrite run_unfold, Hload by assumption.
  apply loadState_ok in Hload.
  destruct Hload as (S0 & _ & _ & T0 & _ & L0 & _).
  assert (C0 : cursor w0 = cursor w) by (unfold cursor; rewrite S0; reflexivity).
  rewrite <- C0 in L0.
  destruct (run_catch_429 e env w1 H429) as (w' & Hc & Hin & Sc & Tc & _).
  assert (G : try_catch (run_try args state) run_catch env w0 = (inr tt, w')
              /\ tg_frame w0 w1 /\ cursor w1 = cursor w0).
  { unfold try_catch. rewrite run_try_unfold.
    destruct Hcase as [HA|(userId & w0' & HA & HB)].
    - rewrite HA. split; [exact Hc|].
      split; [apply getUserIdWithCache_inv in HA; tauto|].
      eapply getUserIdWithCache_cursor; eassumption.
    - rewrite HA, HB. split; [exact Hc|].
      apply fetch_step_frames in HB. destruct HB as (SB & TB).
      split.
      + apply getUserIdWithCache_inv in HA. destruct HA as (TA & _).
        eapply tg_frame_trans; eassumption.
      + rewrite (store_frame_cursor _ _ SB).
        eapply getUserIdWithCache_cursor; eassumption. }
  destruct G as (G & T1 & C1).
  exists w'. split; [exact G|]. split; [exact Hin|]. split.
  - eapply tg_frame_trans; [exact T0|]. eapply tg_frame_trans; eassumption.
  - rewrite (store_frame_cursor _ _ Sc). congruence.
Qed.

(* ------------------------------------------------------------------ *)
(** * The file-backed revision                                          *)
(* ------------------------------------------------------------------ *)

(** [Legacy.loadState] never throws: a read that fails, a missing file and
    an invalid file all give the default record. *)
Lemma legacy_loadState_total : forall env w,
  exists state w0,
    Legacy.loadState env w = (inr state, w0)
    /\ store w0 = store w /\ writes w0 = writes w /\ n_writes w0 = n_writes w
    /\ tg_frame w w0 /\ x_frame w w0 /\ logs w0 = logs w
    /\ (read_fails env (n_reads w) <> None ->
        state = {| last_id := None; user_id := None |})
    /\ (read_fails env (n_reads w) = None -> last_id state = cursor w).
Proof.
  intros env w. unfold Legacy.loadState, cursor. primg.
  destruct (read_fails env (n_reads w)) as [msg|].
  - eexists. eexists. split; [reflexivity|]. split_frames; try congruence.
  - destruct (store w) as [| |s]; eexists; eexists;
      (split; [reflexivity|]); split_frames; congruence.
Qed.

(** [Legacy.saveState] never throws: a write that fails is logged, and
    the file stays as it was. *)
Lemma legacy_saveState_total : forall lastId env w,
  exists w',
    Legacy.saveState lastId env w = (inr tt, w')
    /\ tg_frame w w' /\ x_frame w w'
    /\ (write_fails env (n_writes w) = None ->
        store w' = Parsed {| last_id := lastId; user_id := None |})
    /\ (forall msg, write_fails env (n_writes w) = Some msg ->
        store w' = store w /\ writes w' = writes w
        /\ logs w' = logs w ++ [(true, LStateSaveFailed msg)]).
Proof.
  intros lastId env w. unfold Legacy.saveState. primg.
  destruct (write_fails env (n_writes w)) as [msg|]; eexists;
    (split; [reflexivity|]); split_frames; try congruence.
  all: intros msg' Q; inversion Q; subst; reflexivity.
Qed.

Lemma legacy_getUserId_frames : forall u env w res w',
  Legacy.getUserId u env w = (res, w') ->
  store_frame w w' /\ tg_frame w w' /\ logs w' = logs w.
Proof.
  intros u env w res w' H. unfold Legacy.getUserId in H. prim H.
  destruct (x_user env (length (x_calls w)) u) as [e|user].
  - inversion H; subst; split_frames.
  - destruct (ur_id user); inversion H; subst; split_frames.
Qed.

Lemma legacy_fetchNewTweets_frames : forall uid since ir ire mpr env w res w',
  Legacy.fetchNewTweets uid since ir ire mpr env w = (res, w') ->
  store_frame w w' /\ tg_frame w w' /\ logs w' = logs w.
Proof.
  intros uid since ir ire mpr env w res w' H.
  unfold Legacy.fetchNewTweets in H. prim H.
  match type of H with
  | context [x_timeline env ?n ?rq] => destruct (x_timeline env n rq) as [e|resp]
  end.
  - inversion H; subst; split_frames.
  - guard_cases H; inversion H; subst; split_frames.
Qed.

(** In [Legacy.runOnce] a 429 from the fetch is caught: the run returns
    the [lastId] it loaded, with the warning logged and nothing sent. *)
Lemma legacy_fetch_rate_limited : forall args env w userId w0 state w1 e w2,
  env_telegram env = true ->
  env_bearer env = true ->
  Legacy.getUserId (username args) env w = (inr userId, w0) ->
  Legacy.loadState env w0 = (inr state, w1) ->
  Legacy.fetchNewTweets userId (last_id state) (includeRetweets args)
    (includeReplies args) (maxPerRun args) env w1 = (inl e, w2) ->
  is429 (e_code e) = true ->
  exists w',
    Legacy.runOnce args env w = (inr (last_id state), w')
    /\ logs w' = logs w ++ [(false, LWarn429)]
    /\ tg_frame w w'
    /\ store w' = store w.
Proof.
  intros args env w userId w0 state w1 e w2 Ht Hb Hu Hl Hf H429.
  unfold Legacy.runOnce, Legacy.getClient.
  unfold bind at 1, ask at 1. unfold bind at 1. rewrite Ht. unfold ret at 1.
  unfold bind at 1. unfold bind at 1, ask at 1. rewrite Hb. unfold ret at 1.
  unfold bind at 1. rewrite Hu. unfold bind at 1. rewrite Hl.
  unfold bind at 1. unfold try_catch at 1. unfold bind at 1. rewrite Hf.
  unfold ret at 1. rewrite H429.
  apply legacy_getUserId_frames in Hu. destruct Hu as ((S0 & _) & T0 & L0).
  destruct (legacy_loadState_total env w0) as (st & w1' & Hl' & S1 & _ & _ & T1 & _ & L1 & _).
  rewrite Hl in Hl'. inversion Hl'; subst st w1'.
  apply legacy_fetchNewTweets_frames in Hf. destruct Hf as ((S2 & _) & T2 & L2).
  eexists. split; [reflexivity|]. simpl.
  split; [congruence|]. split; [|congruence].
  unfold tg_frame in *. simpl. split; destruct T0, T1, T2; congruence.
Qed.

(** C3, as amended.  In [run], when the account lookup or the fetch throws
    an error with a 429 status, the run returns normally: the warning is
    logged, no Telegram call is made and the persisted cursor is what it
    was.  In [Legacy.runOnce] the same holds for a 429 thrown by the
    fetch. *)
Theorem rate_limit_ends_run_softly :
  (forall args env w state w0 e w1,
     env_telegram env = true ->
     env_bearer env = true ->
     loadState env w = (inr state, w0) ->
     has429Status e = true ->
     (getUserIdWithCache (username args) state env w0 = (inl e, w1)
      \/ exists userId w0',
           getUserIdWithCache (username args) state env w0 = (inr userId, w0')
           /\ fetch_step args userId state env w0' = (inl e, w1)) ->
     exists w',
       run args env w = (inr tt, w')
       /\ In (false, LWarn429) (logs w')
       /\ tg_frame w w'
       /\ cursor w' = cursor w)
  /\ (forall args env w userId w0 state w1 e w2,
       env_telegram env = true ->
       env_bearer env = true ->
       Legacy.getUserId (username args) env w = (inr userId, w0) ->
       Legacy.loadState env w0 = (inr state, w1) ->
       Legacy.fetchNewTweets userId (last_id state) (includeRetweets args)
         (includeReplies args) (maxPerRun args) env w1 = (inl e, w2) ->
       is429 (e_code e) = true ->
       exists w',
         Legacy.runOnce args env w = (inr (last_id state), w')
         /\ In (false, LWarn429) (logs w')
         /\ tg_frame w w'
         /\ cursor w' = cursor w).
Proof.
  split.
  - apply run_rate_limited.
  - intros args env w userId w0 state w1 e w2 Ht Hb Hu Hl Hf H429.
    destruct (legacy_fetch_rate_limited args env w userId w0 state w1 e w2
                Ht Hb Hu Hl Hf H429) as (w' & H & L & T & S).
    exists w'. split; [exact H|]. split; [|split; [exact T|]].
    + rewrite L. apply in_or_app. right. left. reflexivity.
    + unfold cursor. rewrite S. reflexivity.
Qed.

(** The fetch answers 429, in either script: the run returns normally,
    no call to Telegram, cursor still 200. *)
Lemma rate_limit_ends_run_softly_witness :
  (fst (run (sample_args false None)
          (sample_env never never2 user42 (inl error429) no_single)
          (sample_world (state_at (lit "200") (lit "42"))))
   = inr tt
   /\ cursor (snd (run (sample_args false None)
                     (sample_env never never2 user42 (inl error429) no_single)
                     (sample_world (state_at (lit "200") (lit "42")))))
      = Some (lit "200"))
  /\ (fst (Legacy.runOnce (sample_args false None)
             (sample_env never never2 user42 (inl error429) no_single)
             (sample_world (state_at (lit "200") (lit "42"))))
      = inr (Some (lit "200"))
      /\ tg_attempts
           (snd (Legacy.runOnce (sample_args false None)
                   (sample_env never never2 user42 (inl error429) no_single)
                   (sample_world (state_at (lit "200") (lit "42")))))
         = 0).
Proof.
  pose (env := sample_env never never2 user42 (inl error429) no_single).
  pose (w := sample_world (state_at (lit "200") (lit "42"))).
  pose (args := sample_args false None).
  destruct rate_limit_ends_run_softly as (G & L).
  split.
  - pose (w0 := snd (loadState env w)).
    pose (w0' := snd (getUserIdWithCache (username args)
                        {| last_id := Some (lit "200"); user_id := Some (lit "42") |}
                        env w0)).
    pose (w1 := snd (fetch_step args (lit "42")
                       {| last_id := Some (lit "200"); user_id := Some (lit "42") |}
                       env w0')).
    destruct (G args env w
                {| last_id := Some (lit "200"); user_id := Some (lit "42") |}
                w0 error429 w1 eq_refl eq_refl eq_refl eq_refl
                (or_intror (ex_intro _ (lit "42")
                              (ex_intro _ w0' (conj eq_refl eq_refl)))))
      as (w' & H & _ & _ & C).
    fold env w args. rewrite H. split; [reflexivity|]. exact C.
  - pose (w0 := snd (Legacy.getUserId (username args) env w)).
    pose (w1 := snd (Legacy.loadState env w0)).
    pose (w2 := snd (Legacy.fetchNewTweets (lit "42") (Some (lit "200"))
                       false false 50 env w1)).
    destruct (L args env w (lit "42") w0
                {| last_id := Some (lit "200"); user_id := Some (lit "42") |}
                w1 error429 w2 eq_refl eq_refl eq_refl eq_refl eq_refl eq_refl)
      as (w' & H & _ & (T & _) & _).
    fold env w args. rewrite H. split; [reflexivity|]. exact T.
Defined.

(** C3, where the file-backed script departs from it: the account lookup
    is made before the [try] of [Legacy.runOnce], so its 429 is thrown out
    of the run; with [--once] the process logs it as an error, not as the
    warning, and exits with status 1. *)
Lemma legacy_account_lookup_429_is_thrown :
  has429Status error429 = true
  /\ fst (Legacy.runOnce (sample_args false None)
            (sample_env never never2 (inl error429) (timeline_of [] []) no_single)
            (sample_world (state_at (lit "200") (lit "42"))))
     = inl error429
  /\ fst (Legacy.main_once (sample_args false None)
            (sample_env never never2 (inl error429) (timeline_of [] []) no_single)
            (sample_world (state_at (lit "200") (lit "42"))))
     = inr 1
  /\ logs (snd (Legacy.main_once (sample_args false None)
                  (sample_env never never2 (inl error429) (timeline_of [] [])
                     no_single)
                  (sample_world (state_at (lit "200") (lit "42")))))
     = [(true, LError (e_message error429))].
Proof. repeat split; vm_compute; reflexivity. Qed.

(** In the polling loop of the file-backed script the same 429 is met by
    the handler of [main]: a warning, and the loop goes on. *)
Lemma legacy_loop_turn_429 :
  Legacy.loop_turn (sample_args false None)
    (sample_env never never2 (inl error429) (timeline_of [] []) no_single)
    (sample_world (state_at (lit "200") (lit "42")))
  = (inr tt,
     {| store := state_at (lit "200") (lit "42"); n_reads := 0; n_writes := 0;
        writes := []; tg_attempts := 0; tg_sent := [];
        x_calls := [UserByUsername (lit "nasa")];
        logs := [(false, LLoopWarn)] |}).
Proof. vm_compute. reflexivity. Qed.

(** A run that gets its posts, with a state file that takes every write
    and deliveries that do not throw, ends normally and has saved one
    record per post, in the order of the list it fetched. *)
Lemma run_processes : forall args env w state w0 userId w1 tweets media w2,
  env_telegram env = true ->
  env_bearer env = true ->
  loadState env w = (inr state, w0) ->
  getUserIdWithCache (username args) state env w0 = (inr userId, w1) ->
  fetch_step args userId state env w1 = (inr (tweets, media), w2) ->
  tweets <> [] ->
  env_gist env = true ->
  (forall n, write_fails env n = None) ->
  dryRun args = true \/ tg_reliable env ->
  exists w',
    run args env w = (inr tt, w')
    /\ writes w' = writes w2 ++ map (saved userId) tweets
    /\ cursor w' = last (map (fun p => Some (id p)) tweets) (cursor w2)
    /\ x_frame w2 w'.
Proof.
  intros args env w state w0 userId w1 tweets media w2
         Ht Hb Hl Hu Hf Hne Hg Hw Hd.
  rewrite run_unfold, Hl by assumption.
  unfold try_catch. rewrite run_try_unfold, Hu, Hf.
  assert (L : (length tweets =? 0) = false)
    by (destruct tweets; [contradiction|reflexivity]).
  rewrite L. unfold bind at 1. unfold log at 1, push_log at 1.
  match goal with
  | |- context [bind (processTweets _ _ _ _ _ _ _) _ env ?wl] =>
      destruct (processTweets_saves media (username args) (tgChat env)
                  (disablePreview args) (dryRun args) userId tweets env wl Hg Hw Hd)
        as (w3 & H3 & W3 & X3);
      pose proof H3 as C3; apply processTweets_cursor in C3
  end.
  unfold bind at 1. rewrite H3. unfold log, push_log.
  eexists. split; [reflexivity|]. simpl. simpl in W3, C3.
  split; [exact W3|]. split; [exact C3|]. exact X3.
Qed.

(** What such a run gets delivered: in a dry run nothing, otherwise the
    deliveries of the posts one after the other, in the order of the list
    it fetched. *)
Lemma run_processes_sent :
  forall args env w state w0 userId w1 tweets media w2,
  env_telegram env = true ->
  env_bearer env = true ->
  loadState env w = (inr state, w0) ->
  getUserIdWithCache (username args) state env w0 = (inr userId, w1) ->
  fetch_step args userId state env w1 = (inr (tweets, media), w2) ->
  tweets <> [] ->
  env_gist env = true ->
  (forall n, write_fails env n = None) ->
  dryRun args = true \/ tg_reliable env ->
  exists w',
    run args env w = (inr tt, w')
    /\ tg_sent w'
       = tg_sent w
         ++ (if dryRun args then []
             else concat (map (delivery_of media (username args) (tgChat env)
                                 (disablePreview args)) tweets))
    /\ writes w' = writes w2 ++ map (saved userId) tweets
    /\ cursor w' = last (map (fun p => Some (id p)) tweets) (cursor w2)
    /\ x_frame w2 w'.
Proof.
  intros args env w state w0 userId w1 tweets media w2
         Ht Hb Hl Hu Hf Hne Hg Hw Hd.
  destruct (run_processes args env w state w0 userId w1 tweets media w2
              Ht Hb Hl Hu Hf Hne Hg Hw Hd) as (w' & H & W & C & X).
  exists w'. split; [exact H|]. split; [|auto].
  assert (T2 : tg_sent w2 = tg_sent w).
  { apply loadState_ok in Hl. destruct Hl as (_ & _ & _ & (_ & T0) & _).
    apply getUserIdWithCache_inv in Hu. destruct Hu as ((_ & T1) & _).
    apply fetch_step_frames in Hf. destruct Hf as (_ & (_ & T2)).
    congruence. }
  rewrite run_unfold, Hl in H by assumption.
  unfold try_catch in H. rewrite run_try_unfold, Hu, Hf in H.
  assert (L : (length tweets =? 0) = false)
    by (destruct tweets; [contradiction|reflexivity]).
  rewrite L in H. unfold bind at 1 in H. unfold log at 1, push_log at 1 in H.
  match type of H with
  | context [bind (processTweets _ _ _ _ _ _ _) _ env ?wl] =>
      destruct (processTweets_sent media (username args) (tgChat env)
                  (disablePreview args) (dryRun args) userId tweets env wl Hg Hw Hd)
        as (w3 & H3 & S3 & _)
  end.
  unfold bind at 1 in H. rewrite H3 in H. unfold log, push_log in H.
  inversion H; subst w'. cbn [tg_sent] in *. rewrite S3, T2. reflexivity.
Qed.

Lemma fetch_step_specific : forall args userId state c r env w tweets media w',
  tweetId args = Some (c :: r) ->
  fetch_step args userId state env w = (inr (tweets, media), w') ->
  (exists t, tweets = [t])
  /\ x_calls w' = x_calls w ++ [SingleTweet (c :: r)].
Proof.
  intros args userId state c r env w tweets media w' Hid H.
  unfold fetch_step in H. rewrite Hid in H.
  apply bind_inv in H. destruct H as [(e & _ & Q)|([] & w1 & H1 & H)];
    [discriminate|].
  apply push_log_frames in H1. destruct H1 as (_ & _ & _ & X1 & _).
  apply fetchSpecificTweet_inv in H. destruct H as (_ & _ & X2 & T).
  split; [apply (T tweets media eq_refl)|].
  unfold x_frame in X1. congruence.
Qed.

(** C6, as amended.  With a tweet id given, [run] asks the X API for that
    one tweet (after the account lookup its only request is the
    single-tweet one: the timeline with its [since_id] is not queried),
    delivers it (in a live run the calls accepted by Telegram are those
    of the delivery of that tweet, of which there is at least one; in a
    dry run there is none), and saves it like any other post: the
    persisted cursor becomes the id of that tweet. *)
Theorem specific_tweet_is_saved_as_cursor :
  forall args env w state w0 userId w1 tweets media w2 c r,
  tweetId args = Some (c :: r) ->
  env_telegram env = true ->
  env_bearer env = true ->
  loadState env w = (inr state, w0) ->
  getUserIdWithCache (username args) state env w0 = (inr userId, w1) ->
  fetch_step args userId state env w1 = (inr (tweets, media), w2) ->
  env_gist env = true ->
  (forall n, write_fails env n = None) ->
  dryRun args = true \/ tg_reliable env ->
  exists t w',
    tweets = [t]
    /\ run args env w = (inr tt, w')
    /\ tg_sent w'
       = tg_sent w
         ++ (if dryRun args then []
             else delivery_of media (username args) (tgChat env)
                    (disablePreview args) t)
    /\ delivery_of media (username args) (tgChat env) (disablePreview args) t
       <> []
    /\ cursor w' = Some (id t)
    /\ x_calls w' = x_calls w1 ++ [SingleTweet (c :: r)].
Proof.
  intros args env w state w0 userId w1 tweets media w2 c r
         Hid Ht Hb Hl Hu Hf Hg Hw Hd.
  destruct (fetch_step_specific args userId state c r env w1 tweets media w2 Hid Hf)
    as ((t & ->) & X).
  destruct (run_processes_sent args env w state w0 userId w1 [t] media w2
              Ht Hb Hl Hu Hf ltac:(discriminate) Hg Hw Hd)
    as (w' & H & S & _ & C & X').
  exists t, w'. split; [reflexivity|]. split; [exact H|].
  split; [rewrite S; simpl; rewrite app_nil_r; reflexivity|].
  split; [apply delivery_not_nil|]. split; [exact C|].
  unfold x_frame in X'. congruence.
Qed.

(** Tweet 100 posted by id while the cursor is at 200: one message is
    sent, and the cursor is 100. *)
Lemma specific_tweet_is_saved_as_cursor_witness :
  fst (run (sample_args false (Some (lit "100")))
         (sample_env never never2 user42 (timeline_of [] []) (single_of t100))
         (sample_world (state_at (lit "200") (lit "42"))))
  = inr tt
  /\ tg_sent (snd (run (sample_args false (Some (lit "100")))
                     (sample_env never never2 user42 (timeline_of [] [])
                        (single_of t100))
                     (sample_world (state_at (lit "200") (lit "42")))))
     = [SendMessage (lit "@channel") (buildMessage (lit "nasa") t100 false)
          false false]
  /\ cursor (snd (run (sample_args false (Some (lit "100")))
                    (sample_env never never2 user42 (timeline_of [] [])
                       (single_of t100))
                    (sample_world (state_at (lit "200") (lit "42")))))
     = Some (lit "100")
  /\ x_calls (snd (run (sample_args false (Some (lit "100")))
                     (sample_env never never2 user42 (timeline_of [] [])
                        (single_of t100))
                     (sample_world (state_at (lit "200") (lit "42")))))
     = [SingleTweet (lit "100")].
Proof.
  pose (env := sample_env never never2 user42 (timeline_of [] []) (single_of t100)).
  pose (w := sample_world (state_at (lit "200") (lit "42"))).
  pose (args := sample_args false (Some (lit "100"))).
  pose (st := {| last_id := Some (lit "200"); user_id := Some (lit "42") |}).
  pose (w0 := snd (loadState env w)).
  pose (w1 := snd (getUserIdWithCache (username args) st env w0)).
  pose (w2 := snd (fetch_step args (lit "42") st env w1)).
  destruct (specific_tweet_is_saved_as_cursor
              args env w st w0 (lit "42") w1 [t100] [] w2 49%N (lit "00")
              eq_refl eq_refl eq_refl eq_refl eq_refl eq_refl eq_refl
              (fun n => eq_refl) (or_intror (fun n c => eq_refl)))
    as (t & w' & Q & H & S & _ & C & X).
  inversion Q; subst t. fold env w args. rewrite H. simpl snd.
  split; [reflexivity|]. split; [rewrite S; reflexivity|].
  split; [exact C|exact X].
Defined.

(** C6, where the code departs from it: tweet 300 is posted by id while
    the persisted cursor is 200; after the run the cursor is 300. *)
Lemma specific_tweet_changes_cursor :
  cursor (sample_world (state_at (lit "200") (lit "42"))) = Some (lit "200")
  /\ fst (run (sample_args false (Some (lit "300")))
            (sample_env never never2 user42 (timeline_of [] []) (single_of t300))
            (sample_world (state_at (lit "200") (lit "42"))))
     = inr tt
  /\ cursor (snd (run (sample_args false (Some (lit "300")))
                    (sample_env never never2 user42 (timeline_of [] [])
                       (single_of t300))
                    (sample_world (state_at (lit "200") (lit "42")))))
     = Some (lit "300")
  /\ cursor (snd (run (sample_args false (Some (lit "300")))
                    (sample_env never never2 user42 (timeline_of [] [])
                       (single_of t300))
                    (sample_world (state_at (lit "200") (lit "42")))))
     <> cursor (sample_world (state_at (lit "200") (lit "42"))).
Proof. repeat split; try (vm_compute; reflexivity). vm_compute. discriminate. Qed.

(* ------------------------------------------------------------------ *)
(** * Failures of the state file                                        *)
(* ------------------------------------------------------------------ *)

Lemma store_ok_refl : forall env w, store_ok env w w.
Proof. intros env w. unfold store_ok. repeat split; intros; lia. Qed.

Lemma store_ok_trans : forall env w1 w2 w3,
  store_ok env w1 w2 -> store_ok env w2 w3 -> store_ok env w1 w3.
Proof.
  unfold store_ok. intros env w1 w2 w3 (A & B & C & D) (A' & B' & C' & D').
  repeat split; try lia.
  - intros n Hn. destruct (Nat.lt_ge_cases n (n_writes w2)); [apply C|apply C']; lia.
  - intros n Hn. destruct (Nat.lt_ge_cases n (n_reads w2)); [apply D|apply D']; lia.
Qed.

Lemma store_frame_ok : forall env w w', store_frame w w' -> store_ok env w w'.
Proof.
  intros env w w' (_ & A & B & _). unfold store_ok.
  repeat split; intros; lia.
Qed.

Lemma faithful_of_frame : forall A (c : M A),
  (forall env w res w', c env w = (res, w') -> store_frame w w') ->
  faithful c.
Proof.
  intros A c H env w res w' E. apply H in E.
  pose proof (store_frame_ok env _ _ E) as (P & Q & _).
  split; [exact P|]. split; [exact Q|]. left. apply store_frame_ok. exact E.
Qed.

Lemma faithful_bind : forall A B (m : M A) (k : A -> M B),
  faithful m -> (forall a, faithful (k a)) -> faithful (bind m k).
Proof.
  intros A B m k Hm Hk env w res w' E. apply bind_inv in E.
  destruct E as [(e & E & ->)|(a & w1 & E1 & E2)].
  - destruct (Hm _ _ _ _ E) as (P & Q & [O|(e' & X & Y)]).
    + repeat split; try assumption. left. exact O.
    + repeat split; try assumption. right. exists e'.
      inversion X; subst. split; [reflexivity|assumption].
  - destruct (Hm _ _ _ _ E1) as (P & Q & [O|(e' & X & _)]); [|discriminate].
    destruct (Hk a _ _ _ _ E2) as (P' & Q' & R).
    split; [lia|]. split; [lia|].
    destruct R as [O'|R]; [left; eapply store_ok_trans; eassumption|right; exact R].
Qed.

Lemma faithful_ret : forall A (a : A), faithful (ret a).
Proof.
  intros A a. apply faithful_of_frame. intros env w res w' E.
  prim E. inversion E; subst. apply store_frame_refl.
Qed.

Lemma faithful_push_log : forall b m, faithful (push_log b m).
Proof.
  intros b m. apply faithful_of_frame. intros env w res w' E.
  apply push_log_frames in E. tauto.
Qed.

Lemma faithful_for_of : forall A (f : A -> M unit) l,
  (forall x, faithful (f x)) -> faithful (for_of l f).
Proof.
  intros A f l Hf. induction l as [|x r IH].
  - apply faithful_ret.
  - simpl. apply faithful_bind; [apply Hf|intros _; exact IH].
Qed.

Lemma faithful_saveState : forall lastId userId, faithful (saveState lastId userId).
Proof.
  intros lastId userId env w res w' H.
  unfold saveState, getGistCredentials, updateGist in H. prim H.
  destruct (env_gist env).
  - destruct (write_fails env (n_writes w)) eqn:F; inversion H; subst; simpl.
    + split; [lia|]. split; [lia|]. right. eexists. split; reflexivity.
    + split; [lia|]. split; [lia|]. left. unfold store_ok. simpl.
      repeat split; try lia.
      intros n Hn. assert (n = n_writes w) by lia. subst n. exact F.
  - inversion H; subst. split; [lia|]. split; [lia|].
    right. eexists. split; reflexivity.
Qed.

Lemma faithful_loadState : faithful loadState.
Proof.
  intros env w res w' H.
  unfold loadState, getGistCredentials, fetchGist in H. prim H.
  destruct (env_gist env).
  - destruct (read_fails env (n_reads w)) eqn:F.
    + inversion H; subst; simpl. split; [lia|]. split; [lia|].
      right. eexists. split; reflexivity.
    + assert (O : forall w1, n_writes w1 = n_writes w ->
                             n_reads w1 = S (n_reads w) -> store_ok env w w1).
      { intros w1 A B. unfold store_ok. rewrite A, B. repeat split; try lia.
        intros n Hn. assert (n = n_reads w) by lia. subst n. exact F. }
      destruct (store w) as [| |s]; inversion H; subst; simpl;
        (split; [lia|]); (split; [lia|]);
        left; apply O; reflexivity.
  - inversion H; subst. split; [lia|]. split; [lia|].
    right. eexists. split; reflexivity.
Qed.

Lemma faithful_getUserIdWithCache : forall u state,
  faithful (getUserIdWithCache u state).
Proof.
  intros u state. unfold getUserIdWithCache.
  assert (G : faithful (log (LLookingUp u) ;;
                        userId <- getUserId u ;;
                        saveState (last_id state) (Some userId) ;;
                        ret userId)).
  { apply faithful_bind; [apply faithful_push_log|intros _].
    apply faithful_bind.
    - apply faithful_of_frame. intros env w res w' E.
      apply getUserId_frames in E. tauto.
    - intros uid. apply faithful_bind; [apply faithful_saveState|intros _].
      apply faithful_ret. }
  destruct (user_id state) as [[|c r]|]; try exact G. apply faithful_ret.
Qed.

Lemma faithful_processTweets :
  forall tweets mediaData username chatId dp dry userId,
  faithful (processTweets tweets mediaData username chatId dp dry userId).
Proof.
  intros tweets mediaData username chatId dp dry userId.
  unfold processTweets. apply faithful_for_of. intros t. unfold processTweet.
  apply faithful_bind.
  - apply faithful_of_frame. intros env w res w' E.
    apply sendToTelegram_frames in E. tauto.
  - intros _. apply faithful_bind; [apply faithful_saveState|intros _].
    apply faithful_push_log.
Qed.

Lemma faithful_run_try : forall args state, faithful (run_try args state).
Proof.
  intros args state. unfold run_try.
  apply faithful_bind.
  { apply faithful_of_frame. intros env w res w' E. prim E.
    inversion E; subst. apply store_frame_refl. }
  intros env0. apply faithful_bind; [apply faithful_getUserIdWithCache|].
  intros userId. apply faithful_bind.
  { apply faithful_of_frame. intros env w res w' E.
    apply fetch_step_frames in E. tauto. }
  intros [tweets media]. destruct (length tweets =? 0).
  - apply faithful_push_log.
  - apply faithful_bind; [apply faithful_push_log|intros _].
    apply faithful_bind; [apply faithful_processTweets|intros _].
    apply faithful_push_log.
Qed.

(** [run] lets no failure of the state file pass. *)
Lemma faithful_run : forall args, faithful (run args).
Proof.
  intros args. unfold run.
  apply faithful_bind.
  { apply faithful_of_frame. intros env w res w' E. prim E.
    inversion E; subst. apply store_frame_refl. }
  intros env0. apply faithful_bind.
  { apply faithful_of_frame. intros env w res w' E.
    destruct (env_telegram env0); prim E; inversion E; subst;
      apply store_frame_refl. }
  intros _. apply faithful_bind.
  { apply faithful_of_frame. intros env w res w' E. unfold getClient in E.
    prim E. destruct (env_bearer env); inversion E; subst; apply store_frame_refl. }
  intros _. apply faithful_bind; [apply faithful_loadState|].
  intros state env w res w' E. apply try_catch_inv in E.
  destruct E as [(a & E & ->)|(e & w1 & E1 & E2)].
  - apply (faithful_run_try args state) in E. exact E.
  - apply (faithful_run_try args state) in E1.
    destruct E1 as (P & Q & R). unfold run_catch in E2.
    destruct (has429Status e) eqn:H429.
    + destruct R as [O|(e' & X & Y)]; [|inversion X; subst; congruence].
      assert (F : store_frame w1 w').
      { destruct (e_rateLimit e); prim E2; inversion E2; subst; split_frames. }
      pose proof (store_frame_ok env _ _ F) as (P' & Q' & _).
      split; [lia|]. split; [lia|]. left.
      eapply store_ok_trans; [exact O|]. apply store_frame_ok. exact F.
    + prim E2. inversion E2; subst. split; [exact P|]. split; [exact Q|].
      right. exists e. split; [reflexivity|exact H429].
Qed.

Lemma store_ok_not_failed : forall env w w',
  store_ok env w w' -> store_failed env w w' -> False.
Proof.
  intros env w w' (_ & _ & A & B) (n & [(Hn & F)|(Hn & F)]); apply F.
  - apply A. exact Hn.
  - apply B. exact Hn.
Qed.

Lemma main_exit_status : forall argv env w,
  exists w1 res w2,
    n_writes w1 = n_writes w /\ n_reads w1 = n_reads w
    /\ run argv env w1 = (res, w2)
    /\ n_writes (snd (main argv env w)) = n_writes w2
    /\ n_reads (snd (main argv env w)) = n_reads w2
    /\ fst (main argv env w)
       = inr (match res with inr _ => 0 | inl _ => 1 end).
Proof.
  intros argv env w.
  destruct (log (LStart (username argv)) env w) as [r1 w1] eqn:E1.
  destruct (run argv env w1) as [res w2] eqn:E.
  exists w1, res, w2.
  assert (M : main argv env w
              = match res with
                | inr _ => (inr 0, w2)
                | inl e => (logError (LError (e_message e)) ;; ret 1) env w2
                end).
  { unfold main. unfold bind at 1. rewrite E1.
    unfold log, push_log in E1. inversion E1; subst r1.
    unfold try_catch. unfold bind at 1. rewrite H1, E.
    destruct res as [e|[]]; reflexivity. }
  unfold log, push_log in E1. inversion E1; subst. simpl.
  split; [reflexivity|]. split; [reflexivity|]. split; [exact E|].
  rewrite M. destruct res as [e|[]]; simpl; repeat split; reflexivity.
Qed.

(** C8, as amended.  In the Gist-backed script a failure of the state
    file is fatal: a failed read or write is thrown again by [loadState]
    and [saveState]; an error of [loadState] is the error of [run]; if
    any request to the state file fails during [run], then [run] throws
    (an error without a 429 status, which its [catch] does not swallow),
    and [main] exits with status 1.  In the file-backed script
    [Legacy.loadState] and [Legacy.saveState] never throw. *)
Theorem state_store_failure_is_fatal_in_gist_script :
  (forall env w msg,
     env_gist env = true ->
     read_fails env (n_reads w) = Some msg ->
     fst (loadState env w) = inl (mkError msg))
  /\ (forall lastId userId env w msg,
        env_gist env = true ->
        write_fails env (n_writes w) = Some msg ->
        fst (saveState lastId userId env w) = inl (mkError msg))
  /\ (forall args env w e w0,
        env_telegram env = true ->
        env_bearer env = true ->
        loadState env w = (inl e, w0) ->
        run args env w = (inl e, w0))
  /\ (forall args env w,
        store_failed env w (snd (run args env w)) ->
        exists e, fst (run args env w) = inl e /\ has429Status e = false)
  /\ (forall argv env w,
        store_failed env w (snd (main argv env w)) ->
        fst (main argv env w) = inr 1)
  /\ (forall env w, exists state, fst (Legacy.loadState env w) = inr state)
  /\ (forall lastId env w, fst (Legacy.saveState lastId env w) = inr tt).
Proof.
  split; [|split; [|split; [|split; [|split; [|split]]]]].
  - intros env w msg Hg Hr. unfold loadState, getGistCredentials, fetchGist.
    primg. rewrite Hg, Hr. reflexivity.
  - intros lastId userId env w msg Hg Hw.
    unfold saveState, getGistCredentials, updateGist.
    primg. rewrite Hg, Hw. reflexivity.
  - intros args env w e w0 Ht Hb Hl. rewrite run_unfold, Hl by assumption.
    reflexivity.
  - intros args env w Hf.
    destruct (run args env w) as [res w'] eqn:E.
    destruct (faithful_run args env w res w' E) as (_ & _ & [O|(e & X & Y)]).
    + exfalso. eapply store_ok_not_failed; eassumption.
    + exists e. split; assumption.
  - intros argv env w Hf.
    destruct (main_exit_status argv env w) as (w1 & res & w2 & A & B & E & C & D & R).
    rewrite R. destruct res as [e|u]; [reflexivity|].
    exfalso.
    destruct (faithful_run argv env w1 (inr u) w2 E) as (_ & _ & [O|(e & X & _)]);
      [|discriminate].
    apply (store_ok_not_failed env w1 w2 O).
    destruct Hf as (n & Hn). exists n. rewrite A, B. rewrite C, D in Hn. exact Hn.
  - intros env w.
    destruct (legacy_loadState_total env w) as (state & w0 & H & _).
    exists state. rewrite H. reflexivity.
  - intros lastId env w.
    destruct (legacy_saveState_total lastId env w) as (w' & H & _).
    rewrite H. reflexivity.
Qed.

(** The Gist refuses the write after the first post: [main] exits with
    status 1. *)
Lemma state_store_failure_is_fatal_in_gist_script_witness :
  store_failed
    (sample_env write_refused never2 user42 (timeline_of [t201; t202] []) no_single)
    (sample_world (state_at (lit "200") (lit "42")))
    (snd (main (sample_args false None)
            (sample_env write_refused never2 user42 (timeline_of [t201; t202] [])
               no_single)
            (sample_world (state_at (lit "200") (lit "42")))))
  /\ fst (main (sample_args false None)
            (sample_env write_refused never2 user42 (timeline_of [t201; t202] [])
               no_single)
            (sample_world (state_at (lit "200") (lit "42"))))
     = inr 1.
Proof.
  assert (F : store_failed
                (sample_env write_refused never2 user42
                   (timeline_of [t201; t202] []) no_single)
                (sample_world (state_at (lit "200") (lit "42")))
                (snd (main (sample_args false None)
                        (sample_env write_refused never2 user42
                           (timeline_of [t201; t202] []) no_single)
                        (sample_world (state_at (lit "200") (lit "42")))))).
  { exists 0. left. split; [|discriminate].
    vm_compute. split; [apply le_n|apply le_n]. }
  split; [exact F|].
  destruct state_store_failure_is_fatal_in_gist_script
    as (_ & _ & _ & _ & G & _).
  apply G. exact F.
Defined.

(** C8, where the file-backed script departs from it: the file refuses
    every write, and the run goes on; both posts are sent, the failures
    are logged, the file is left as it was, and with [--once] the process
    ends with status 0. *)
Lemma legacy_write_failure_is_swallowed :
  store_failed
    (sample_env write_refused never2 user42 (timeline_of [t201; t202] []) no_single)
    (sample_world (state_at (lit "200") (lit "42")))
    (snd (Legacy.main_once (sample_args false None)
            (sample_env write_refused never2 user42 (timeline_of [t201; t202] [])
               no_single)
            (sample_world (state_at (lit "200") (lit "42")))))
  /\ fst (Legacy.main_once (sample_args false None)
            (sample_env write_refused never2 user42 (timeline_of [t201; t202] [])
               no_single)
            (sample_world (state_at (lit "200") (lit "42"))))
     = inr 0
  /\ fst (Legacy.runOnce (sample_args false None)
            (sample_env write_refused never2 user42 (timeline_of [t201; t202] [])
               no_single)
            (sample_world (state_at (lit "200") (lit "42"))))
     = inr (Some (lit "202"))
  /\ length (tg_sent
               (snd (Legacy.runOnce (sample_args false None)
                       (sample_env write_refused never2 user42
                          (timeline_of [t201; t202] []) no_single)
                       (sample_world (state_at (lit "200") (lit "42"))))))
     = 2
  /\ store (snd (Legacy.runOnce (sample_args false None)
                   (sample_env write_refused never2 user42
                      (timeline_of [t201; t202] []) no_single)
                   (sample_world (state_at (lit "200") (lit "42")))))
     = state_at (lit "200") (lit "42").
Proof.
  split; [|repeat split; vm_compute; reflexivity].
  exists 0. left. split; [|discriminate].
  vm_compute. split; [apply le_n|apply le_S; apply le_n].
Qed.

(* ------------------------------------------------------------------ *)
(** * Order of delivery                                                 *)
(* ------------------------------------------------------------------ *)





Lemma compare_units_eq : forall a b, compare_units a b = 0%Z -> a = b.
Proof.
  induction a as [|x a IH]; intros [|y b] H; simpl in H; try discriminate.
  - reflexivity.
  - destruct (x <? y)%N eqn:L1; [discriminate|].
    destruct (y <? x)%N eqn:L2; [discriminate|].
    apply N.ltb_ge in L1. apply N.ltb_ge in L2.
    f_equal; [lia|apply IH; exact H].
Qed.

(** On strings of digits [localeCompare] does not depend on the host. *)
Lemma localeCompare_digits : forall collate a b,
  all_digits a = true -> all_digits b = true ->
  localeCompare collate a b = compare_units a b.
Proof.
  intros collate a b Ha Hb. unfold localeCompare. rewrite Ha, Hb. reflexivity.
Qed.

Section SortFacts.
Variable A : Type.
Variable cmp : A -> A -> Z.
Variable R : A -> A -> Prop.
Hypothesis cmp_R : forall x y, (cmp y x < 0)%Z -> R y x.

Lemma sort_insert_perm : forall x l, Permutation (x :: l) (sort_insert cmp x l).
Proof.
  intros x l. induction l as [|y r IH]; simpl.
  - apply Permutation_refl.
  - destruct (cmp y x <? 0)%Z.
    + eapply Permutation_trans; [apply perm_swap|].
      apply perm_skip. exact IH.
    + apply Permutation_refl.
Qed.

Lemma array_sort_perm : forall l, Permutation l (array_sort cmp l).
Proof.
  induction l as [|x r IH]; simpl.
  - apply Permutation_refl.
  - eapply Permutation_trans; [apply perm_skip; exact IH|].
    apply sort_insert_perm.
Qed.




End SortFacts.


Lemma StronglySorted_firstn : forall A (R : A -> A -> Prop) n l,
  StronglySorted R l -> StronglySorted R (firstn n l).
Proof.
  intros A R n. induction n as [|n IH]; intros l H; [constructor|].
  destruct l as [|x r]; [constructor|]. simpl.
  inversion H as [|? ? HS HF]; subst. constructor; [apply IH; exact HS|].
  rewrite Forall_forall in *. intros y Hy. apply HF.
  rewrite <- (firstn_skipn n r). apply in_or_app. left. exact Hy.
Qed.

Lemma NoDup_map_pairs_gen : forall A B (f : A -> B) l,
  NoDup (map f l) -> ForallOrdPairs (fun x y => f x <> f y) l.
Proof.
  intros A B f l. induction l as [|x r IH]; intros H; simpl in H; constructor.
  - inversion H as [|? ? Hn _]; subst. apply Forall_forall. intros y Hy Q.
    apply Hn. rewrite Q. apply in_map. exact Hy.
  - apply IH. inversion H; assumption.
Qed.

Lemma ForallOrdPairs_impl : forall A (P Q : A -> A -> Prop) l,
  (forall x y, P x y -> Q x y) -> ForallOrdPairs P l -> ForallOrdPairs Q l.
Proof.
  intros A P Q l H. induction 1 as [|x r HF HP IH]; constructor.
  - eapply Forall_impl; [|exact HF]. intros y. apply H.
  - exact IH.
Qed.

Lemma ForallOrdPairs_and_Forall : forall A (P : A -> Prop) (Q : A -> A -> Prop) l,
  Forall P l -> ForallOrdPairs Q l ->
  ForallOrdPairs (fun x y => P x /\ P y /\ Q x y) l.
Proof.
  intros A P Q l HP HQ. induction HQ as [|x r HF _ IH]; constructor.
  - inversion HP as [|? ? Px Pr]; subst.
    rewrite Forall_forall in *. intros y Hy. auto.
  - apply IH. inversion HP; assumption.
Qed.

(** Two comparators that agree on the pairs of a list sort it alike. *)
Lemma sort_insert_ext : forall A (c1 c2 : A -> A -> Z) x l,
  Forall (fun y => (c1 y x <? 0)%Z = (c2 y x <? 0)%Z) l ->
  sort_insert c1 x l = sort_insert c2 x l.
Proof.
  intros A c1 c2 x l H. induction H as [|y r Hy _ IH]; [reflexivity|].
  simpl. rewrite Hy, IH. reflexivity.
Qed.

Lemma array_sort_ext : forall A (c1 c2 : A -> A -> Z) l,
  ForallOrdPairs (fun x y => (c1 y x <? 0)%Z = (c2 y x <? 0)%Z) l ->
  array_sort c1 l = array_sort c2 l.
Proof.
  intros A c1 c2 l H. induction H as [|x r HF _ IH]; [reflexivity|].
  simpl. rewrite IH. apply sort_insert_ext.
  apply Forall_forall. intros y Hy. rewrite Forall_forall in HF. apply HF.
  eapply Permutation_in; [apply Permutation_sym, array_sort_perm|exact Hy].
Qed.







(** What [fetchNewTweets] returns for a response of the API. *)
Lemma fetchNewTweets_result : forall uid since ir ire mpr env w resp,
  x_timeline env (length (x_calls w))
    {| rq_user := uid;
       rq_since_id := if truthy since then since else None;
       rq_max_results := Nat.min X_API_MAX_RESULTS mpr;
       rq_exclude := (if negb ir then [lit "retweets"] else [])
                     ++ (if negb ire then [lit "replies"] else []) |}
  = inr resp ->
  exists w',
    fetchNewTweets uid since ir ire mpr env w
    = (inr (array_sort (fun a b => localeCompare (collation env) (id a) (id b))
                       (or_nil (tr_data resp)),
            or_nil (tr_media resp)), w').
Proof.
  intros uid since ir ire mpr env w resp Hx.
  unfold fetchNewTweets, logRateLimit. primg. rewrite Hx.
  rl_casesg (tr_rateLimit resp); eexists; reflexivity.
Qed.



(** The file-backed script. *)
Lemma first_rejected_none : forall data,
  Forall (fun t => Legacy.is_numeric (id t) = true) data ->
  Legacy.first_rejected data = None.
Proof.
  intros data H. unfold Legacy.first_rejected.
  assert (G : forall l, Forall (fun t => Legacy.is_numeric (id t) = true) l ->
                        filter (fun t => negb (Legacy.is_numeric (id t))) l = []).
  { clear. intros l H. induction H as [|t r Ht _ IH]; [reflexivity|].
    simpl. rewrite Ht. exact IH. }
  rewrite G; [reflexivity|].
  destruct data as [|a [|b r]]; simpl; try exact H.
  inversion H as [|? ? Ha Hr]; subst. inversion Hr as [|? ? Hb Hr']; subst.
  repeat constructor; assumption.
Qed.

Lemma legacy_fetchNewTweets_result : forall uid since ir ire mpr env w resp,
  x_timeline env (length (x_calls w))
    {| rq_user := uid;
       rq_since_id := if truthy since then since else None;
       rq_max_results := Nat.min 100 mpr;
       rq_exclude := (if negb ir then [lit "retweets"] else [])
                     ++ (if negb ire then [lit "replies"] else []) |}
  = inr resp ->
  Forall (fun t => Legacy.is_numeric (id t) = true) (or_nil (tr_data resp)) ->
  exists w',
    Legacy.fetchNewTweets uid since ir ire mpr env w
    = (inr (firstn mpr (array_sort Legacy.by_BigInt (or_nil (tr_data resp)))), w').
Proof.
  intros uid since ir ire mpr env w resp Hx Hn.
  unfold Legacy.fetchNewTweets. primg. rewrite Hx.
  rewrite (first_rejected_none _ Hn).
  destruct (2 <=? length (or_nil (tr_data resp))); eexists; reflexivity.
Qed.








(* ------------------------------------------------------------------ *)
(** * More on chunking                                                  *)
(* ------------------------------------------------------------------ *)

Lemma skipn_nth_error : forall (l : jsstring) n x,
  nth_error l n = Some x -> skipn n l = x :: skipn (S n) l.
Proof.
  induction l as [|y r IH]; intros [|n] x H; simpl in H; try discriminate.
  - inversion H; subst. reflexivity.
  - simpl. apply IH. exact H.
Qed.

Lemma substring_split : forall (text : jsstring) a b,
  a <= b -> skipn a text = substring text a b ++ skipn b text.
Proof.
  intros text a b H. unfold substring.
  rewrite <- (firstn_skipn (b - a) (skipn a text)) at 1.
  rewrite skipn_skipn. replace (b - a + a) with b by lia. reflexivity.
Qed.

Lemma substring_nonempty : forall (text : jsstring) a b,
  a < b -> a < length text -> substring text a b <> [].
Proof.
  intros text a b H1 H2 E. apply (f_equal (@length cu)) in E.
  unfold substring in E. rewrite length_firstn, length_skipn in E.
  simpl in E. lia.
Qed.

Lemma chunk_loop_weave : forall text limit,
  0 < limit ->
  forall fuel start l,
    chunk_loop fuel text limit start = Some l ->
    Forall (fun p => p <> []) l
    /\ exists seps,
         length seps = length l
         /\ Forall cut_gap seps
         /\ skipn start text = weave l seps.
Proof.
  intros text limit Hlim. induction fuel as [|f IH]; intros start l H.
  - simpl in H. destruct (start <? length text) eqn:L; [discriminate|].
    inversion H; subst. apply Nat.ltb_ge in L. split; [constructor|].
    exists []. repeat split; [constructor|]. simpl. apply skipn_all2. exact L.
  - rewrite chunk_loop_step in H. destruct (start <? length text) eqn:L.
    2:{ inversion H; subst. apply Nat.ltb_ge in L. split; [constructor|].
        exists []. repeat split; [constructor|]. simpl. apply skipn_all2. exact L. }
    apply Nat.ltb_lt in L. cbv zeta in H.
    set (e := Nat.min (start + limit) (length text)) in H.
    assert (He : start < e <= length text) by (unfold e; lia).
    assert (G : forall splitAt sep,
              start < splitAt <= e ->
              cut_gap sep ->
              skipn splitAt text
              = sep ++ skipn (if splitAt =? e then e else splitAt + 1) text ->
              match chunk_loop f text limit
                      (if splitAt =? e then e else splitAt + 1) with
              | Some rest => Some (substring text start splitAt :: rest)
              | None => None
              end = Some l ->
              Forall (fun p => p <> []) l
              /\ exists seps,
                   length seps = length l
                   /\ Forall cut_gap seps
                   /\ skipn start text = weave l seps).
    { intros splitAt sep Hs Hg Hsk Hm.
      destruct (chunk_loop f text limit (if splitAt =? e then e else splitAt + 1))
        as [rest|] eqn:R; [|discriminate].
      inversion Hm; subst l. apply IH in R. destruct R as (Hne & seps & A & B & C).
      split.
      - constructor; [apply substring_nonempty; lia|exact Hne].
      - exists (sep :: seps). split; [simpl; congruence|].
        split; [constructor; assumption|].
        simpl. rewrite <- C, <- Hsk. apply substring_split. lia. }
    destruct (lastIndexOf text NL e) as [i|] eqn:LI.
    + unfold lastIndexOf in LI. apply lastIndexOf_at_some in LI.
      destruct LI as (_ & Hie & Hnl & _). rewrite Nat.sub_0_r in Hnl.
      destruct (i <=? start) eqn:Lis.
      * apply (G e []); [lia|left; reflexivity| |exact H].
        rewrite Nat.eqb_refl. reflexivity.
      * apply Nat.leb_gt in Lis. destruct (i =? e) eqn:Q.
        -- apply Nat.eqb_eq in Q. subst i.
           apply (G e []); [lia|left; reflexivity| |].
           ++ rewrite Nat.eqb_refl. reflexivity.
           ++ rewrite Nat.eqb_refl in *. exact H.
        -- apply (G i [NL]); [lia|right; reflexivity| |rewrite Q; exact H].
           rewrite Q. replace (i + 1) with (S i) by lia.
           apply skipn_nth_error. exact Hnl.
    + apply (G e []); [lia|left; reflexivity| |exact H].
      rewrite Nat.eqb_refl. reflexivity.
Qed.

(** X1.  The pieces of [chunkTelegramMessage] lose nothing but line feeds
    at cuts: the text is the pieces in order with, between two of them
    and after the last, either nothing or one line feed.  For a text over
    the limit no piece is empty. *)
Theorem chunks_lose_only_cut_line_feeds : forall text,
  (exists seps,
     length seps = length (chunkTelegramMessage text)
     /\ Forall cut_gap seps
     /\ text = weave (chunkTelegramMessage text) seps)
  /\ (TELEGRAM_MAX_MESSAGE_LENGTH < length text ->
      Forall (fun p => p <> []) (chunkTelegramMessage text)).
Proof.
  intros text.
  destruct (chunk_total text) as (chunks & Hf & Hc & _ & Hshort & _).
  rewrite Hc. unfold chunkTelegramMessage_fuel in Hf.
  destruct (length text <=? TELEGRAM_MAX_MESSAGE_LENGTH) eqn:L.
  - apply Nat.leb_le in L. inversion Hf; subst chunks. split.
    + exists [[]]. split; [reflexivity|]. split.
      * constructor; [left; reflexivity|constructor].
      * simpl. rewrite !app_nil_r. reflexivity.
    + intros H. lia.
  - assert (P : 0 < TELEGRAM_MAX_MESSAGE_LENGTH)
      by (unfold TELEGRAM_MAX_MESSAGE_LENGTH; lia).
    destruct (chunk_loop_weave text TELEGRAM_MAX_MESSAGE_LENGTH P _ _ _ Hf)
      as (Hne & seps & A & B & C).
    split; [exists seps; auto|]. intros _. exact Hne.
Qed.

(** The spec example again: the line feed at index 4090 is the only code
    unit that is not in a piece. *)
Lemma chunks_lose_only_cut_line_feeds_witness :
  TELEGRAM_MAX_MESSAGE_LENGTH < length body9000
  /\ Forall (fun p => p <> []) (chunkTelegramMessage body9000)
  /\ body9000 = weave (chunkTelegramMessage body9000) [[NL]; []; []].
Proof.
  assert (L : TELEGRAM_MAX_MESSAGE_LENGTH < length body9000)
    by (apply Nat.ltb_lt; vm_compute; reflexivity).
  destruct (chunks_lose_only_cut_line_feeds body9000) as (_ & H).
  split; [exact L|]. split; [exact (H L)|]. vm_compute. reflexivity.
Defined.

Lemma legacy_chunk_loop_spec : forall text limit,
  0 < limit ->
  forall fuel start,
    length text - start <= fuel ->
    exists l,
      Legacy.chunk_loop fuel text limit start = Some l
      /\ Forall (fun p => length p <= limit) l
      /\ Forall (fun p => p <> []) l
      /\ concat l = skipn start text.
Proof.
  intros text limit Hlim. induction fuel as [|f IH]; intros start Hf.
  - exists []. simpl. assert (L : (start <? length text) = false)
      by (apply Nat.ltb_ge; lia).
    rewrite L. repeat split; try constructor.
    symmetry. apply skipn_all2. lia.
  - change (Legacy.chunk_loop (S f) text limit start)
      with (if start <? length text then
              let end_ := Nat.min (start + limit) (length text) in
              let cut :=
                match lastIndexOf text NL end_ with
                | None => end_
                | Some i => if i <=? start then end_ else i
                end in
              match Legacy.chunk_loop f text limit cut with
              | Some rest => Some (substring text start cut :: rest)
              | None => None
              end
            else Some []).
    destruct (start <? length text) eqn:L.
    2:{ exists []. apply Nat.ltb_ge in L. repeat split; try constructor.
        symmetry. apply skipn_all2. exact L. }
    apply Nat.ltb_lt in L. cbv zeta.
    set (e := Nat.min (start + limit) (length text)).
    assert (He : start < e <= start + limit /\ e <= length text)
      by (unfold e; lia).
    assert (G : forall cut, start < cut <= e ->
              exists l,
                match Legacy.chunk_loop f text limit cut with
                | Some rest => Some (substring text start cut :: rest)
                | None => None
                end = Some l
                /\ Forall (fun p => length p <= limit) l
                /\ Forall (fun p => p <> []) l
                /\ concat l = skipn start text).
    { intros cut Hc. destruct (IH cut ltac:(lia)) as (rest & R & A & B & C).
      rewrite R. eexists. split; [reflexivity|]. split; [|split].
      - constructor; [|exact A].
        pose proof (substring_length_le text start cut). lia.
      - constructor; [apply substring_nonempty; lia|exact B].
      - simpl. rewrite C. symmetry. apply substring_split. lia. }
    destruct (lastIndexOf text NL e) as [i|] eqn:LI.
    + unfold lastIndexOf in LI. apply lastIndexOf_at_some in LI.
      destruct LI as (_ & Hie & _).
      destruct (i <=? start) eqn:Lis.
      * apply G. lia.
      * apply Nat.leb_gt in Lis. apply G. lia.
    + apply G. lia.
Qed.

(** X2.  In the file-backed script [chunkTelegramMessage] ends for every
    text and cuts without loss: the pieces, each of at most 4096 code
    units, concatenate to the text, and for a text over the limit none is
    empty. *)
Theorem legacy_chunks_are_lossless : forall text,
  concat (Legacy.chunkTelegramMessage text) = text
  /\ Forall (fun p => length p <= 4096) (Legacy.chunkTelegramMessage text)
  /\ (4096 < length text ->
      Forall (fun p => p <> []) (Legacy.chunkTelegramMessage text)).
Proof.
  intros text. unfold Legacy.chunkTelegramMessage.
  destruct (length text <=? 4096) eqn:L.
  - apply Nat.leb_le in L. split; [simpl; apply app_nil_r|].
    split; [constructor; [exact L|constructor]|]. intros H. lia.
  - destruct (legacy_chunk_loop_spec text 4096 ltac:(lia) (length text) 0
                ltac:(lia)) as (l & R & A & B & C).
    rewrite R. split; [exact C|]. split; [exact A|]. intros _. exact B.
Qed.

(** On the spec example the newer script drops the line feed at index
    4090 and the older one keeps it, at the head of the second piece. *)
Lemma legacy_chunks_are_lossless_witness :
  4096 < length body9000
  /\ Forall (fun p => p <> []) (Legacy.chunkTelegramMessage body9000)
  /\ map (@length cu) (Legacy.chunkTelegramMessage body9000) = [4090; 4096; 814].
Proof.
  assert (L : 4096 < length body9000)
    by (apply Nat.ltb_lt; vm_compute; reflexivity).
  destruct (legacy_chunks_are_lossless body9000) as (_ & _ & H).
  split; [exact L|]. split; [exact (H L)|]. vm_compute. reflexivity.
Defined.

(* ------------------------------------------------------------------ *)
(** * Captions, media and messages                                      *)
(* ------------------------------------------------------------------ *)

(** X3.  A caption never exceeds the caption limit: its length is the
    smaller of the length of the message and 1024, and its first 1021
    code units are those of the message. *)
Theorem caption_fits_the_limit : forall message,
  length (generateCaption message)
  = Nat.min (length message) TELEGRAM_CAPTION_MAX_LENGTH
  /\ firstn 1021 (generateCaption message) = firstn 1021 message.
Proof.
  intros message.
  destruct (Nat.le_gt_cases (length message) TELEGRAM_CAPTION_MAX_LENGTH) as [L|L].
  - unfold generateCaption. apply Nat.leb_le in L as L'. rewrite L'.
    split; [lia|reflexivity].
  - destruct (generateCaption_truncates message L) as (E & Hl).
    unfold TELEGRAM_CAPTION_MAX_LENGTH in *. split; [lia|].
    rewrite E. rewrite firstn_app.
    rewrite length_firstn. replace (1021 - Nat.min 1021 (length message)) with 0 by lia.
    rewrite firstn_firstn. simpl firstn at 2. rewrite app_nil_r.
    replace (Nat.min 1021 1021) with 1021 by reflexivity. reflexivity.
Qed.

Lemma mediaGroup_of_nth : forall message media i item,
  nth_error (mediaGroup_of message media) i = Some item ->
  i < TELEGRAM_MEDIA_GROUP_MAX_SIZE
  /\ exists src,
       nth_error media i = Some src
       /\ gi_type item = tg_type src
       /\ gi_media item = tg_url src
       /\ gi_caption item
          = (if i =? 0 then Some (generateCaption message) else None).
Proof.
  intros message media i item H. unfold mediaGroup_of in H.
  assert (Hi : nth_error (firstn TELEGRAM_MEDIA_GROUP_MAX_SIZE media) i <> None).
  { destruct (firstn TELEGRAM_MEDIA_GROUP_MAX_SIZE media) as [|m r];
      [destruct i; discriminate|].
    destruct i as [|i]; [discriminate|]. simpl in H |- *.
    rewrite nth_error_map in H. destruct (nth_error r i); [discriminate|].
    discriminate. }
  apply nth_error_Some in Hi. rewrite length_firstn in Hi.
  split; [lia|].
  assert (Hs : nth_error (firstn TELEGRAM_MEDIA_GROUP_MAX_SIZE media) i
               = nth_error media i).
  { rewrite nth_error_firstn.
    assert (Q : (i <? TELEGRAM_MEDIA_GROUP_MAX_SIZE) = true)
      by (apply Nat.ltb_lt; lia).
    rewrite Q. reflexivity. }
  destruct (firstn TELEGRAM_MEDIA_GROUP_MAX_SIZE media) as [|m r];
    [destruct i; discriminate|].
  destruct i as [|i].
  - simpl in H, Hs. inversion H; subst item. exists m. simpl. auto.
  - simpl in H, Hs. rewrite nth_error_map in H.
    destruct (nth_error r i) as [src|] eqn:E; [|discriminate].
    inversion H; subst item. exists src. simpl. auto.
Qed.

(** X4.  The media group sent for a message has as many items as there
    are media, up to 10; item [i] shows medium [i], and only the first
    item carries the caption. *)
Theorem media_group_is_capped_and_captioned_once : forall message media,
  length (mediaGroup_of message media)
  = Nat.min TELEGRAM_MEDIA_GROUP_MAX_SIZE (length media)
  /\ forall i item,
       nth_error (mediaGroup_of message media) i = Some item ->
       exists src,
         nth_error media i = Some src
         /\ gi_type item = tg_type src
         /\ gi_media item = tg_url src
         /\ gi_caption item
            = (if i =? 0 then Some (generateCaption message) else None).
Proof.
  intros message media. split.
  - unfold mediaGroup_of.
    rewrite <- (length_firstn TELEGRAM_MEDIA_GROUP_MAX_SIZE media).
    destruct (firstn TELEGRAM_MEDIA_GROUP_MAX_SIZE media) as [|m r];
      [reflexivity|]. simpl. rewrite length_map. reflexivity.
  - intros i item H. apply mediaGroup_of_nth in H. tauto.
Qed.

(** Two photos: the second item of the group has no caption. *)
Lemma media_group_is_capped_and_captioned_once_witness :
  nth_error (mediaGroup_of (lit "hello") two_photos) 1
  = Some {| gi_type := photo; gi_media := lit "https://pbs.twimg.com/b.jpg";
            gi_caption := None |}
  /\ exists src,
       nth_error two_photos 1 = Some src
       /\ tg_url src = lit "https://pbs.twimg.com/b.jpg".
Proof.
  assert (H : nth_error (mediaGroup_of (lit "hello") two_photos) 1
              = Some {| gi_type := photo;
                        gi_media := lit "https://pbs.twimg.com/b.jpg";
                        gi_caption := None |}) by reflexivity.
  split; [exact H|].
  destruct (media_group_is_capped_and_captioned_once (lit "hello") two_photos)
    as (_ & G).
  destruct (G 1 _ H) as (src & A & _ & B & _).
  exists src. split; [exact A|]. symmetry. exact B.
Defined.

Lemma str_eqb_eq : forall a b, str_eqb a b = true -> a = b.
Proof.
  induction a as [|x a IH]; intros [|y b] H; simpl in H; try discriminate.
  - reflexivity.
  - apply andb_true_iff in H. destruct H as [H1 H2].
    apply N.eqb_eq in H1. apply IH in H2. congruence.
Qed.

Lemma map_get_some : forall mediaData key m,
  map_get mediaData key = Some m -> In m mediaData /\ media_key m = key.
Proof.
  induction mediaData as [|x r IH]; intros key m H; simpl in H; [discriminate|].
  destruct (map_get r key) as [m'|] eqn:E.
  - inversion H; subst m'. apply IH in E. destruct E as [A B].
    split; [right; exact A|exact B].
  - destruct (str_eqb (media_key x) key) eqn:Q; [|discriminate].
    inversion H; subst x. split; [left; reflexivity|apply str_eqb_eq; exact Q].
Qed.

Lemma truthy_some : forall o, truthy o = true ->
  exists c r, o = Some (c :: r).
Proof.
  intros [[|c r]|] H; simpl in H; try discriminate. exists c, r. reflexivity.
Qed.

Lemma to_tg_media_from : forall src,
  media_eligible src = true ->
  tg_type (to_tg_media src) = photo
  /\ tg_url (to_tg_media src) <> []
  /\ from_media src (to_tg_media src).
Proof.
  intros src H. unfold media_eligible in H. unfold to_tg_media, from_media.
  destruct (mtype src) eqn:T; try discriminate;
    apply truthy_some in H; destruct H as (c & r & E); rewrite E; simpl.
  - split; [reflexivity|]. split; [discriminate|]. left. auto.
  - split; [reflexivity|]. split; [discriminate|]. right. auto.
Qed.

Lemma filter_map_get_spec : forall mediaData keys,
  length (filter_map_get mediaData keys) <= length keys
  /\ Forall (fun src => In src mediaData /\ In (media_key src) keys
                        /\ media_eligible src = true)
            (filter_map_get mediaData keys).
Proof.
  intros mediaData. induction keys as [|k r IH]; simpl.
  - split; [lia|constructor].
  - destruct IH as [A B].
    assert (B' : Forall (fun src => In src mediaData
                                    /\ In (media_key src) (k :: r)
                                    /\ media_eligible src = true)
                        (filter_map_get mediaData r)).
    { eapply Forall_impl; [|exact B]. intros src (X & Y & Z).
      split; [exact X|]. split; [right; exact Y|exact Z]. }
    destruct (map_get mediaData k) as [m|] eqn:E.
    + destruct (media_eligible m) eqn:El.
      * split; [simpl; lia|]. constructor; [|exact B'].
        apply map_get_some in E. destruct E as [X Y].
        split; [exact X|]. split; [left; symmetry; exact Y|exact El].
      * split; [lia|exact B'].
    + split; [lia|exact B'].
Qed.

(** X5.  [extractMedia] gives at most one item per media key of the
    post; every item is sent as a photo, has a non-empty url, and comes
    from a media object of the response whose key the post lists: the
    url of a photo, or the preview image of a video (flagged as such).
    Without keys, or without media objects, there is no item. *)
Theorem extracted_media_are_photos_with_urls : forall tweet mediaData,
  length (extractMedia tweet mediaData) <= length (or_nil (media_keys tweet))
  /\ Forall (fun m =>
               tg_type m = photo /\ tg_url m <> []
               /\ exists src,
                    In src mediaData
                    /\ In (media_key src) (or_nil (media_keys tweet))
                    /\ from_media src m)
            (extractMedia tweet mediaData)
  /\ (or_nil (media_keys tweet) = [] \/ mediaData = [] ->
      extractMedia tweet mediaData = []).
Proof.
  intros tweet mediaData. unfold extractMedia, or_nil.
  set (keys := match media_keys tweet with Some l => l | None => [] end).
  destruct (filter_map_get_spec mediaData keys) as [A B].
  assert (G : length (map to_tg_media (filter_map_get mediaData keys))
              <= length keys
              /\ Forall (fun m =>
                           tg_type m = photo /\ tg_url m <> []
                           /\ exists src,
                                In src mediaData /\ In (media_key src) keys
                                /\ from_media src m)
                        (map to_tg_media (filter_map_get mediaData keys))).
  { split; [rewrite length_map; exact A|].
    apply Forall_map. eapply Forall_impl; [|exact B].
    intros src (X & Y & Z). destruct (to_tg_media_from src Z) as (P & Q & R).
    split; [exact P|]. split; [exact Q|]. exists src. auto. }
  destruct keys as [|k ks] eqn:K.
  - split; [simpl; lia|]. split; [constructor|]. intros _. reflexivity.
  - destruct mediaData as [|x xs].
    + split; [simpl; lia|]. split; [constructor|]. intros _. reflexivity.
    + destruct G as [G1 G2]. split; [exact G1|]. split; [exact G2|].
      intros [H|H]; discriminate.
Qed.

(** A photo, a video and an unresolved key: two photos go to Telegram,
    the second being the preview of the video. *)
Lemma extracted_media_are_photos_with_urls_witness :
  map tg_url (extractMedia mixed_tweet mixed_media)
  = [lit "https://pbs.twimg.com/3_1"; lit "https://pbs.twimg.com/v.jpg"]
  /\ map isVideoPreview (extractMedia mixed_tweet mixed_media) = [false; true]
  /\ Forall (fun m => tg_type m = photo) (extractMedia mixed_tweet mixed_media)
  /\ extractMedia mixed_tweet [] = [].
Proof.
  destruct (extracted_media_are_photos_with_urls mixed_tweet mixed_media)
    as (_ & F & _).
  destruct (extracted_media_are_photos_with_urls mixed_tweet []) as (_ & _ & E).
  split; [reflexivity|]. split; [reflexivity|]. split.
  - eapply Forall_impl; [|exact F]. intros m (P & _). exact P.
  - apply E. right. reflexivity.
Defined.

Lemma chunks_nonempty : forall text,
  text <> [] -> Forall (fun p => p <> []) (chunkTelegramMessage text).
Proof.
  intros text Hne.
  destruct (chunk_total text) as (chunks & Hf & Hc & _).
  rewrite Hc. unfold chunkTelegramMessage_fuel in Hf.
  destruct (length text <=? TELEGRAM_MAX_MESSAGE_LENGTH).
  - inversion Hf; subst. constructor; [exact Hne|constructor].
  - assert (P : 0 < TELEGRAM_MAX_MESSAGE_LENGTH)
      by (unfold TELEGRAM_MAX_MESSAGE_LENGTH; lia).
    destruct (chunk_loop_weave text TELEGRAM_MAX_MESSAGE_LENGTH P _ _ _ Hf)
      as (H & _). exact H.
Qed.

(** X6.  The message built for a post ends with the source link made of
    the user name and the id of the post, so it is never empty, and no
    piece it is sent in is empty. *)
Theorem message_ends_with_source_link : forall username tweet hasVideoPreview,
  (exists before,
     buildMessage username tweet hasVideoPreview
     = before ++ lit "https://x.com/" ++ username ++ lit "/status/" ++ id tweet)
  /\ Forall (fun p => p <> [])
            (chunkTelegramMessage (buildMessage username tweet hasVideoPreview)).
Proof.
  intros username tweet hasVideoPreview.
  assert (E : exists before,
            buildMessage username tweet hasVideoPreview
            = before ++ lit "https://x.com/" ++ username ++ lit "/status/"
                ++ id tweet).
  { unfold buildMessage.
    generalize (lit "https://x.com/" ++ username ++ lit "/status/" ++ id tweet).
    intros link.
    match goal with
    | |- exists before, ?m ++ ?a ++ ?b ++ ?c ++ ?d ++ link = _ =>
        exists (m ++ a ++ b ++ c ++ d)
    end.
    rewrite <- !app_assoc. reflexivity. }
  split; [exact E|]. apply chunks_nonempty.
  destruct E as (before & E). rewrite E. intros H.
  apply app_eq_nil in H. destruct H as [_ H].
  apply (f_equal (@length cu)) in H. simpl in H. discriminate.
Qed.

(* ------------------------------------------------------------------ *)
(** * Shape of the extracted text                                       *)
(* ------------------------------------------------------------------ *)

Lemma spaced_weaken : forall s b, spaced b s -> spaced false s.
Proof.
  intros [|c r] b H; [exact I|]. simpl in *.
  destruct (is_ws c); [|exact H]. destruct H as (A & B & C). auto.
Qed.

Lemma collapse_ws_go_spaced : forall s b, spaced b (collapse_ws_go b s).
Proof.
  induction s as [|c r IH]; intros b; [exact I|].
  simpl. destruct (is_ws c) eqn:W.
  - destruct b; [apply IH|]. simpl. repeat split. apply IH.
  - simpl. rewrite W. apply IH.
Qed.

Lemma dropWhile_spaced : forall s b,
  spaced b s -> spaced true (dropWhile is_ws s).
Proof.
  induction s as [|c r IH]; intros b H; [exact I|].
  simpl in *. destruct (is_ws c) eqn:W.
  - destruct H as (_ & _ & H). eapply IH. exact H.
  - simpl. rewrite W. exact H.
Qed.

Lemma spaced_prefix : forall a c b, spaced b (a ++ c) -> spaced b a.
Proof.
  induction a as [|x a IH]; intros c b H; [exact I|].
  simpl in *. destruct (is_ws x).
  - destruct H as (A & B & C). repeat split; try assumption.
    eapply IH. exact C.
  - eapply IH. exact H.
Qed.

Lemma dropWhile_suffix : forall p s, exists pre, s = pre ++ dropWhile p s.
Proof.
  intros p s. induction s as [|c r IH].
  - exists []. reflexivity.
  - simpl. destruct (p c).
    + destruct IH as (pre & E). exists (c :: pre). simpl. congruence.
    + exists []. reflexivity.
Qed.

Lemma dropWhile_head : forall s,
  match dropWhile is_ws s with
  | [] => True
  | c :: _ => is_ws c = false
  end.
Proof.
  induction s as [|c r IH]; [exact I|].
  simpl. destruct (is_ws c) eqn:W; [exact IH|exact W].
Qed.

Lemma trim_spaced : forall s b,
  spaced b s -> spaced true (trim s) /\ clean_end (trim s).
Proof.
  intros s b H. unfold trim, clean_end. rewrite rev_involutive. split.
  - destruct (dropWhile_suffix is_ws (rev (dropWhile is_ws s))) as (pre & E).
    apply (f_equal (@rev cu)) in E. rewrite rev_involutive, rev_app_distr in E.
    apply dropWhile_spaced in H. rewrite E in H.
    eapply spaced_prefix. exact H.
  - apply dropWhile_head.
Qed.

(** X7.  The text extracted from a post is tidy: it neither starts nor
    ends with white space, and inside it white space only occurs as
    single spaces. *)
Theorem extracted_text_is_single_spaced : forall tweet,
  spaced true (extractTweetText tweet) /\ clean_end (extractTweetText tweet).
Proof.
  intros tweet. unfold extractTweetText, squeeze_blank.
  rewrite squeeze_blank_go_no_newline by apply collapse_ws_go_no_newline.
  apply (trim_spaced _ false). apply collapse_ws_go_spaced.
Qed.

(* ------------------------------------------------------------------ *)
(** * State file and account id                                         *)
(* ------------------------------------------------------------------ *)

(** X8.  What [saveState] wrote is what [loadState] returns: after a save
    that did not throw, a load from any world holding that file, whose
    read succeeds, gives the record of the saved [lastId] and [userId],
    and changes neither the file nor the cursor. *)
Theorem saved_state_is_loaded_back : forall lastId userId env w w1 w2,
  saveState lastId userId env w = (inr tt, w1) ->
  store w2 = store w1 ->
  read_fails env (n_reads w2) = None ->
  fst (loadState env w2) = inr {| last_id := lastId; user_id := userId |}
  /\ store (snd (loadState env w2)) = store w1
  /\ cursor (snd (loadState env w2)) = lastId.
Proof.
  intros lastId userId env w w1 w2 Hs Hst Hr.
  assert (Hg : env_gist env = true).
  { unfold saveState, getGistCredentials in Hs. prim Hs.
    destruct (env_gist env); [reflexivity|discriminate]. }
  apply saveState_ok in Hs. destruct Hs as (S1 & _).
  unfold loadState, getGistCredentials, fetchGist, cursor. primg.
  rewrite Hg, Hr, Hst, S1. simpl. auto.
Qed.

(** Saving 201 for user 42 and loading again. *)
Lemma saved_state_is_loaded_back_witness :
  fst (loadState
         (sample_env never never2 user42 (timeline_of [] []) no_single)
         (snd (saveState (Some (lit "201")) (Some (lit "42"))
                 (sample_env never never2 user42 (timeline_of [] []) no_single)
                 (sample_world NoFile))))
  = inr {| last_id := Some (lit "201"); user_id := Some (lit "42") |}.
Proof.
  pose (env := sample_env never never2 user42 (timeline_of [] []) no_single).
  pose (w1 := snd (saveState (Some (lit "201")) (Some (lit "42")) env
                     (sample_world NoFile))).
  destruct (saved_state_is_loaded_back (Some (lit "201")) (Some (lit "42")) env
              (sample_world NoFile) w1 w1 eq_refl eq_refl eq_refl) as (H & _).
  exact H.
Defined.

(** X9.  The account id is looked up once: with no id in the state,
    [getUserIdWithCache] makes the one lookup request, and when it returns
    an id the state file holds that id beside the unchanged [last_id];
    given a state with that (non-empty) id it returns it without any
    request, write or log. *)
Theorem account_id_is_looked_up_once : forall u state env w uid w',
  truthy (user_id state) = false ->
  getUserIdWithCache u state env w = (inr uid, w') ->
  store w' = Parsed {| last_id := last_id state; user_id := Some uid |}
  /\ x_calls w' = x_calls w ++ [UserByUsername u]
  /\ (uid <> [] ->
      forall env2 w2,
        getUserIdWithCache u {| last_id := last_id state; user_id := Some uid |}
          env2 w2
        = (inr uid, w2)).
Proof.
  intros u state env w uid w' Hc H. unfold getUserIdWithCache in H.
  assert (G : (log (LLookingUp u) ;;
               userId <- getUserId u ;;
               saveState (last_id state) (Some userId) ;;
               ret userId) env w = (inr uid, w')).
  { destruct (user_id state) as [[|c r]|]; try exact H. discriminate. }
  clear H.
  apply bind_inv in G. destruct G as [(e & _ & Q)|([] & w1 & H1 & G)];
    [discriminate|].
  apply push_log_frames in H1. destruct H1 as (_ & _ & _ & X1 & _).
  apply bind_inv in G. destruct G as [(e & _ & Q)|(uid' & w2 & H2 & G)];
    [discriminate|].
  apply getUserId_frames in H2. destruct H2 as (_ & _ & X2).
  apply bind_inv in G. destruct G as [(e & _ & Q)|([] & w3 & H3 & G)];
    [discriminate|].
  apply saveState_ok in H3. destruct H3 as (S3 & _ & _ & _ & _ & X3).
  prim G. inversion G; subst.
  split; [exact S3|]. split.
  - unfold x_frame in *. congruence.
  - intros Hne env2 wx. unfold getUserIdWithCache. simpl.
    destruct uid as [|c r]; [contradiction|reflexivity].
Qed.

(** A first run for user 42. *)
Lemma account_id_is_looked_up_once_witness :
  store (snd (getUserIdWithCache (lit "nasa")
                {| last_id := Some (lit "200"); user_id := None |}
                (sample_env never never2 user42 (timeline_of [] []) no_single)
                (sample_world (Parsed {| last_id := Some (lit "200");
                                         user_id := None |}))))
  = state_at (lit "200") (lit "42").
Proof.
  pose (env := sample_env never never2 user42 (timeline_of [] []) no_single).
  pose (w := sample_world (Parsed {| last_id := Some (lit "200");
                                     user_id := None |})).
  pose (st := {| last_id := Some (lit "200"); user_id := None |}).
  destruct (account_id_is_looked_up_once (lit "nasa") st env w (lit "42")
              (snd (getUserIdWithCache (lit "nasa") st env w))
              eq_refl eq_refl) as (H & _).
  exact H.
Defined.

(* ------------------------------------------------------------------ *)
(** * Runs that deliver nothing                                         *)
(* ------------------------------------------------------------------ *)

(** X10.  When the fetch returns no post, [run] logs that there are no
    new tweets and returns: no call to Telegram, no write to the state
    file after the account lookup, cursor as it was. *)
Theorem empty_fetch_changes_nothing :
  forall args env w state w0 userId w1 media w2,
  env_telegram env = true ->
  env_bearer env = true ->
  loadState env w = (inr state, w0) ->
  getUserIdWithCache (username args) state env w0 = (inr userId, w1) ->
  fetch_step args userId state env w1 = (inr ([], media), w2) ->
  exists w',
    run args env w = (inr tt, w')
    /\ logs w' = logs w2 ++ [(false, LNoNewTweets)]
    /\ tg_frame w w'
    /\ writes w' = writes w1
    /\ cursor w' = cursor w.
Proof.
  intros args env w state w0 userId w1 media w2 Ht Hb Hl Hu Hf.
  rewrite run_unfold, Hl by assumption.
  unfold try_catch. rewrite run_try_unfold, Hu, Hf. simpl.
  eexists. split; [reflexivity|]. simpl.
  apply loadState_ok in Hl. destruct Hl as (S0 & _ & _ & T0 & _ & L0 & _).
  assert (C0 : cursor w0 = cursor w) by (unfold cursor; rewrite S0; reflexivity).
  rewrite <- C0 in L0.
  pose proof (getUserIdWithCache_cursor _ _ _ _ _ _ Hu L0) as C1.
  apply getUserIdWithCache_inv in Hu. destruct Hu as (T1 & _).
  apply fetch_step_frames in Hf. destruct Hf as (S2 & T2).
  pose proof (store_frame_cursor _ _ S2) as C2.
  destruct S2 as (S2 & _ & _ & W2).
  split; [reflexivity|]. split; [|split].
  - unfold tg_frame in *. simpl. destruct T0, T1, T2. split; congruence.
  - exact W2.
  - unfold cursor in *. simpl. congruence.
Qed.

(** A timeline without posts. *)
Lemma empty_fetch_changes_nothing_witness :
  run (sample_args false None)
    (sample_env never never2 user42 (timeline_of [] []) no_single)
    (sample_world (state_at (lit "200") (lit "42")))
  = (inr tt,
     {| store := state_at (lit "200") (lit "42"); n_reads := 1; n_writes := 0;
        writes := []; tg_attempts := 0; tg_sent := [];
        x_calls := [UserTimeline
                      {| rq_user := lit "42"; rq_since_id := Some (lit "200");
                         rq_max_results := 50;
                         rq_exclude := [lit "retweets"; lit "replies"] |}];
        logs := [(false, LStateLoaded {| last_id := Some (lit "200");
                                         user_id := Some (lit "42") |});
                 (false, LNoNewTweets)] |}).
Proof.
  pose (env := sample_env never never2 user42 (timeline_of [] []) no_single).
  pose (w := sample_world (state_at (lit "200") (lit "42"))).
  pose (args := sample_args false None).
  pose (st := {| last_id := Some (lit "200"); user_id := Some (lit "42") |}).
  pose (w0 := snd (loadState env w)).
  pose (w1 := snd (getUserIdWithCache (username args) st env w0)).
  pose (w2 := snd (fetch_step args (lit "42") st env w1)).
  destruct (empty_fetch_changes_nothing args env w st w0 (lit "42") w1 [] w2
              eq_refl eq_refl eq_refl eq_refl eq_refl) as (w' & H & _).
  fold env w args. rewrite H. vm_compute in H. inversion H. reflexivity.
Defined.

(** X11.  A missing setting stops the run before any request: when the
    Telegram settings, the X token or the Gist settings are not set,
    [run] throws without a read or write of the state file, a call to
    Telegram or a request to the X API, and [main] ends with status 1. *)
Theorem missing_setting_stops_before_any_request : forall args env w,
  env_telegram env = false \/ env_bearer env = false \/ env_gist env = false ->
  (exists e w',
     run args env w = (inl e, w')
     /\ has429Status e = false
     /\ store_frame w w' /\ tg_frame w w' /\ x_frame w w' /\ logs w' = logs w)
  /\ fst (main args env w) = inr 1.
Proof.
  intros args env w H.
  assert (G : forall w0, exists e w',
             run args env w0 = (inl e, w')
             /\ has429Status e = false
             /\ store_frame w0 w' /\ tg_frame w0 w' /\ x_frame w0 w'
             /\ logs w' = logs w0).
  { intros w0. unfold run, getClient, loadState, getGistCredentials. primg.
    destruct (env_telegram env) eqn:Ht.
    - destruct (env_bearer env) eqn:Hb.
      + destruct (env_gist env) eqn:Hg.
        * exfalso. destruct H as [H|[H|H]]; discriminate.
        * eexists; eexists. split; [reflexivity|]. split; [reflexivity|].
          split_frames.
      + eexists; eexists. split; [reflexivity|]. split; [reflexivity|].
        split_frames.
    - eexists; eexists. split; [reflexivity|]. split; [reflexivity|].
      split_frames. }
  split; [apply G|].
  destruct (main_exit_status args env w) as (w1 & res & w2 & _ & _ & E & _ & _ & R).
  rewrite R. destruct (G w1) as (e & w' & E' & _). rewrite E' in E.
  inversion E; subst. reflexivity.
Qed.

(** No X token. *)
Lemma missing_setting_stops_before_any_request_witness :
  main (sample_args false None)
    {| env_gist := true; env_telegram := true; env_bearer := false;
       tgChat := lit "@channel"; read_fails := never; write_fails := never;
       tg_fails := never2; x_user := fun _ _ => user42;
       x_timeline := fun _ _ => timeline_of [t201] [];
       x_single := fun _ _ => no_single;
       collation := fun _ _ => 0%Z |}
    (sample_world (state_at (lit "200") (lit "42")))
  = (inr 1,
     {| store := state_at (lit "200") (lit "42"); n_reads := 0; n_writes := 0;
        writes := []; tg_attempts := 0; tg_sent := []; x_calls := [];
        logs := [(false, LStart (lit "nasa"));
                 (true, LError (lit "Missing X_BEARER_TOKEN."))] |}).
Proof.
  destruct (missing_setting_stops_before_any_request (sample_args false None)
              {| env_gist := true; env_telegram := true; env_bearer := false;
                 tgChat := lit "@channel"; read_fails := never;
                 write_fails := never; tg_fails := never2;
                 x_user := fun _ _ => user42;
                 x_timeline := fun _ _ => timeline_of [t201] [];
                 x_single := fun _ _ => no_single;
                 collation := fun _ _ => 0%Z |}
              (sample_world (state_at (lit "200") (lit "42")))
              (or_intror (or_introl eq_refl))) as (_ & H).
  apply injective_projections; [exact H|vm_compute; reflexivity].
Defined.

(** X12.  An error without a 429 status thrown by the account lookup or
    by the fetch is the error of [run]: nothing is sent and the cursor
    stays.  An unknown user and an unknown tweet id give such errors. *)
Theorem other_fetch_errors_are_fatal :
  (forall args env w state w0 e w1,
     env_telegram env = true ->
     env_bearer env = true ->
     loadState env w = (inr state, w0) ->
     has429Status e = false ->
     (getUserIdWithCache (username args) state env w0 = (inl e, w1)
      \/ exists userId w0',
           getUserIdWithCache (username args) state env w0 = (inr userId, w0')
           /\ fetch_step args userId state env w0' = (inl e, w1)) ->
     run args env w = (inl e, w1)
     /\ tg_frame w w1
     /\ cursor w1 = cursor w)
  /\ (forall u env w rl,
        x_user env (length (x_calls w)) u
        = inr {| ur_id := None; ur_rateLimit := rl |} ->
        fst (getUserId u env w)
        = inl (mkError (lit "User @" ++ u ++ lit " not found.")))
  /\ (forall tid env w media rl,
        x_single env (length (x_calls w)) tid
        = inr {| sr_data := None; sr_media := media; sr_rateLimit := rl |} ->
        fst (fetchSpecificTweet tid env w)
        = inl (mkError (lit "Tweet " ++ tid ++ lit " not found."))).
Proof.
  split; [|split].
  - intros args env w state w0 e w1 Ht Hb Hl H429 Hcase.
    rewrite run_unfold, Hl by assumption.
    apply loadState_ok in Hl.
    destruct Hl as (S0 & _ & _ & T0 & _ & L0 & _).
    assert (C0 : cursor w0 = cursor w) by (unfold cursor; rewrite S0; reflexivity).
    rewrite <- C0 in L0.
    unfold try_catch. rewrite run_try_unfold.
    destruct Hcase as [HA|(userId & w0' & HA & HB)].
    + rewrite HA. unfold run_catch. rewrite H429. split; [reflexivity|].
      split.
      * apply getUserIdWithCache_inv in HA. destruct HA as (TA & _).
        eapply tg_frame_trans; eassumption.
      * rewrite <- C0. eapply getUserIdWithCache_cursor; eassumption.
    + rewrite HA, HB. unfold run_catch. rewrite H429. split; [reflexivity|].
      pose proof (getUserIdWithCache_cursor _ _ _ _ _ _ HA L0) as C1.
      apply getUserIdWithCache_inv in HA. destruct HA as (TA & _).
      apply fetch_step_frames in HB. destruct HB as (SB & TB).
      split.
      * eapply tg_frame_trans; [exact T0|].
        eapply tg_frame_trans; eassumption.
      * rewrite (store_frame_cursor _ _ SB). congruence.
  - intros u env w rl H. unfold getUserId, logRateLimit. primg. rewrite H.
    destruct rl as [[[?|] [[|?]|] [?|]]|]; reflexivity.
  - intros tid env w media rl H. unfold fetchSpecificTweet, logRateLimit. primg.
    rewrite H. destruct rl as [[[?|] [[|?]|] [?|]]|]; reflexivity.
Qed.

(** A tweet id that the API does not know. *)
Lemma other_fetch_errors_are_fatal_witness :
  fst (run (sample_args false (Some (lit "999")))
         (sample_env never never2 user42 (timeline_of [] []) no_single)
         (sample_world (state_at (lit "200") (lit "42"))))
  = inl (mkError (lit "Tweet 999 not found."))
  /\ cursor (snd (run (sample_args false (Some (lit "999")))
                    (sample_env never never2 user42 (timeline_of [] []) no_single)
                    (sample_world (state_at (lit "200") (lit "42")))))
     = Some (lit "200").
Proof.
  pose (env := sample_env never never2 user42 (timeline_of [] []) no_single).
  pose (w := sample_world (state_at (lit "200") (lit "42"))).
  pose (args := sample_args false (Some (lit "999"))).
  pose (st := {| last_id := Some (lit "200"); user_id := Some (lit "42") |}).
  pose (w0 := snd (loadState env w)).
  pose (w0' := snd (getUserIdWithCache (username args) st env w0)).
  pose (w1 := snd (fetch_step args (lit "42") st env w0')).
  destruct other_fetch_errors_are_fatal as (G & _).
  destruct (G args env w st w0 (mkError (lit "Tweet 999 not found.")) w1
              eq_refl eq_refl eq_refl eq_refl
              (or_intror (ex_intro _ (lit "42")
                            (ex_intro _ w0' (conj eq_refl eq_refl)))))
    as (H & _ & C).
  fold env w args. rewrite H. split; [reflexivity|exact C].
Defined.

(* ------------------------------------------------------------------ *)
(** * A media group followed by text                                    *)
(* ------------------------------------------------------------------ *)

Lemma for_of_tg_call_fails_at : forall (mk : jsstring -> TgCall) l n e env w,
  n < length l ->
  (forall i, i < n -> tg_fails env (tg_attempts w + i) (mk (nth i l [])) = None) ->
  tg_fails env (tg_attempts w + n) (mk (nth n l [])) = Some e ->
  exists w',
    for_of l (fun p => tg_call (mk p)) env w = (inl e, w')
    /\ tg_sent w' = tg_sent w ++ map mk (firstn n l)
    /\ tg_attempts w' = tg_attempts w + n + 1
    /\ logs w' = logs w.
Proof.
  intros mk l. induction l as [|p r IH]; intros n e env w Hn Hok Hfail.
  - simpl in Hn. lia.
  - simpl. unfold bind at 1. unfold tg_call at 1. destruct n as [|n].
    + rewrite Nat.add_0_r in Hfail. simpl in Hfail. rewrite Hfail.
      eexists. split; [reflexivity|]. simpl. rewrite app_nil_r.
      repeat split; lia.
    + pose proof (Hok 0 ltac:(lia)) as H0. rewrite Nat.add_0_r in H0.
      simpl in H0. rewrite H0.
      match goal with
      | |- context [for_of r _ env ?w1] =>
          destruct (IH n e env w1) as (w' & H & A & B & C)
      end.
      * simpl in Hn. lia.
      * intros i Hi. simpl.
        pose proof (Hok (S i) ltac:(lia)) as Hi'. simpl in Hi'.
        replace (tg_attempts w + S i) with (S (tg_attempts w + i)) in Hi' by lia.
        exact Hi'.
      * simpl. simpl in Hfail.
        replace (tg_attempts w + S n) with (S (tg_attempts w + n)) in Hfail by lia.
        exact Hfail.
      * exists w'. split; [exact H|]. simpl in A, B, C.
        split; [|split; [lia|exact C]].
        rewrite A. simpl. rewrite <- app_assoc. reflexivity.
Qed.

(** X13.  When a media group has been accepted and the text that follows
    it (sent because the message is too long for the caption, or because
    there are more than 10 media) is refused at its piece [n], the
    fallback sends the whole text again from its first piece: with the
    later calls accepted, [sendToTelegram] returns normally and the pieces
    before [n] have been delivered twice. *)
Theorem refused_follow_up_text_is_sent_again :
  forall chatId message media dp env w n e,
  2 <= length media ->
  (TELEGRAM_CAPTION_MAX_LENGTH <? length message)
  || (TELEGRAM_MEDIA_GROUP_MAX_SIZE <? length media) = true ->
  tg_fails env (tg_attempts w)
    (SendMediaGroup chatId (mediaGroup_of message media)) = None ->
  n < length (chunkTelegramMessage message) ->
  (forall i, i < n ->
     tg_fails env (tg_attempts w + 1 + i)
       (SendMessage chatId (nth i (chunkTelegramMessage message) []) dp false)
     = None) ->
  tg_fails env (tg_attempts w + 1 + n)
    (SendMessage chatId (nth n (chunkTelegramMessage message) []) dp false)
  = Some e ->
  (forall k part, tg_attempts w + n + 2 <= k ->
     tg_fails env k (SendMessage chatId part dp false) = None) ->
  exists w',
    sendToTelegram chatId message media dp false env w = (inr tt, w')
    /\ tg_sent w'
       = tg_sent w
         ++ [SendMediaGroup chatId (mediaGroup_of message media)]
         ++ map (fun p => SendMessage chatId p dp false)
                (firstn n (chunkTelegramMessage message))
         ++ map (fun p => SendMessage chatId p dp false)
                (chunkTelegramMessage message)
    /\ logs w' = logs w ++ [(true, LMediaError (e_message e))].
Proof.
  intros chatId message media dp env w n e Hm Hlong Hgroup Hn Hok Hfail Hlater.
  assert (Hsm : send_media chatId message media dp
                = sendMediaGroup chatId message media dp).
  { unfold send_media. destruct media as [|a [|b r]]; try reflexivity.
    simpl in Hm. lia. }
  unfold sendToTelegram.
  assert (L0 : (0 <? length media) = true) by (apply Nat.ltb_lt; lia).
  rewrite L0, Hsm. unfold try_catch, sendMediaGroup.
  unfold bind at 1. unfold tg_call at 1. rewrite Hgroup, Hlong.
  unfold sendTextMessageChunked at 1.
  match goal with
  | |- context [for_of _ _ env ?w1] =>
      destruct (for_of_tg_call_fails_at
                  (fun p => SendMessage chatId p dp false)
                  (chunkTelegramMessage message) n e env w1 Hn)
        as (w2 & H2 & A2 & B2 & C2)
  end.
  { intros i Hi. cbn [tg_attempts].
    replace (S (tg_attempts w) + i) with (tg_attempts w + 1 + i) by lia.
    apply Hok. exact Hi. }
  { cbn [tg_attempts].
    replace (S (tg_attempts w) + n) with (tg_attempts w + 1 + n) by lia.
    exact Hfail. }
  match goal with
  | |- context [for_of ?l ?f env ?w1] =>
      replace (for_of l f env w1) with (@inl JsError unit e, w2)
        by (symmetry; exact H2)
  end.
  unfold bind at 1. unfold logError at 1, push_log at 1.
  match goal with
  | |- context [sendTextMessageChunked _ _ _ env ?w3] =>
      destruct (sendTextMessageChunked_accepts chatId message dp env w3)
        as (w' & H3 & A3 & _ & _ & _ & C3)
  end.
  { intros k part Hk. cbn [tg_attempts] in Hk, B2. apply Hlater. lia. }
  exists w'. split; [exact H3|].
  cbn [tg_sent logs] in A2, C2, A3, C3. split.
  - rewrite A3, A2. rewrite <- !app_assoc. reflexivity.
  - rewrite C3, C2. reflexivity.
Qed.

(** Two photos and the 9000-unit body, the second piece refused once:
    the first piece arrives twice. *)
Lemma refused_follow_up_text_is_sent_again_witness :
  map (fun c => match c with
                | SendMessage _ part _ _ => length part
                | _ => 0
                end)
      (tg_sent
         (snd (sendToTelegram (lit "@channel") body9000 two_photos false false
                 (sample_env never (refuse_at 2) user42 (timeline_of [] [])
                    no_single)
                 (sample_world NoFile))))
  = [0; 4090; 4090; 4096; 813]
  /\ fst (sendToTelegram (lit "@channel") body9000 two_photos false false
            (sample_env never (refuse_at 2) user42 (timeline_of [] []) no_single)
            (sample_world NoFile))
     = inr tt.
Proof.
  destruct (refused_follow_up_text_is_sent_again
              (lit "@channel") body9000 two_photos false
              (sample_env never (refuse_at 2) user42 (timeline_of [] []) no_single)
              (sample_world NoFile) 1 (mkError (lit "Bad Request")))
    as (w' & H & A & _).
  - simpl. apply le_n.
  - vm_compute. reflexivity.
  - reflexivity.
  - apply Nat.ltb_lt. vm_compute. reflexivity.
  - intros i Hi. destruct i as [|i]; [reflexivity|].
    exfalso. apply Nat.lt_1_r in Hi. discriminate.
  - reflexivity.
  - intros k part Hk. change (tg_attempts (sample_world NoFile) + 1 + 2) with 3 in Hk.
    unfold sample_env, refuse_at. simpl.
    destruct k as [|[|[|k]]]; try reflexivity;
      exfalso; apply Nat.leb_le in Hk; discriminate.
  - rewrite H. simpl fst. simpl snd. rewrite A. split; [|reflexivity].
    vm_compute. reflexivity.
Defined.

(* ------------------------------------------------------------------ *)
(** * From one run to the next                                          *)
(* ------------------------------------------------------------------ *)

Lemma for_of_preserves : forall A (f : A -> M unit) (R : World -> World -> Prop),
  (forall w, R w w) ->
  (forall w1 w2 w3, R w1 w2 -> R w2 w3 -> R w1 w3) ->
  (forall x env w res w', f x env w = (res, w') -> R w w') ->
  forall l env w res w', for_of l f env w = (res, w') -> R w w'.
Proof.
  intros A f R Hrefl Htrans Hf. induction l as [|x r IH]; intros env w res w' H.
  - simpl in H. prim H. inversion H; subst. apply Hrefl.
  - simpl in H. apply bind_inv in H.
    destruct H as [(e & H & _)|(a & w1 & H1 & H2)].
    + eapply Hf. exact H.
    + eapply Htrans; [eapply Hf; exact H1|eapply IH; exact H2].
Qed.

Lemma processTweets_x_frame :
  forall tweets mediaData username chatId dp dry userId env w res w',
  processTweets tweets mediaData username chatId dp dry userId env w = (res, w') ->
  x_frame w w'.
Proof.
  intros tweets mediaData username chatId dp dry userId.
  unfold processTweets.
  apply (for_of_preserves _ _ x_frame).
  - intros w. reflexivity.
  - apply x_frame_trans.
  - intros t env w res w' H. unfold processTweet in H.
    apply bind_inv in H. destruct H as [(e & H & _)|([] & w1 & H1 & H)].
    { apply sendToTelegram_frames in H. tauto. }
    apply sendToTelegram_frames in H1. destruct H1 as (_ & X1).
    apply bind_inv in H. destruct H as [(e & H & _)|([] & w2 & H2 & H)].
    { apply saveState_err in H. destruct H as (_ & _ & _ & _ & X2 & _).
      eapply x_frame_trans; eassumption. }
    apply saveState_ok in H2. destruct H2 as (_ & _ & _ & _ & _ & X2).
    apply push_log_frames in H. destruct H as (_ & _ & _ & X3 & _).
    eapply x_frame_trans; [exact X1|]. eapply x_frame_trans; eassumption.
Qed.

Lemma fetchNewTweets_request : forall uid since args env w res w',
  fetchNewTweets uid since (includeRetweets args) (includeReplies args)
    (maxPerRun args) env w = (res, w') ->
  x_calls w' = x_calls w ++ [UserTimeline (timeline_request uid since args)].
Proof.
  intros uid since args env w res w' H.
  unfold fetchNewTweets, logRateLimit in H. prim H.
  match type of H with
  | context [x_timeline env ?n ?rq] => destruct (x_timeline env n rq) as [e|resp]
  end.
  - inversion H; subst. reflexivity.
  - rl_cases H (tr_rateLimit resp); inversion H; subst; reflexivity.
Qed.

Lemma run_try_request : forall args state c r env w res w',
  user_id state = Some (c :: r) ->
  tweetId args = None ->
  run_try args state env w = (res, w') ->
  x_calls w'
  = x_calls w ++ [UserTimeline (timeline_request (c :: r) (last_id state) args)].
Proof.
  intros args state c r env w res w' Hu Hid H.
  rewrite run_try_unfold in H. unfold getUserIdWithCache in H. rewrite Hu in H.
  unfold ret at 1 in H. unfold fetch_step in H. rewrite Hid in H.
  destruct (fetchNewTweets (c :: r) (last_id state) (includeRetweets args)
              (includeReplies args) (maxPerRun args) env w)
    as [[e|[tweets media]] w2] eqn:F;
    apply fetchNewTweets_request in F.
  - inversion H; subst. exact F.
  - destruct (length tweets =? 0).
    + apply push_log_frames in H. destruct H as (_ & _ & _ & X & _).
      unfold x_frame in X. congruence.
    + apply bind_inv in H. destruct H as [(e & H & _)|([] & w3 & H3 & H)].
      { apply push_log_frames in H. destruct H as (Q & _). discriminate. }
      apply push_log_frames in H3. destruct H3 as (_ & _ & _ & X3 & _).
      apply bind_inv in H. destruct H as [(e & H & _)|([] & w4 & H4 & H)].
      { apply processTweets_x_frame in H. unfold x_frame in *. congruence. }
      apply processTweets_x_frame in H4.
      apply push_log_frames in H. destruct H as (_ & _ & _ & X5 & _).
      unfold x_frame in *. congruence.
Qed.

(** X14.  The next run asks only for what came after the last delivered
    post: started on the record that [processTweets] saved for a post
    (ids not empty), a run on the timeline that can read the state file
    makes exactly one request to the X API, whatever happens next: the
    timeline of the saved account id with [since_id] the id of that post,
    at most 100 results, and no account lookup. *)
Theorem next_run_fetches_since_last_delivered : forall args env w userId t,
  store w = Parsed (saved userId t) ->
  userId <> [] ->
  id t <> [] ->
  tweetId args = None ->
  env_telegram env = true ->
  env_bearer env = true ->
  env_gist env = true ->
  read_fails env (n_reads w) = None ->
  x_calls (snd (run args env w))
  = x_calls w
    ++ [UserTimeline
          {| rq_user := userId;
             rq_since_id := Some (id t);
             rq_max_results := Nat.min X_API_MAX_RESULTS (maxPerRun args);
             rq_exclude :=
               (if negb (includeRetweets args) then [lit "retweets"] else [])
               ++ (if negb (includeReplies args) then [lit "replies"] else []) |}]
  /\ Nat.min X_API_MAX_RESULTS (maxPerRun args) <= 100.
Proof.
  intros args env w userId t Hst Hu Hi Hid Ht Hb Hg Hr.
  split; [|unfold X_API_MAX_RESULTS; lia].
  rewrite run_unfold by assumption.
  destruct (loadState env w) as [[e|state] w0] eqn:L.
  - exfalso. unfold loadState, getGistCredentials, fetchGist in L. prim L.
    rewrite Hg, Hr, Hst in L. discriminate.
  - assert (Q : state = saved userId t /\ x_calls w0 = x_calls w).
    { unfold loadState, getGistCredentials, fetchGist in L. prim L.
      rewrite Hg, Hr, Hst in L. inversion L; subst. split; reflexivity. }
    destruct Q as (-> & X0).
    destruct userId as [|c r]; [contradiction|].
    destruct (id t) as [|d r'] eqn:Ei; [contradiction|].
    unfold try_catch.
    destruct (run_try args (saved (c :: r) t) env w0) as [[e|u] w1] eqn:R;
      pose proof (run_try_request args (saved (c :: r) t) c r env w0 _ _
                    eq_refl Hid R) as X1;
      unfold timeline_request in X1; simpl in X1; rewrite Ei in X1; simpl in X1.
    + unfold run_catch. destruct (has429Status e).
      * destruct (e_rateLimit e); primg; simpl; congruence.
      * primg. simpl. congruence.
    + simpl. congruence.
Qed.

(** After post 201 was saved for account 42. *)
Lemma next_run_fetches_since_last_delivered_witness :
  x_calls
    (snd (run (sample_args false None)
            (sample_env never never2 user42 (timeline_of [t202] []) no_single)
            (sample_world (Parsed (saved (lit "42") t201)))))
  = [UserTimeline
       {| rq_user := lit "42"; rq_since_id := Some (lit "201");
          rq_max_results := 50;
          rq_exclude := [lit "retweets"; lit "replies"] |}].
Proof.
  destruct (next_run_fetches_since_last_delivered
              (sample_args false None)
              (sample_env never never2 user42 (timeline_of [t202] []) no_single)
              (sample_world (Parsed (saved (lit "42") t201)))
              (lit "42") t201 eq_refl ltac:(discriminate) ltac:(discriminate)
              eq_refl eq_refl eq_refl eq_refl eq_refl) as (H & _).
  rewrite H. reflexivity.
Defined.

(* ------------------------------------------------------------------ *)
(** * More on the file-backed script                                    *)
(* ------------------------------------------------------------------ *)

Lemma legacy_sendToTelegram_frames : forall chatId message dp dry env w res w',
  Legacy.sendToTelegram chatId message dp dry env w = (res, w') ->
  store_frame w w' /\ x_frame w w'
  /\ (dry = true -> tg_frame w w' /\ res = inr tt).
Proof.
  intros chatId message dp dry env w res w' H. unfold Legacy.sendToTelegram in H.
  destruct dry.
  - apply push_log_frames in H. tauto.
  - split; [|split; [|discriminate]].
    + revert H. apply (for_of_preserves _ _ store_frame).
      * apply store_frame_refl.
      * apply store_frame_trans.
      * intros part env0 w0 res0 w0' H0. prim H0.
        destruct (tg_fails env0 (tg_attempts w0) _); inversion H0; subst;
          split_frames.
    + revert H. apply (for_of_preserves _ _ x_frame).
      * intros w0. reflexivity.
      * apply x_frame_trans.
      * intros part env0 w0 res0 w0' H0. prim H0.
        destruct (tg_fails env0 (tg_attempts w0) _); inversion H0; subst;
          reflexivity.
Qed.

(** The posting loop never throws; in a dry run it calls Telegram for no
    post and reaches the end; what it returns and what it leaves in a
    file that takes the writes agree. *)
Lemma legacy_posting_loop_inv : forall args chatId tweets lastId env w,
  exists o l w',
    Legacy.posting_loop args chatId tweets lastId env w = (inr (o, l), w')
    /\ x_frame w w'
    /\ (dryRun args = true ->
        tg_frame w w' /\ o = None
        /\ l = last (map (fun p => Some (id p)) tweets) lastId)
    /\ ((forall n, write_fails env n = None) ->
        lastId = cursor w -> l = cursor w').
Proof.
  intros args chatId tweets. induction tweets as [|t r IH]; intros lastId env w.
  - exists None, lastId, w. simpl. split; [reflexivity|].
    split; [reflexivity|].
    split; [intros _; split; [apply tg_frame_refl|split; reflexivity]|].
    auto.
  - cbn [Legacy.posting_loop]. unfold bind at 1. unfold try_catch at 1. unfold bind at 1.
    destruct (Legacy.sendToTelegram chatId (Legacy.buildMessage (username args) t)
                (disablePreview args) (dryRun args) env w) as [[e|[]] w1] eqn:S;
      apply legacy_sendToTelegram_frames in S; destruct S as (S1 & X1 & T1).
    + unfold ret. exists (Some e), lastId, w1. split; [reflexivity|].
      split; [exact X1|]. split.
      * intros Hd. destruct (T1 Hd) as (_ & Q). discriminate.
      * intros _ Hl. rewrite (store_frame_cursor _ _ S1). exact Hl.
    + unfold ret at 1. unfold bind at 1.
      destruct (legacy_saveState_total (Some (id t)) env w1)
        as (w2 & H2 & T2 & X2 & Sok & _).
      rewrite H2. unfold bind at 1. unfold log at 1, push_log at 1.
      match goal with
      | |- context [Legacy.posting_loop _ _ r ?l0 env ?w3] =>
          destruct (IH l0 env w3) as (o & l & w' & H & X & D & C)
      end.
      exists o, l, w'. split; [exact H|]. split; [|split].
      * unfold x_frame in *. simpl in X. congruence.
      * intros Hd. destruct (T1 Hd) as (T1' & _). destruct (D Hd) as (T3 & O & L).
        split; [|split; [exact O|]].
        -- unfold tg_frame in *. simpl in T3. destruct T1', T2, T3.
           split; congruence.
        -- rewrite L. destruct r as [|t' r']; [reflexivity|].
           change (last (Some (id t') :: map (fun p => Some (id p)) r')
                        (Some (id t))
                   = last (Some (id t') :: map (fun p => Some (id p)) r') lastId).
           apply last_cons_default.
      * intros Hw _. apply (C Hw). unfold cursor. simpl.
        destruct S1 as (_ & _ & N1 & _). rewrite (Sok (Hw _)). reflexivity.
Qed.

Lemma legacy_runOnce_inv : forall args env w res w',
  Legacy.runOnce args env w = (res, w') ->
  (dryRun args = true -> tg_frame w w')
  /\ ((forall n, read_fails env n = None) ->
      (forall n, write_fails env n = None) ->
      forall l, res = inr l -> l = cursor w').
Proof.
  intros args env w res w' H. unfold Legacy.runOnce in H.
  unfold bind at 1, ask at 1 in H.
  apply bind_inv in H. destruct H as [(e & H & ->)|([] & w1 & H1 & H)].
  { destruct (env_telegram env); prim H; inversion H; subst.
    split; [intros _; apply tg_frame_refl|]. intros _ _ l Q. discriminate. }
  assert (W1 : w1 = w)
    by (destruct (env_telegram env); prim H1; inversion H1; reflexivity).
  subst w1. clear H1.
  apply bind_inv in H. destruct H as [(e & H & ->)|([] & w1 & H1 & H)].
  { unfold Legacy.getClient in H. prim H.
    destruct (env_bearer env); inversion H; subst.
    split; [intros _; apply tg_frame_refl|]. intros _ _ l Q. discriminate. }
  assert (W1 : w1 = w)
    by (unfold Legacy.getClient in H1; prim H1;
        destruct (env_bearer env); inversion H1; reflexivity).
  subst w1. clear H1.
  apply bind_inv in H. destruct H as [(e & H & ->)|(uid & w1 & H1 & H)].
  { apply legacy_getUserId_frames in H. destruct H as (_ & T & _).
    split; [intros _; exact T|]. intros _ _ l Q. discriminate. }
  apply legacy_getUserId_frames in H1. destruct H1 as (S1 & T1 & _).
  apply bind_inv in H. destruct H as [(e & H & ->)|(state & w2 & H2 & H)].
  { destruct (legacy_loadState_total env w1) as (st & w0 & Q & _).
    rewrite Q in H. discriminate. }
  destruct (legacy_loadState_total env w1)
    as (st & w0 & Q & S2 & _ & _ & T2 & _ & _ & _ & L2).
  rewrite Q in H2. inversion H2; subst st w0. clear H2 Q.
  assert (C2 : (forall n, read_fails env n = None) ->
               last_id state = cursor w2).
  { intros Hr. rewrite (L2 (Hr _)). unfold cursor. rewrite S2. reflexivity. }
  apply bind_inv in H. destruct H as [(e & H & ->)|([o l0] & w3 & H3 & H)].
  { apply try_catch_inv in H. destruct H as [(a & _ & Q)|(e' & w3 & _ & H)];
      [discriminate|]. prim H. discriminate. }
  assert (G : (dryRun args = true -> tg_frame w2 w3)
              /\ ((forall n, write_fails env n = None) ->
                  last_id state = cursor w2 -> l0 = cursor w3)).
  { apply try_catch_inv in H3.
    destruct H3 as [(a & H3 & Q)|(e' & w4 & H3 & H4)].
    - inversion Q; subst a. clear Q.
      apply bind_inv in H3. destruct H3 as [(e' & _ & Q)|(tweets & w4 & H4 & H3)];
        [discriminate|].
      apply legacy_fetchNewTweets_frames in H4. destruct H4 as (S4 & T4 & _).
      destruct (length tweets =? 0).
      + apply bind_inv in H3. destruct H3 as [(e' & _ & Q)|([] & w5 & H5 & H3)];
          [discriminate|].
        apply push_log_frames in H5. destruct H5 as (_ & S5 & T5 & _).
        prim H3. inversion H3; subst. split.
        * intros _. eapply tg_frame_trans; eassumption.
        * intros _ Hl. rewrite (store_frame_cursor _ _ S5).
          rewrite (store_frame_cursor _ _ S4). exact Hl.
      + destruct (legacy_posting_loop_inv args (tgChat env) tweets
                    (last_id state) env w4) as (o' & l' & w5 & P & _ & D & C).
        rewrite P in H3. inversion H3; subst o' l' w5. split.
        * intros Hd. destruct (D Hd) as (T5 & _).
          eapply tg_frame_trans; eassumption.
        * intros Hw Hl. apply (C Hw).
          rewrite (store_frame_cursor _ _ S4). exact Hl.
    - prim H4. inversion H4; subst.
      apply bind_inv in H3. destruct H3 as [(e'' & H3 & _)|(tweets & w5 & H5 & H3)].
      + apply legacy_fetchNewTweets_frames in H3. destruct H3 as (S4 & T4 & _).
        split.
        * intros _. exact T4.
        * intros _ Hl. rewrite (store_frame_cursor _ _ S4). exact Hl.
      + exfalso. destruct (length tweets =? 0).
        * apply bind_inv in H3. destruct H3 as [(e'' & H3 & _)|(a & w6 & _ & H3)].
          -- apply push_log_frames in H3. destruct H3 as (Q & _). discriminate.
          -- prim H3. discriminate.
        * destruct (legacy_posting_loop_inv args (tgChat env) tweets
                      (last_id state) env w5) as (o' & l' & w6 & P & _).
          rewrite P in H3. discriminate. }
  destruct G as (GT & GC).
  assert (T02 : tg_frame w w2)
    by (eapply tg_frame_trans; eassumption).
  assert (F : (dryRun args = true -> tg_frame w3 w' -> tg_frame w w')).
  { intros Hd T. eapply tg_frame_trans; [exact T02|].
    eapply tg_frame_trans; [exact (GT Hd)|exact T]. }
  destruct o as [e|].
  - destruct (is429 (e_code e)).
    + apply bind_inv in H. destruct H as [(e' & H & _)|([] & w4 & H4 & H)].
      { apply push_log_frames in H. destruct H as (Q & _). discriminate. }
      apply push_log_frames in H4. destruct H4 as (_ & S4 & T4 & _).
      prim H. inversion H; subst. split.
      * intros Hd. apply F; assumption.
      * intros Hr Hw l Q. inversion Q; subst l.
        rewrite (store_frame_cursor _ _ S4). apply GC; auto.
    + prim H. inversion H; subst. split.
      * intros Hd. apply F; [exact Hd|apply tg_frame_refl].
      * intros _ _ l Q. discriminate.
  - prim H. inversion H; subst. split.
    + intros Hd. apply F; [exact Hd|apply tg_frame_refl].
    + intros Hr Hw l Q. inversion Q; subst l. apply GC; auto.
Qed.



(** X16.  With a state file that can be read and written, what
    [Legacy.runOnce] returns is the persisted cursor: the [last_id] it
    loaded when nothing was delivered, the id of the last delivered post
    otherwise. *)
Theorem legacy_runOnce_returns_the_cursor : forall args env w lastId w',
  (forall n, read_fails env n = None) ->
  (forall n, write_fails env n = None) ->
  Legacy.runOnce args env w = (inr lastId, w') ->
  lastId = cursor w'.
Proof.
  intros args env w lastId w' Hr Hw H.
  apply legacy_runOnce_inv in H. destruct H as (_ & C).
  apply (C Hr Hw lastId eq_refl).
Qed.

(** Posts 201 and 202 delivered by the file-backed script. *)
Lemma legacy_runOnce_returns_the_cursor_witness :
  fst (Legacy.runOnce (sample_args false None)
         (sample_env never never2 user42 (timeline_of [t202; t201] []) no_single)
         (sample_world (state_at (lit "200") (lit "42"))))
  = inr (Some (lit "202"))
  /\ Some (lit "202")
     = cursor
         (snd (Legacy.runOnce (sample_args false None)
                 (sample_env never never2 user42 (timeline_of [t202; t201] [])
                    no_single)
                 (sample_world (state_at (lit "200") (lit "42"))))).
Proof.
  split; [vm_compute; reflexivity|].
  apply (legacy_runOnce_returns_the_cursor (sample_args false None)
           (sample_env never never2 user42 (timeline_of [t202; t201] []) no_single)
           (sample_world (state_at (lit "200") (lit "42")))).
  - intros n. reflexivity.
  - intros n. reflexivity.
  - vm_compute. reflexivity.
Defined.

(* ------------------------------------------------------------------ *)
(** * Requests of a whole run                                           *)
(* ------------------------------------------------------------------ *)

Lemma getUserIdWithCache_requests : forall u state env w res w',
  getUserIdWithCache u state env w = (res, w') ->
  x_calls w' = x_calls w \/ x_calls w' = x_calls w ++ [UserByUsername u].
Proof.
  intros u state env w res w' H. unfold getUserIdWithCache in H.
  assert (G : (log (LLookingUp u) ;;
               userId <- getUserId u ;;
               saveState (last_id state) (Some userId) ;;
               ret userId) env w = (res, w') ->
              x_calls w' = x_calls w ++ [UserByUsername u]).
  { clear H. intros H.
    apply bind_inv in H. destruct H as [(e & H & _)|([] & w1 & H1 & H)].
    { apply push_log_frames in H. destruct H as (Q & _). discriminate. }
    apply push_log_frames in H1. destruct H1 as (_ & _ & _ & X1 & _).
    apply bind_inv in H. destruct H as [(e & H & _)|(uid & w2 & H2 & H)].
    { apply getUserId_frames in H. destruct H as (_ & _ & X2).
      unfold x_frame in X1. congruence. }
    apply getUserId_frames in H2. destruct H2 as (_ & _ & X2).
    apply bind_inv in H. destruct H as [(e & H & _)|([] & w3 & H3 & H)].
    { apply saveState_err in H. destruct H as (_ & _ & _ & _ & X3 & _).
      unfold x_frame in *. congruence. }
    apply saveState_ok in H3. destruct H3 as (_ & _ & _ & _ & _ & X3).
    prim H. inversion H; subst. unfold x_frame in *. congruence. }
  destruct (user_id state) as [[|c r]|].
  - right. apply G. exact H.
  - left. prim H. inversion H; subst. reflexivity.
  - right. apply G. exact H.
Qed.

Lemma fetch_step_requests : forall args uid state env w res w',
  fetch_step args uid state env w = (res, w') ->
  exists c, x_calls w' = x_calls w ++ [c].
Proof.
  intros args uid state env w res w' H. unfold fetch_step in H.
  assert (G : fetchNewTweets uid (last_id state) (includeRetweets args)
                (includeReplies args) (maxPerRun args) env w = (res, w') ->
              exists c, x_calls w' = x_calls w ++ [c]).
  { intros F. apply fetchNewTweets_request in F. eexists. exact F. }
  destruct (tweetId args) as [[|c r]|]; try (apply G; exact H).
  apply bind_inv in H. destruct H as [(e & H & _)|([] & w1 & H1 & H)].
  - apply push_log_frames in H. destruct H as (Q & _). discriminate.
  - apply push_log_frames in H1. destruct H1 as (_ & _ & _ & X1 & _).
    apply fetchSpecificTweet_inv in H. destruct H as (_ & _ & X2 & _).
    eexists. unfold x_frame in X1. rewrite X2, X1. reflexivity.
Qed.

Lemma run_try_inv : forall args state env w res w',
  run_try args state env w = (res, w') ->
  (exists l, x_calls w' = x_calls w ++ l /\ length l <= 2)
  /\ (dryRun args = true -> tg_frame w w').
Proof.
  intros args state env w res w' H. rewrite run_try_unfold in H.
  destruct (getUserIdWithCache (username args) state env w)
    as [[e|uid] w1] eqn:U.
  { inversion H; subst. split.
    - apply getUserIdWithCache_requests in U. destruct U as [U|U]; rewrite U.
      + exists []. rewrite app_nil_r. split; [reflexivity|simpl; lia].
      + eexists. split; [reflexivity|simpl; lia].
    - intros _. apply getUserIdWithCache_inv in U. tauto. }
  assert (X1 : exists l, x_calls w1 = x_calls w ++ l /\ length l <= 1).
  { apply getUserIdWithCache_requests in U. destruct U as [U|U]; rewrite U.
    - exists []. rewrite app_nil_r. split; [reflexivity|simpl; lia].
    - eexists. split; [reflexivity|simpl; lia]. }
  apply getUserIdWithCache_inv in U. destruct U as (T1 & _).
  destruct (fetch_step args uid state env w1) as [[e|[tweets media]] w2] eqn:F;
    pose proof (fetch_step_requests _ _ _ _ _ _ _ F) as (c & X2);
    apply fetch_step_frames in F; destruct F as (_ & T2);
    assert (X12 : exists l, x_calls w2 = x_calls w ++ l /\ length l <= 2)
      by (destruct X1 as (l & E & Hl); exists (l ++ [c]);
          rewrite X2, E, <- app_assoc, length_app; simpl; split;
          [reflexivity|lia]).
  { inversion H; subst. split; [exact X12|].
    intros _. eapply tg_frame_trans; eassumption. }
  destruct (length tweets =? 0).
  - apply push_log_frames in H. destruct H as (_ & _ & T3 & X3 & _).
    split.
    + unfold x_frame in X3. rewrite X3. exact X12.
    + intros _. eapply tg_frame_trans; [exact T1|].
      eapply tg_frame_trans; eassumption.
  - apply bind_inv in H. destruct H as [(e & H & _)|([] & w3 & H3 & H)].
    { apply push_log_frames in H. destruct H as (Q & _). discriminate. }
    apply push_log_frames in H3. destruct H3 as (_ & _ & T3 & X3 & _).
    apply bind_inv in H. destruct H as [(e & H & _)|([] & w4 & H4 & H)].
    + split.
      * apply processTweets_x_frame in H. unfold x_frame in *.
        rewrite H, X3. exact X12.
      * intros Hd. rewrite Hd in H.
        pose proof (processTweets_dry_tg_frame media (username args) (tgChat env)
                      (disablePreview args) uid tweets env w3) as T4.
        rewrite H in T4. simpl in T4.
        eapply tg_frame_trans; [exact T1|].
        eapply tg_frame_trans; [exact T2|].
        eapply tg_frame_trans; eassumption.
    + apply push_log_frames in H. destruct H as (_ & _ & T5 & X5 & _).
      split.
      * apply processTweets_x_frame in H4. unfold x_frame in *.
        rewrite X5, H4, X3. exact X12.
      * intros Hd. rewrite Hd in H4.
        pose proof (processTweets_dry_tg_frame media (username args) (tgChat env)
                      (disablePreview args) uid tweets env w3) as T4.
        rewrite H4 in T4. simpl in T4.
        eapply tg_frame_trans; [exact T1|].
        eapply tg_frame_trans; [exact T2|].
        eapply tg_frame_trans; [exact T3|].
        eapply tg_frame_trans; eassumption.
Qed.

Lemma run_inv : forall args env w res w',
  run args env w = (res, w') ->
  (exists l, x_calls w' = x_calls w ++ l /\ length l <= 2)
  /\ (dryRun args = true -> tg_frame w w').
Proof.
  intros args env w res w' H.
  assert (Z : forall w0 : World,
            (exists l, x_calls w0 = x_calls w0 ++ l /\ length l <= 2)
            /\ (dryRun args = true -> tg_frame w0 w0)).
  { intros w0. split; [exists []; rewrite app_nil_r; split; [reflexivity|simpl; lia]|].
    intros _. apply tg_frame_refl. }
  unfold run in H. unfold bind at 1, ask at 1 in H.
  apply bind_inv in H. destruct H as [(e & H & _)|([] & w1 & H1 & H)].
  { destruct (env_telegram env); prim H; inversion H; subst. apply Z. }
  assert (W1 : w1 = w)
    by (destruct (env_telegram env); prim H1; inversion H1; reflexivity).
  subst w1. clear H1.
  apply bind_inv in H. destruct H as [(e & H & _)|([] & w1 & H1 & H)].
  { unfold getClient in H. prim H.
    destruct (env_bearer env); inversion H; subst. apply Z. }
  assert (W1 : w1 = w)
    by (unfold getClient in H1; prim H1;
        destruct (env_bearer env); inversion H1; reflexivity).
  subst w1. clear H1.
  apply bind_inv in H. destruct H as [(e & H & _)|(state & w1 & H1 & H)].
  { apply loadState_err in H. destruct H as (_ & _ & _ & T & X).
    split; [|intros _; exact T].
    exists []. rewrite app_nil_r. unfold x_frame in X.
    split; [exact X|simpl; lia]. }
  apply loadState_ok in H1. destruct H1 as (_ & _ & _ & T1 & X1 & _).
  unfold x_frame in X1.
  apply try_catch_inv in H. destruct H as [(a & H & _)|(e & w2 & H2 & H)].
  - apply run_try_inv in H. destruct H as ((l & E & Hl) & T).
    split; [exists l; rewrite E, X1; auto|].
    intros Hd. eapply tg_frame_trans; [exact T1|exact (T Hd)].
  - apply run_try_inv in H2. destruct H2 as ((l & E & Hl) & T).
    assert (F : tg_frame w2 w' /\ x_frame w2 w').
    { unfold run_catch in H. destruct (has429Status e).
      - destruct (e_rateLimit e); prim H; inversion H; subst; split_frames.
      - prim H. inversion H; subst. split_frames. }
    destruct F as (T3 & X3). unfold x_frame in X3. split.
    + exists l. rewrite X3, E, X1. auto.
    + intros Hd. eapply tg_frame_trans; [exact T1|].
      eapply tg_frame_trans; [exact (T Hd)|exact T3].
Qed.

(** X17.  Whatever happens, a run makes at most two requests to the X
    API (the account lookup, when the id is not cached, and one fetch),
    and in a dry run it makes no call to Telegram. *)
Theorem run_is_frugal : forall args env w,
  (exists l,
     x_calls (snd (run args env w)) = x_calls w ++ l /\ length l <= 2)
  /\ (dryRun args = true -> tg_frame w (snd (run args env w))).
Proof.
  intros args env w. destruct (run args env w) as [res w'] eqn:E.
  apply run_inv in E. exact E.
Qed.

(** A first dry run: one lookup, one timeline request, no Telegram
    call. *)
Lemma run_is_frugal_witness :
  length (x_calls
            (snd (run (sample_args true None)
                    (sample_env never never2 user42 (timeline_of [t201] [])
                       no_single)
                    (sample_world NoFile))))
  = 2
  /\ tg_attempts
       (snd (run (sample_args true None)
               (sample_env never never2 user42 (timeline_of [t201] []) no_single)
               (sample_world NoFile)))
     = 0.
Proof.
  destruct (run_is_frugal (sample_args true None)
              (sample_env never never2 user42 (timeline_of [t201] []) no_single)
              (sample_world NoFile)) as (_ & T).
  destruct (T eq_refl) as (A & _).
  split; [vm_compute; reflexivity|exact A].
Defined.

(* ------------------------------------------------------------------ *)
(** * Where the two orders agree                                        *)
(* ------------------------------------------------------------------ *)

Lemma is_digit_range : forall c, is_digit c = true -> (48 <= c <= 57)%N.
Proof.
  intros c H. unfold is_digit in H. apply andb_true_iff in H.
  destruct H as [H1 H2]. apply N.leb_le in H1. apply N.leb_le in H2. lia.
Qed.

Lemma digit_not_ws : forall c, is_digit c = true -> is_ws c = false.
Proof.
  intros c H. apply is_digit_range in H. unfold is_ws.
  repeat match goal with
         | |- context [(?a <=? ?b)%N] => destruct (N.leb_spec a b)
         | |- context [(?a =? ?b)%N] => destruct (N.eqb_spec a b)
         end; simpl; try reflexivity; lia.
Qed.

Lemma dropWhile_digits : forall s,
  all_digits s = true -> dropWhile is_ws s = s.
Proof.
  intros [|c r] H; [reflexivity|]. simpl in *.
  apply andb_true_iff in H. destruct H as [H _].
  rewrite (digit_not_ws c H). reflexivity.
Qed.

Lemma all_digits_rev : forall s, all_digits s = true -> all_digits (rev s) = true.
Proof.
  intros s H. unfold all_digits in *. rewrite forallb_forall in *.
  intros c Hc. apply H. apply in_rev. exact Hc.
Qed.

Lemma trim_digits : forall s, all_digits s = true -> trim s = s.
Proof.
  intros s H. unfold trim. rewrite (dropWhile_digits s H).
  rewrite (dropWhile_digits (rev s) (all_digits_rev s H)). apply rev_involutive.
Qed.

Lemma digit_of_decimal : forall c,
  is_digit c = true -> Legacy.digit_of 10 c = Some (Z.of_N (c - 48)).
Proof.
  intros c H. unfold Legacy.digit_of. rewrite H.
  apply is_digit_range in H.
  destruct (Z.ltb_spec (Z.of_N (c - 48)) 10); [reflexivity|lia].
Qed.

Lemma BigInt_go_value : forall s acc,
  all_digits s = true ->
  Legacy.BigInt_go 10 acc s
  = Some (acc * 10 ^ Z.of_nat (length s) + digits_value s)%Z
  /\ (0 <= digits_value s < 10 ^ Z.of_nat (length s))%Z.
Proof.
  induction s as [|c r IH]; intros acc H.
  - simpl. split; [f_equal; lia|lia].
  - simpl in H. apply andb_true_iff in H. destruct H as [Hc Hr].
    cbn [Legacy.BigInt_go length digits_value].
    rewrite (digit_of_decimal c Hc).
    apply is_digit_range in Hc.
    destruct (IH (10 * acc + Z.of_N (c - 48))%Z Hr) as (E & B).
    rewrite E. rewrite Nat2Z.inj_succ, Z.pow_succ_r by lia.
    split; [f_equal; ring|]. nia.
Qed.

(** On a string of digits [BigInt] gives the number it denotes. *)
Lemma BigInt_digits : forall s,
  all_digits s = true -> Legacy.BigInt s = Some (digits_value s).
Proof.
  intros s H. unfold Legacy.BigInt. rewrite (trim_digits s H).
  destruct s as [|c r]; [reflexivity|].
  assert (V : Legacy.digits_in 10 (c :: r) = Some (digits_value (c :: r))).
  { unfold Legacy.digits_in. destruct (BigInt_go_value (c :: r) 0 H) as (E & _).
    rewrite E. f_equal; ring. }
  pose proof H as H'. simpl in H'. apply andb_true_iff in H'.
  destruct H' as [Hc Hr]. apply is_digit_range in Hc.
  destruct (N.eqb_spec c 43); [lia|].
  destruct (N.eqb_spec c 45); [lia|].
  destruct (N.eqb_spec c 48); [|exact V].
  destruct r as [|p h]; [exact V|].
  simpl in Hr. apply andb_true_iff in Hr. destruct Hr as [Hp _].
  apply is_digit_range in Hp.
  destruct (N.eqb_spec p 120); [lia|]. destruct (N.eqb_spec p 88); [lia|].
  destruct (N.eqb_spec p 111); [lia|]. destruct (N.eqb_spec p 79); [lia|].
  destruct (N.eqb_spec p 98); [lia|]. destruct (N.eqb_spec p 66); [lia|].
  exact V.
Qed.

Lemma BigInt_val_digits : forall s,
  all_digits s = true -> Legacy.BigInt_val s = digits_value s.
Proof.
  intros s H. unfold Legacy.BigInt_val. rewrite (BigInt_digits s H). reflexivity.
Qed.

Lemma is_numeric_digits : forall s,
  all_digits s = true -> Legacy.is_numeric s = true.
Proof.
  intros s H. unfold Legacy.is_numeric. rewrite (BigInt_digits s H). reflexivity.
Qed.

(** On two different strings of as many decimal digits, the order of the
    numbers is the order of the strings. *)
Lemma digits_order : forall a b,
  length a = length b ->
  all_digits a = true ->
  all_digits b = true ->
  a <> b ->
  ((digits_value a < digits_value b)%Z <-> (compare_units a b <= 0)%Z).
Proof.
  induction a as [|x a IH]; intros [|y b] Hl Ha Hb Hne; simpl in Hl;
    try discriminate.
  - contradiction.
  - simpl in Ha, Hb.
    apply andb_true_iff in Ha. destruct Ha as (Dx & Ha).
    apply andb_true_iff in Hb. destruct Hb as (Dy & Hb).
    apply is_digit_range in Dx. apply is_digit_range in Dy.
    injection Hl as Hl.
    destruct (BigInt_go_value a 0 Ha) as (_ & Ba).
    destruct (BigInt_go_value b 0 Hb) as (_ & Bb).
    cbn [digits_value compare_units]. rewrite Hl in Ba |- *.
    set (P := (10 ^ Z.of_nat (length b))%Z) in *.
    destruct (x <? y)%N eqn:L1.
    + apply N.ltb_lt in L1. split; [lia|]. intros _.
      assert (Z.of_N (x - 48) + 1 <= Z.of_N (y - 48))%Z by lia. nia.
    + apply N.ltb_ge in L1. destruct (y <? x)%N eqn:L2.
      * apply N.ltb_lt in L2. split; [|lia]. intros H.
        assert (Z.of_N (y - 48) + 1 <= Z.of_N (x - 48))%Z by lia. nia.
      * apply N.ltb_ge in L2. assert (x = y) by lia. subst y.
        assert (Hne' : a <> b) by (intros Q; apply Hne; congruence).
        rewrite <- (IH b Hl Ha Hb Hne'). lia.
Qed.

(** X18.  On a timeline page whose ids are different strings of as many
    decimal digits, the two scripts agree: the comparator with [BigInt]
    and the comparator with [localeCompare] sort the page into the same
    list, so that [Legacy.fetchNewTweets] returns the first [maxPerRun]
    posts of what [fetchNewTweets] returns. *)
Theorem both_scripts_sort_alike_on_equal_length_ids :
  forall n uid since ir ire mpr env w resp,
  x_timeline env (length (x_calls w))
    {| rq_user := uid;
       rq_since_id := if truthy since then since else None;
       rq_max_results := Nat.min 100 mpr;
       rq_exclude := (if negb ir then [lit "retweets"] else [])
                     ++ (if negb ire then [lit "replies"] else []) |}
  = inr resp ->
  Forall (digits_id n) (or_nil (tr_data resp)) ->
  NoDup (map id (or_nil (tr_data resp))) ->
  array_sort Legacy.by_BigInt (or_nil (tr_data resp))
  = array_sort (fun a b => localeCompare (collation env) (id a) (id b))
               (or_nil (tr_data resp))
  /\ fst (fetchNewTweets uid since ir ire mpr env w)
     = inr (array_sort (fun a b => localeCompare (collation env) (id a) (id b))
                       (or_nil (tr_data resp)),
            or_nil (tr_media resp))
  /\ fst (Legacy.fetchNewTweets uid since ir ire mpr env w)
     = inr (firstn mpr
              (array_sort (fun a b => localeCompare (collation env) (id a) (id b))
                          (or_nil (tr_data resp)))).
Proof.
  intros n uid since ir ire mpr env w resp Hx Hd Hnd.
  assert (E : array_sort Legacy.by_BigInt (or_nil (tr_data resp))
              = array_sort (fun a b => localeCompare (collation env) (id a) (id b))
                           (or_nil (tr_data resp))).
  { apply array_sort_ext.
    eapply ForallOrdPairs_impl;
      [|apply (ForallOrdPairs_and_Forall _ _ _ _ Hd
                 (NoDup_map_pairs_gen _ _ id _ Hnd))].
    intros x y ((Nx & Lx) & (Ny & Ly) & Hne). simpl in Hne.
    unfold Legacy.by_BigInt.
    rewrite (BigInt_val_digits _ Nx), (BigInt_val_digits _ Ny).
    rewrite (localeCompare_digits _ _ _ Ny Nx).
    assert (Hne' : id y <> id x) by congruence.
    pose proof (digits_order (id y) (id x) ltac:(congruence) Ny Nx Hne') as O.
    assert (Z0 : compare_units (id y) (id x) <> 0%Z)
      by (intros Q; apply Hne'; apply compare_units_eq; exact Q).
    destruct (digits_value (id y) <? digits_value (id x))%Z eqn:L.
    - apply Z.ltb_lt in L. apply O in L.
      destruct (Z.ltb_spec (compare_units (id y) (id x)) 0); [reflexivity|lia].
    - apply Z.ltb_ge in L.
      destruct (Z.ltb_spec (compare_units (id y) (id x)) 0); [|reflexivity].
      assert (Q : (compare_units (id y) (id x) <= 0)%Z) by lia.
      apply O in Q. lia. }
  split; [exact E|]. split.
  - destruct (fetchNewTweets_result uid since ir ire mpr env w resp Hx)
      as (w' & H).
    rewrite H. reflexivity.
  - assert (F : Forall (fun t => Legacy.is_numeric (id t) = true)
                       (or_nil (tr_data resp))).
    { eapply Forall_impl; [|exact Hd]. intros t (N & _).
      apply is_numeric_digits. exact N. }
    destruct (legacy_fetchNewTweets_result uid since ir ire mpr env w resp Hx F)
      as (w' & H).
    rewrite H, E. reflexivity.
Qed.

(** A page of three posts, newest first: both scripts hand them on oldest
    first. *)
Lemma both_scripts_sort_alike_on_equal_length_ids_witness :
  fst (Legacy.fetchNewTweets (lit "42") None false false 50
         (sample_env never never2 user42 (timeline_of [t203; t201; t202] [])
            no_single)
         (sample_world NoFile))
  = inr [t201; t202; t203]
  /\ fst (fetchNewTweets (lit "42") None false false 50
            (sample_env never never2 user42 (timeline_of [t203; t201; t202] [])
               no_single)
            (sample_world NoFile))
     = inr ([t201; t202; t203], []).
Proof.
  assert (D : Forall (digits_id 3) [t203; t201; t202]).
  { repeat constructor. }
  assert (N : NoDup (map id [t203; t201; t202])).
  { repeat constructor; simpl; intuition discriminate. }
  destruct (both_scripts_sort_alike_on_equal_length_ids 3 (lit "42") None
              false false 50
              (sample_env never never2 user42
                 (timeline_of [t203; t201; t202] []) no_single)
              (sample_world NoFile)
              {| tr_data := Some [t203; t201; t202]; tr_media := Some [];
                 tr_rateLimit := None |}
              eq_refl D N) as (_ & B & C).
  split.
  - etransitivity; [exact C|reflexivity].
  - etransitivity; [exact B|reflexivity].
Defined.
